(** * QJS: instrumentation decorators of [src/q.js]

    A shallow embedding of the GJS module [q.js] (trace / time /
    breakBefore decorators, the pretty-printer, the log sink and the
    immediate inspector [q]) together with the part of the JavaScript
    object model that the module relies on: a heap of objects with
    properties, functions as heap objects, exceptions, and calls.

    Layout: values and the heap; the pure runtime primitives (property
    read and write, [JSON.stringify]); the state and the computation
    monad; the functions of [q.js], in source order; the vocabulary of
    the statements and a small host program; then the theorems, one
    per claim C1 to C10 of the specification, with the lemmas they
    rest on, followed by further properties of the module, X1 to
    X21. *)

From Stdlib Require Import ZArith String Ascii List Lia DecimalString.
From stdpp Require Import base list strings.

(** ** Values *)

(** Heap addresses.  Objects are never freed (garbage collection is not
    observable), so the heap is a list and an address is an index. *)
Abbreviation loc := nat (only parsing).

(** JavaScript values.  Numbers are the integer-valued doubles, written
    as [Z], plus [NaN]; fractional numbers do not occur in the parts of
    the module modelled with [value]s.  Strings are sequences of 8-bit
    characters. *)
Inductive value : Type :=
| VUndefined
| VNull
| VBool (b : bool)
| VNum (n : Z)
| VNaN
| VStr (s : string)
| VRef (l : loc).

#[global] Instance value_eq_dec : EqDecision value.
Proof. solve_decision. Defined.

(** What a [throw] carries.  The text of the errors that the runtime
    itself raises only describes them; the one message fixed by the
    module is that of [_decorate]. *)
Inductive exn : Type :=
| TypeError (msg : string)
| RangeError (msg : string)
| Thrown (v : value).

(** Result of a pure runtime primitive: a value, an exception, fuel
    exhausted (the model of a computation that has not finished), or
    [RHost]: the runtime would run host code here (a [toString] or
    [toJSON] method of an object) and the model gives no answer. *)
Inductive result (A : Type) : Type :=
| ROk (a : A)
| RErr (e : exn)
| RFuel
| RHost.
Arguments ROk {A} a.
Arguments RErr {A} e.
Arguments RFuel {A}.
Arguments RHost {A}.

Definition rbind {A B} (r : result A) (f : A -> result B) : result B :=
  match r with
  | ROk a => f a
  | RErr e => RErr e
  | RFuel => RFuel
  | RHost => RHost
  end.

Fixpoint rmapM {A B} (f : A -> result B) (l : list A) : result (list B) :=
  match l with
  | [] => ROk []
  | a :: l' => rbind (f a) (fun b => rbind (rmapM f l') (fun bs => ROk (b :: bs)))
  end.

(** ** Host functions

    The body of a function of the host program, as far as the module can
    observe it: it returns, throws, reads a property, or calls a function
    value and goes on with what the call returned (an exception raised by
    the callee propagates, there is no handler). *)
Inductive prog : Type :=
| PRet (v : value)
| PThrow (v : value)
| PGet (o : value) (key : string) (k : value -> prog)
| PCall (f : value) (this : value) (args : list value) (k : value -> prog).

(** The code behind a function object: a host function, or one of the
    three closures created by the decorators of [q.js], with the
    variables they capture ([func], [funcName]). *)
Inductive code : Type :=
| CHost (body : value -> list value -> prog)
| CTraceShim (func funcName : value)
| CTimeShim (func funcName : value)
| CBreakShim (func : value).

Inductive kind : Type :=
| KObject
| KArray (elems : list value)
| KFunction (name : string) (arity : nat) (c : code).

(** An object: its kind and its own enumerable properties in insertion
    order.  Prototype chains are not modelled: a member such as
    [push] of an array is read from the object's own properties. *)
Record object : Type := Object {
  o_kind : kind;
  o_props : list (string * value)
}.

(** ** Strings and numbers *)

(** The decimal spelling of an integer (that of the runtime below
    [10^21] in magnitude, where it switches to an exponent). *)
Definition Z_to_string (n : Z) : string := NilZero.string_of_int (Z.to_int n).

Definition strlen (s : string) : Z := Z.of_nat (String.length s).

(** A canonical array index: the decimal spelling of a natural number. *)
Definition key_index (k : string) : option nat :=
  match NilZero.uint_of_string k with
  | Some u =>
      let n := Nat.of_uint u in
      if String.eqb (Z_to_string (Z.of_nat n)) k then Some n else None
  | None => None
  end.

(** Truthiness, as tested by [if], [!], [||] and the loop condition. *)
Definition truthy (v : value) : bool :=
  match v with
  | VUndefined | VNull | VNaN => false
  | VBool b => b
  | VNum n => negb (n =? 0)%Z
  | VStr s => negb (String.eqb s "")
  | VRef _ => true
  end.

(** [===]: equal values of the same type; [NaN] differs from itself. *)
Definition strict_eq (a b : value) : bool :=
  match a with
  | VNaN => false
  | _ => bool_decide (a = b)
  end.

(** [ToString] of a primitive.  An object is converted by its
    [toString] method, which is host code: no answer. *)
Definition ToString (v : value) : result string :=
  match v with
  | VUndefined => ROk "undefined"
  | VNull => ROk "null"
  | VBool true => ROk "true"
  | VBool false => ROk "false"
  | VNum n => ROk (Z_to_string n)
  | VNaN => ROk "NaN"
  | VStr s => ROk s
  | VRef _ => RHost
  end.

(** [ToNumber], for [++] and [--].  Only the strings that spell a
    natural number are parsed; the others give [NaN]. *)
Definition ToNumber (v : value) : result value :=
  match v with
  | VUndefined | VNaN => ROk VNaN
  | VNull | VBool false => ROk (VNum 0)
  | VBool true => ROk (VNum 1)
  | VNum n => ROk (VNum n)
  | VStr s =>
      if String.eqb s "" then ROk (VNum 0)
      else match key_index s with
           | Some n => ROk (VNum (Z.of_nat n))
           | None => ROk VNaN
           end
  | VRef _ => RHost
  end.

(** ** Properties *)

Fixpoint props_get (ps : list (string * value)) (k : string) : option value :=
  match ps with
  | [] => None
  | (k', v) :: ps' => if String.eqb k' k then Some v else props_get ps' k
  end.

Fixpoint props_set (ps : list (string * value)) (k : string) (x : value)
  : list (string * value) :=
  match ps with
  | [] => [(k, x)]
  | (k', v) :: ps' =>
      if String.eqb k' k then (k', x) :: ps' else (k', v) :: props_set ps' k x
  end.

Definition own (o : object) (k : string) : value :=
  default VUndefined (props_get (o_props o) k).

(** [o[k]] on one object: arrays answer [length] and their indices,
    functions answer [name] and [length]. *)
Definition obj_get (o : object) (k : string) : value :=
  match o_kind o with
  | KObject => own o k
  | KArray elems =>
      if String.eqb k "length" then VNum (Z.of_nat (length elems))
      else match key_index k with
           | Some i => default VUndefined (elems !! i)
           | None => own o k
           end
  | KFunction name arity _ =>
      if String.eqb k "name" then VStr name
      else if String.eqb k "length" then VNum (Z.of_nat arity)
      else own o k
  end.

Definition with_props (o : object) (ps : list (string * value)) : object :=
  {| o_kind := o_kind o; o_props := ps |}.

(** [o[k] = x] on one object.  Writing an index of an array stores the
    element, extending the array with holes; writing its [length]
    resizes it or raises; [name] and [length] of a function are
    read-only and the write is ignored. *)
Definition obj_set (o : object) (k : string) (x : value) : result object :=
  match o_kind o with
  | KObject => ROk (with_props o (props_set (o_props o) k x))
  | KArray elems =>
      if String.eqb k "length" then
        match x with
        | VNum n =>
            if (n <? 0)%Z then RErr (RangeError "invalid array length")
            else ROk {| o_kind := KArray (take (Z.to_nat n) elems ++
                                          replicate (Z.to_nat n - length elems) VUndefined);
                        o_props := o_props o |}
        | _ => RErr (RangeError "invalid array length")
        end
      else match key_index k with
           | Some i =>
               ROk {| o_kind := KArray (if decide (i < length elems)%nat
                                        then <[i := x]> elems
                                        else elems ++ replicate (i - length elems) VUndefined ++ [x]);
                      o_props := o_props o |}
           | None => ROk (with_props o (props_set (o_props o) k x))
           end
  | KFunction _ _ _ =>
      if String.eqb k "name" then ROk o
      else if String.eqb k "length" then ROk o
      else ROk (with_props o (props_set (o_props o) k x))
  end.

(** [v[k]]: reading a property of [undefined] or [null] raises; a string
    has a length and characters; other primitives have nothing.  An
    address outside the heap does not occur; the model gives no answer. *)
Definition get (h : list object) (v : value) (k : string) : result value :=
  match v with
  | VUndefined | VNull => RErr (TypeError "value is undefined or null")
  | VStr s =>
      if String.eqb k "length" then ROk (VNum (strlen s))
      else match key_index k with
           | Some i =>
               ROk (match String.get i s with
                    | Some c => VStr (String c EmptyString)
                    | None => VUndefined
                    end)
           | None => ROk VUndefined
           end
  | VRef l =>
      match h !! l with
      | Some o => ROk (obj_get o k)
      | None => RHost
      end
  | _ => ROk VUndefined
  end.

(** [v[k] = x]: raises on [undefined] and [null], is silently dropped on
    the other primitives (the module is not in strict mode). *)
Definition set (h : list object) (v : value) (k : string) (x : value)
  : result (list object) :=
  match v with
  | VUndefined | VNull => RErr (TypeError "value is undefined or null")
  | VRef l =>
      match h !! l with
      | Some o => rbind (obj_set o k x) (fun o' => ROk (<[l := o']> h))
      | None => RHost
      end
  | _ => ROk h
  end.

(** [typeof v === 'function'] *)
Definition is_function (h : list object) (v : value) : bool :=
  match v with
  | VRef l =>
      match h !! l with
      | Some {| o_kind := KFunction _ _ _ |} => true
      | _ => false
      end
  | _ => false
  end.

(** ** [JSON.stringify] *)

Definition chr (n : nat) : string := String (ascii_of_nat n) EmptyString.

Definition hex_digit (n : nat) : string :=
  chr (if (n <? 10)%nat then 48 + n else 87 + n).

(** One character inside a JSON string literal: the quote (34) and the
    backslash (92) are escaped, control characters have their short or
    [\u00XX] form. *)
Definition json_escape (c : ascii) : string :=
  let n := nat_of_ascii c in
  if (n =? 34)%nat then chr 92 +:+ chr 34
  else if (n =? 92)%nat then chr 92 +:+ chr 92
  else if (n =? 8)%nat then chr 92 +:+ "b"
  else if (n =? 9)%nat then chr 92 +:+ "t"
  else if (n =? 10)%nat then chr 92 +:+ "n"
  else if (n =? 12)%nat then chr 92 +:+ "f"
  else if (n =? 13)%nat then chr 92 +:+ "r"
  else if (n <? 32)%nat then
    chr 92 +:+ "u00" +:+ hex_digit (n / 16) +:+ hex_digit (n mod 16)
  else String c EmptyString.

Fixpoint json_escape_all (s : string) : string :=
  match s with
  | EmptyString => EmptyString
  | String c s' => json_escape c +:+ json_escape_all s'
  end.

Definition json_quote (s : string) : string :=
  chr 34 +:+ json_escape_all s +:+ chr 34.

Definition has_index_key (ps : list (string * value)) : bool :=
  existsb (fun p => bool_decide (is_Some (key_index p.1))) ps.

(** [JSON.stringify(v)]: [ROk None] is the result [undefined] (for
    [undefined] itself and for functions), [RErr] the [TypeError] of a
    cyclic structure.  [stack] holds the objects being serialised.  Inside
    an array an element without rendering is printed as [null]; inside an
    object such a member is left out.  An object with a [toJSON] method,
    or whose keys include array indices (which the runtime enumerates
    first), is outside the model. *)
Fixpoint stringify (fuel : nat) (h : list object) (stack : list loc) (v : value)
  : result (option string) :=
  match v with
  | VUndefined => ROk None
  | VNull => ROk (Some "null")
  | VBool true => ROk (Some "true")
  | VBool false => ROk (Some "false")
  | VNum n => ROk (Some (Z_to_string n))
  | VNaN => ROk (Some "null")
  | VStr s => ROk (Some (json_quote s))
  | VRef l =>
      match fuel with
      | O => RFuel
      | S fuel' =>
          match h !! l with
          | None => RHost
          | Some o =>
              if is_function h (obj_get o "toJSON") then RHost
              else match o_kind o with
                   | KFunction _ _ _ => ROk None
                   | KArray elems =>
                       if bool_decide (l ∈ stack)
                       then RErr (TypeError "cyclic object value")
                       else
                         rbind (rmapM (fun e =>
                                  rbind (stringify fuel' h (l :: stack) e)
                                        (fun r => ROk (default "null" r))) elems)
                               (fun parts =>
                                  ROk (Some ("[" +:+ String.concat "," parts +:+ "]")))
                   | KObject =>
                       if bool_decide (l ∈ stack)
                       then RErr (TypeError "cyclic object value")
                       else if has_index_key (o_props o) then RHost
                       else
                         rbind (rmapM (fun p : string * value =>
                                  rbind (stringify fuel' h (l :: stack) p.2)
                                        (fun r => ROk ((fun s => json_quote p.1 +:+ ":" +:+ s) <$> r)))
                                  (o_props o))
                               (fun parts =>
                                  ROk (Some ("{" +:+ String.concat "," (omap id parts) +:+ "}")))
                   end
          end
      end
  end.

(** ** [_prettyPrint] (q.js, lines 104-111) *)

(** [retval.substr(0, 12) + '...'] when [retval.length > 15]. *)
Definition truncate (retval : string) : string :=
  if (15 <? strlen retval)%Z then substring 0 12 retval +:+ "..." else retval.

(**
<<
function _prettyPrint(obj) {
    let retval = JSON.stringify(obj);
    if (retval.length > 15)
        retval = retval.substr(0, 12) + '...';
    if (obj.length !== undefined)
        retval += ' (length ' + obj.length + ')';
    return retval;
}
>>
    When [JSON.stringify] returns [undefined], reading [retval.length]
    raises a [TypeError]. *)
Definition _prettyPrint (fuel : nat) (h : list object) (obj : value) : result string :=
  rbind (stringify fuel h [] obj) (fun r =>
  match r with
  | None => RErr (TypeError "retval is undefined")
  | Some retval =>
      let retval := truncate retval in
      rbind (get h obj "length") (fun len =>
      if negb (strict_eq len VUndefined) then
        rbind (ToString len) (fun n => ROk (retval +:+ " (length " +:+ n +:+ ")"))
      else ROk retval)
  end).

(** ** State and computations *)

(** The module-level variables of [q.js] and the parts of the runtime it
    talks to.  [_stream] is the sink: the strings written, in order.
    [clock] gives the successive readings of [GLib.get_monotonic_time]
    in microseconds, [ticks] counts the readings taken.  [traps] counts
    the calls of [System.breakpoint], taken to return (the program runs
    under a debugger).  [window] is the global object. *)
Record state : Type := State {
  heap : list object;
  DEBUG : value;
  _breakpoints : Z;
  _startTime : Z;
  _stream : list string;
  clock : nat -> Z;
  ticks : nat;
  traps : nat;
  window : value
}.

Definition with_heap (st : state) (h : list object) : state :=
  {| heap := h; DEBUG := DEBUG st; _breakpoints := _breakpoints st;
     _startTime := _startTime st; _stream := _stream st; clock := clock st;
     ticks := ticks st; traps := traps st; window := window st |}.

(** [Q.DEBUG = v] *)
Definition set_DEBUG (v : value) (st : state) : state :=
  {| heap := heap st; DEBUG := v; _breakpoints := _breakpoints st;
     _startTime := _startTime st; _stream := _stream st; clock := clock st;
     ticks := ticks st; traps := traps st; window := window st |}.

(** How a computation ends: normally with a value, with an exception (the
    state reached at the [throw] is kept), out of fuel, or at host code
    outside the model. *)
Inductive outcome (A : Type) : Type :=
| Done (a : A) (s : state)
| Raise (e : exn) (s : state)
| OutOfFuel
| Host.
Arguments Done {A} a s.
Arguments Raise {A} e s.
Arguments OutOfFuel {A}.
Arguments Host {A}.

Definition M (A : Type) : Type := state -> outcome A.

Definition ret {A} (a : A) : M A := fun st => Done a st.

Definition raise {A} (e : exn) : M A := fun st => Raise e st.

Definition bind {A B} (c : M A) (k : A -> M B) : M B :=
  fun st =>
    match c st with
    | Done a st' => k a st'
    | Raise e st' => Raise e st'
    | OutOfFuel => OutOfFuel
    | Host => Host
    end.

Notation "x <- c ;; k" := (bind c (fun x => k))
  (at level 100, c at next level, right associativity).

Definition lift {A} (r : result A) : M A :=
  fun st =>
    match r with
    | ROk a => Done a st
    | RErr e => Raise e st
    | RFuel => OutOfFuel
    | RHost => Host
    end.

Fixpoint mapM {A B} (f : A -> M B) (l : list A) : M (list B) :=
  match l with
  | [] => ret []
  | a :: l' => b <- f a ;; bs <- mapM f l' ;; ret (b :: bs)
  end.

Definition getP (v : value) (k : string) : M value :=
  fun st => lift (get (heap st) v k) st.

Definition setP (v : value) (k : string) (x : value) : M unit :=
  fun st =>
    match set (heap st) v k x with
    | ROk h => Done tt (with_heap st h)
    | RErr e => Raise e st
    | RFuel => OutOfFuel
    | RHost => Host
    end.

(** A new object at the next free address. *)
Definition alloc (o : object) : M value :=
  fun st => Done (VRef (length (heap st))) (with_heap st (heap st ++ [o])).

(** [GLib.get_monotonic_time()] *)
Definition get_monotonic_time : M Z :=
  fun st =>
    Done (clock st (ticks st))
         {| heap := heap st; DEBUG := DEBUG st; _breakpoints := _breakpoints st;
            _startTime := _startTime st; _stream := _stream st; clock := clock st;
            ticks := S (ticks st); traps := traps st; window := window st |}.

(** [System.breakpoint()] *)
Definition breakpoint : M unit :=
  fun st =>
    Done tt
         {| heap := heap st; DEBUG := DEBUG st; _breakpoints := _breakpoints st;
            _startTime := _startTime st; _stream := _stream st; clock := clock st;
            ticks := ticks st; traps := S (traps st); window := window st |}.

(** [_stream.write(output, null)] *)
Definition stream_write (output : string) : M unit :=
  fun st =>
    Done tt
         {| heap := heap st; DEBUG := DEBUG st; _breakpoints := _breakpoints st;
            _startTime := _startTime st; _stream := _stream st ++ [output];
            clock := clock st; ticks := ticks st; traps := traps st;
            window := window st |}.

(** ** The log sink: [write] (q.js, lines 23-29) *)

Definition pad_left (w : nat) (s : string) : string :=
  String.concat EmptyString (replicate (w - String.length s) " ") +:+ s.

(** Modelled from the spec: [Format.format] of the GJS runtime
    ([imports.format]) is not under src/.  Section 6 of the spec gives
    the field as elapsed seconds since process start, modulo 100, one
    decimal digit, left-padded to width 4, which is what the printf
    directive [%4.1f] of the source denotes.  [us] is the elapsed time
    [now - _startTime] in microseconds.  The runtime divides by [1e6] in
    double precision; the model computes the tenths on the exact
    quotient and rounds a tie away from zero.  [elapsed_digits] is the
    text of the number, [format_elapsed] the whole prefix. *)
Definition elapsed_tenths (us : Z) : Z :=
  ((Z.abs (Z.rem us 100000000) + 50000) / 100000)%Z.

Definition elapsed_digits (us : Z) : string :=
  let t := elapsed_tenths us in
  (if (Z.rem us 100000000 <? 0)%Z then "-" else EmptyString) +:+
  Z_to_string (t / 10) +:+ "." +:+ Z_to_string (t mod 10).

Definition format_elapsed (us : Z) : string :=
  pad_left 4 (elapsed_digits us) +:+ "s ".

(** One element of [Array.join]: [undefined] and [null] give the empty
    string. *)
Definition join_token (v : value) : result string :=
  match v with
  | VUndefined | VNull => ROk EmptyString
  | _ => ToString v
  end.

(**
<<
function write() {
    let string = Array.join(arguments, ' ');
    let now = GLib.get_monotonic_time();
    let prefix = '%4.1fs '.format(((now - _startTime) / 1e6) % 100);
    let output = prefix + string + '\n';
    _stream.write(output, null);
}
>> *)
Definition write (arguments : list value) : M unit :=
  strs <- lift (rmapM join_token arguments) ;;
  let string := String.concat " " strs in
  now <- get_monotonic_time ;;
  fun st =>
    let prefix := format_elapsed (now - _startTime st) in
    let output := prefix +:+ string +:+ chr 10 in
    stream_write output st.

(** ** The call-site resolver (q.js, lines 31-49) *)

Fixpoint split_aux (sep : ascii) (acc : string) (s : string) : list string :=
  match s with
  | EmptyString => [acc]
  | String c s' =>
      if Ascii.eqb c sep then acc :: split_aux sep EmptyString s'
      else split_aux sep (acc +:+ String c EmptyString) s'
  end.

(** [s.split(sep)] for a one-character separator. *)
Definition split (sep : ascii) (s : string) : list string :=
  split_aux sep EmptyString s.

(**
<<
function _getCurrentStack() {
    let e = new Error();
    let stack = e.stack.split('\n');
    stack.pop();  // remove last newline
    stack.shift();  // remove _getCurrentStack's own frame
    return stack;
}
>>
    [estack] is the text of [e.stack] that the runtime captures. *)
Definition _getCurrentStack (estack : string) : list string :=
  let stack := split (ascii_of_nat 10) estack in
  let stack := removelast stack in
  tail stack.

(** An element of a destructured array: [undefined] when missing. *)
Definition nth_str (l : list string) (i : nat) : value :=
  match l !! i with
  | Some s => VStr s
  | None => VUndefined
  end.

(**
<<
function _interpretStackFrame(frame) {
    let [location, fileLine] = frame.split('@');
    let [file, line] = fileLine.split(':');
    if (location === '')
        location = 'anonymous function';
    return [location, file, line];
}
>>
    [frame] is [undefined] when the stack is too short; calling [split]
    on [undefined] raises. *)
Definition _interpretStackFrame (frame : value) : result (value * value * value) :=
  match frame with
  | VStr frame =>
      let parts := split "@" frame in
      let location := nth_str parts 0 in
      match nth_str parts 1 with
      | VStr fileLine =>
          let fl := split ":" fileLine in
          let location :=
            if strict_eq location (VStr EmptyString)
            then VStr "anonymous function" else location in
          ROk (location, nth_str fl 0, nth_str fl 1)
      | _ => RErr (TypeError "fileLine is undefined")
      end
  | _ => RErr (TypeError "frame is undefined")
  end.

(** ** The attachment resolver: [_decorate] (q.js, lines 53-71) *)

(**
<<
function _decorate(name, decorator, args) {
    if (args.length < 1 || args.length > 2)
        throw new TypeError(name + '() takes one or two arguments');
    let scope, ident;
    if (args.length === 1) {
        if (typeof args[0] === 'function')
            return decorator(args[0]);
        scope = window;
        ident = args[0];
    } else {
        scope = args[0];
        ident = args[1];
    }
    scope[ident] = decorator(scope[ident], ident);
    return scope[ident];
}
>> *)
Definition _decorate (name : string) (decorator : value -> value -> M value)
    (args : list value) : M value :=
  if ((length args <? 1)%nat || (2 <? length args)%nat)%bool then
    raise (TypeError (name +:+ "() takes one or two arguments"))
  else
    let attach (scope ident : value) : M value :=
      key <- lift (ToString ident) ;;
      old <- getP scope key ;;
      new <- decorator old ident ;;
      _ <- setP scope key new ;;
      getP scope key in
    match args with
    | [a0] =>
        fun st =>
          if is_function (heap st) a0 then decorator a0 VUndefined st
          else attach (window st) a0 st
    | a0 :: a1 :: _ => attach a0 a1
    | [] => ret VUndefined
    end.

(** ** The decorator chain (q.js, lines 73-102) *)

(** [Lang.copyProperties(source, dest)], with the properties of the
    object literal [source] given in order. *)
Fixpoint copyProperties (source : list (string * value)) (dest : value) : M unit :=
  match source with
  | [] => ret tt
  | (k, x) :: rest => _ <- setP dest k x ;; copyProperties rest dest
  end.

(**
<<
function _makeDecorator(innerFunc, decoratorFunc, otherProperties) {
    decoratorFunc.isDecorator = true;
    if (innerFunc.isDecorator) {
        innerFunc.wrapper = decoratorFunc;
        decoratorFunc.decoratedFunc = innerFunc.decoratedFunc;
    } else {
        decoratorFunc.decoratedFunc = innerFunc;
    }
    decoratorFunc.wraps = innerFunc;
    Lang.copyProperties(otherProperties, decoratorFunc);
    return decoratorFunc;
}
>> *)
Definition _makeDecorator (innerFunc decoratorFunc : value)
    (otherProperties : list (string * value)) : M value :=
  _ <- setP decoratorFunc "isDecorator" (VBool true) ;;
  d <- getP innerFunc "isDecorator" ;;
  _ <- (if truthy d then
          _ <- setP innerFunc "wrapper" decoratorFunc ;;
          df <- getP innerFunc "decoratedFunc" ;;
          setP decoratorFunc "decoratedFunc" df
        else
          setP decoratorFunc "decoratedFunc" innerFunc) ;;
  _ <- setP decoratorFunc "wraps" innerFunc ;;
  _ <- copyProperties otherProperties decoratorFunc ;;
  ret decoratorFunc.

(**
<<
function _isDecoratedWithTag(func, tag) {
    for (; func.isDecorator; func = func.wraps) {
        if (func.tag === tag)
            return true;
    }
    return false;
}
>>
    One unit of fuel per evaluation of the loop condition. *)
Fixpoint _isDecoratedWithTag (fuel : nat) (h : list object) (func tag : value)
  : result bool :=
  match fuel with
  | O => RFuel
  | S fuel' =>
      rbind (get h func "isDecorator") (fun d =>
      if truthy d then
        rbind (get h func "tag") (fun t =>
        if strict_eq t tag then ROk true
        else rbind (get h func "wraps") (fun w =>
             _isDecoratedWithTag fuel' h w tag))
      else ROk false)
  end.

(** The values on which the loop body of [_isDecoratedWithTag] runs, in
    order (a ghost trace of the same loop). *)
Fixpoint visited (fuel : nat) (h : list object) (func tag : value) : list value :=
  match fuel with
  | O => []
  | S fuel' =>
      match get h func "isDecorator" with
      | ROk d =>
          if truthy d then
            func ::
            match get h func "tag" with
            | ROk t =>
                if strict_eq t tag then []
                else match get h func "wraps" with
                     | ROk w => visited fuel' h w tag
                     | _ => []
                     end
            | _ => []
            end
          else []
      | _ => []
      end
  end.

(** ** The three decorators (q.js, lines 117-175) *)

(** [funcName = func.name || 'anonymous function'] when [funcName] is
    [undefined]. *)
Definition resolve_name (func funcName : value) : M value :=
  if strict_eq funcName VUndefined then
    n <- getP func "name" ;;
    ret (if truthy n then n else VStr "anonymous function")
  else ret funcName.

(**
<<
function _traceDecorator(func, funcName) {
    if (!DEBUG || _isDecoratedWithTag(func, 'trace'))
        return func;
    if (funcName === undefined)
        funcName = func.name || 'anonymous function';
    return _makeDecorator(func, function () { ... }, {
        recursionDepth: 0,
        tag: 'trace',
    });
}
>>
    The function expression allocates the closure [CTraceShim]. *)
Definition _traceDecorator (fuel : nat) (func funcName : value) : M value :=
  fun st =>
    if negb (truthy (DEBUG st)) then Done func st
    else
      (tagged <- lift (_isDecoratedWithTag fuel (heap st) func (VStr "trace")) ;;
       if tagged : bool then ret func
       else
         funcName <- resolve_name func funcName ;;
         shim <- alloc (Object (KFunction EmptyString 0 (CTraceShim func funcName)) []) ;;
         _makeDecorator func shim
           [("recursionDepth", VNum 0); ("tag", VStr "trace")]) st.

(**
<<
function _timeDecorator(func, funcName) {
    if (!DEBUG || _isDecoratedWithTag(func, 'time'))
        return func;
    if (funcName === undefined)
        funcName = func.name || 'anonymous function';
    return _makeDecorator(func, function () { ... }, {
        tag: 'time',
    });
}
>> *)
Definition _timeDecorator (fuel : nat) (func funcName : value) : M value :=
  fun st =>
    if negb (truthy (DEBUG st)) then Done func st
    else
      (tagged <- lift (_isDecoratedWithTag fuel (heap st) func (VStr "time")) ;;
       if tagged : bool then ret func
       else
         funcName <- resolve_name func funcName ;;
         shim <- alloc (Object (KFunction EmptyString 0 (CTimeShim func funcName)) []) ;;
         _makeDecorator func shim [("tag", VStr "time")]) st.

(** [++_breakpoints] *)
Definition next_breakpoint : M Z :=
  fun st =>
    Done (_breakpoints st + 1)%Z
         {| heap := heap st; DEBUG := DEBUG st;
            _breakpoints := (_breakpoints st + 1)%Z;
            _startTime := _startTime st; _stream := _stream st; clock := clock st;
            ticks := ticks st; traps := traps st; window := window st |}.

(**
<<
function _breakBeforeDecorator(func) {
    if (!DEBUG || _isDecoratedWithTag(func, 'breakBefore'))
        return func;
    return _makeDecorator(func, function () { ... }, {
        breakpointNum: ++_breakpoints,
        tag: 'breakBefore',
    });
}
>>
    The second argument that [_decorate] passes is ignored. *)
Definition _breakBeforeDecorator (fuel : nat) (func _funcName : value) : M value :=
  fun st =>
    if negb (truthy (DEBUG st)) then Done func st
    else
      (tagged <- lift (_isDecoratedWithTag fuel (heap st) func (VStr "breakBefore")) ;;
       if tagged : bool then ret func
       else
         shim <- alloc (Object (KFunction EmptyString 0 (CBreakShim func)) []) ;;
         num <- next_breakpoint ;;
         _makeDecorator func shim
           [("breakpointNum", VNum num); ("tag", VStr "breakBefore")]) st.

(** ** The closures installed by the decorators, and calls *)

(** [++o[k]] and [o[k]--] on a number-valued property. *)
Definition add_num (v : value) (d : Z) : value :=
  match v with
  | VNum n => VNum (n + d)
  | _ => VNaN
  end.

Definition preinc (o : value) (k : string) : M value :=
  old <- getP o k ;;
  n <- lift (ToNumber old) ;;
  let new := add_num n 1 in
  _ <- setP o k new ;;
  ret new.

Definition postdec (o : value) (k : string) : M value :=
  old <- getP o k ;;
  n <- lift (ToNumber old) ;;
  _ <- setP o k (add_num n (-1)) ;;
  ret n.

(** [depth > 1] *)
Definition gt1 (depth : value) : bool :=
  match depth with
  | VNum n => (1 <? n)%Z
  | _ => false
  end.

Definition prettyPrintM (fuel : nat) (obj : value) : M string :=
  fun st => lift (_prettyPrint fuel (heap st) obj) st.

Section Shims.

(** [func.apply(this, arguments)], and the fuel for the pretty-printer. *)
Variable apply : value -> value -> list value -> M value.
Variable fuel : nat.

(** The body of a host function. *)
Fixpoint exec_prog (p : prog) : M value :=
  fun st =>
    match p with
    | PRet v => Done v st
    | PThrow v => Raise (Thrown v) st
    | PGet o key k =>
        match getP o key st with
        | Done v st' => exec_prog (k v) st'
        | Raise e st' => Raise e st'
        | OutOfFuel => OutOfFuel
        | Host => Host
        end
    | PCall f this args k =>
        match apply f this args st with
        | Done v st' => exec_prog (k v) st'
        | Raise e st' => Raise e st'
        | OutOfFuel => OutOfFuel
        | Host => Host
        end
    end.

(**
<<
  function () {
      let depth = ++arguments.callee.recursionDepth;
      let traceString = (funcName +
          '(' + Array.map(arguments, _prettyPrint).join(', ') + ')');
      if (depth > 1)
          traceString += ' [' + depth + ']';
      write('Entering', traceString);
      let retval = func.apply(this, arguments);
      write('Leaving', traceString, '->', _prettyPrint(retval));
      arguments.callee.recursionDepth--;
      return retval;
  }
>>
    [callee] is the closure itself. *)
Definition trace_shim (callee func funcName this : value) (arguments : list value)
  : M value :=
  depth <- preinc callee "recursionDepth" ;;
  name <- lift (ToString funcName) ;;
  strs <- mapM (prettyPrintM fuel) arguments ;;
  let traceString := name +:+ "(" +:+ String.concat ", " strs +:+ ")" in
  traceString <- (if gt1 depth then
                    d <- lift (ToString depth) ;;
                    ret (traceString +:+ " [" +:+ d +:+ "]")
                  else ret traceString) ;;
  _ <- write [VStr "Entering"; VStr traceString] ;;
  retval <- apply func this arguments ;;
  s <- prettyPrintM fuel retval ;;
  _ <- write [VStr "Leaving"; VStr traceString; VStr "->"; VStr s] ;;
  _ <- postdec callee "recursionDepth" ;;
  ret retval.

(**
<<
  function () {
      let timer = GLib.get_monotonic_time();
      let retval = func.apply(this, arguments);
      let time = GLib.get_monotonic_time() - timer;
      write(funcName, 'executed in', time, 'microseconds');
      return retval;
  }
>> *)
Definition time_shim (func funcName this : value) (arguments : list value)
  : M value :=
  timer <- get_monotonic_time ;;
  retval <- apply func this arguments ;;
  now <- get_monotonic_time ;;
  let time := (now - timer)%Z in
  _ <- write [funcName; VStr "executed in"; VNum time; VStr "microseconds"] ;;
  ret retval.

(**
<<
  function () {
      write('Breakpoint', arguments.callee.breakpointNum, 'reached');
      System.breakpoint();
      return func.apply(this, arguments);
  }
>> *)
Definition break_shim (callee func this : value) (arguments : list value)
  : M value :=
  num <- getP callee "breakpointNum" ;;
  _ <- write [VStr "Breakpoint"; num; VStr "reached"] ;;
  _ <- breakpoint ;;
  apply func this arguments.

End Shims.

(** Calling the value [f] with receiver [this]: a [TypeError] unless [f]
    is a function object; otherwise its code runs, with one unit of fuel
    less for the calls it makes. *)
Fixpoint call (fuel : nat) (f this : value) (args : list value) : M value :=
  fun st =>
    match fuel with
    | O => OutOfFuel
    | S fuel' =>
        match f with
        | VRef l =>
            match heap st !! l with
            | Some o =>
                match o_kind o with
                | KFunction _ _ (CHost body) =>
                    exec_prog (call fuel') (body this args) st
                | KFunction _ _ (CTraceShim func funcName) =>
                    trace_shim (call fuel') fuel' f func funcName this args st
                | KFunction _ _ (CTimeShim func funcName) =>
                    time_shim (call fuel') func funcName this args st
                | KFunction _ _ (CBreakShim func) =>
                    break_shim (call fuel') f func this args st
                | _ => Raise (TypeError "not a function") st
                end
            | None => Host
            end
        | _ => Raise (TypeError "not a function") st
        end
    end.

(** ** Public API (q.js, lines 177-285) *)

(** [trace(...)], [time(...)], [breakBefore(...)] with their argument
    lists. *)
Definition trace (fuel : nat) (arguments : list value) : M value :=
  _decorate "trace" (_traceDecorator fuel) arguments.

Definition time (fuel : nat) (arguments : list value) : M value :=
  _decorate "time" (_timeDecorator fuel) arguments.

Definition breakBefore (fuel : nat) (arguments : list value) : M value :=
  _decorate "breakBefore" (_breakBeforeDecorator fuel) arguments.

(**
<<
function q(value) {
    if (!DEBUG)
        return value;
    let [func, file, line] = _interpretStackFrame(_getCurrentStack()[1]);
    write(file + ':' + line + ': ' + _prettyPrint(value));
    return value;
}
>>
    [estack] is the stack text the runtime captures inside
    [_getCurrentStack]; [v] is the argument [value]. *)
Definition q (fuel : nat) (estack : string) (v : value) : M value :=
  fun st =>
    if negb (truthy (DEBUG st)) then Done v st
    else
      (loc3 <- lift (_interpretStackFrame (nth_str (_getCurrentStack estack) 1)) ;;
       let '(func, file, line) := loc3 in
       f <- lift (ToString file) ;;
       l <- lift (ToString line) ;;
       s <- prettyPrintM fuel v ;;
       _ <- write [VStr (f +:+ ":" +:+ l +:+ ": " +:+ s)] ;;
       ret v) st.

(** ** Chains, instrumentation kinds and runs

    The vocabulary of the statements below. *)

(** A key with no special meaning on any kind of object: not [name] or
    [length], not an array index. *)
Definition plain (k : string) : bool :=
  negb (String.eqb k "name") && negb (String.eqb k "length") &&
  bool_decide (key_index k = None).

(** The value read at [l.k]. *)
Definition field (h : list object) (l : loc) (k : string) : value :=
  match h !! l with
  | Some o => obj_get o k
  | None => VUndefined
  end.

(** [v] is a decorator record: the loop condition [func.isDecorator] of
    [_isDecoratedWithTag] holds of it. *)
Definition is_decorator (h : list object) (v : value) : Prop :=
  exists d, get h v "isDecorator" = ROk d /\ truthy d = true.

(** [chain h v ls e]: starting at [v] and following [wraps], the records
    met are [ls], outermost first, and the walk ends at the value [e],
    which is not a decorator record. *)
Inductive chain (h : list object) : value -> list loc -> value -> Prop :=
| chain_end v d :
    get h v "isDecorator" = ROk d -> truthy d = false ->
    chain h v [] v
| chain_wraps l d w ls e :
    get h (VRef l) "isDecorator" = ROk d -> truthy d = true ->
    get h (VRef l) "wraps" = ROk w ->
    chain h w ls e ->
    chain h (VRef l) (l :: ls) e.

(** The tags of the records of a chain. *)
Definition tags (h : list object) (ls : list loc) : list value :=
  map (fun l => field h l "tag") ls.

(** Whether one of the records [ls] carries the tag [tag]: the value
    of the tag-presence query on a chain, as a function of its records. *)
Definition tag_among (h : list object) (tag : value) (ls : list loc) : bool :=
  existsb (fun l => strict_eq (field h l "tag") tag) ls.

(** The properties through which records are linked. *)
Definition link_keys : list string := ["isDecorator"; "wraps"; "tag"; "wrapper"].

(** The three kinds of instrumentation. *)
Inductive instr : Type := Trace | Time | BreakBefore.

Definition tag_of (i : instr) : string :=
  match i with
  | Trace => "trace"
  | Time => "time"
  | BreakBefore => "breakBefore"
  end.

Definition decorator (i : instr) (fuel : nat) : value -> value -> M value :=
  match i with
  | Trace => _traceDecorator fuel
  | Time => _timeDecorator fuel
  | BreakBefore => _breakBeforeDecorator fuel
  end.

Definition attacher (i : instr) (fuel : nat) : list value -> M value :=
  match i with
  | Trace => trace fuel
  | Time => time fuel
  | BreakBefore => breakBefore fuel
  end.

(** The state in which a computation ends, when it ends. *)
Definition final {A} (o : outcome A) : option state :=
  match o with
  | Done _ s | Raise _ s => Some s
  | _ => None
  end.

(** The state in which a computation leaves the program. *)
Definition after {A} (c : M A) (st : state) : state :=
  match c st with
  | Done _ s | Raise _ s => s
  | _ => st
  end.

(** The member that an attacher assigns, for the argument lists on which
    it assigns one. *)
Definition attach_key (h : list object) (args : list value) : option string :=
  match args with
  | [a0] =>
      if is_function h a0 then None
      else match ToString a0 with ROk k => Some k | _ => None end
  | [_; a1] => match ToString a1 with ROk k => Some k | _ => None end
  | _ => None
  end.

(** One operation of the host program on the module: applying a
    decorator to a value, calling an attacher ([trace], [time],
    [breakBefore]) on a member other than the links of a record,
    assigning [Q.DEBUG], or calling a function. *)
Inductive step : state -> state -> Prop :=
| step_wrap i fuel func funcName st st' :
    final (decorator i fuel func funcName st) = Some st' ->
    step st st'
| step_attach i fuel args st st' :
    final (attacher i fuel args st) = Some st' ->
    (forall k, attach_key (heap st) args = Some k -> ~ In k link_keys) ->
    step st st'
| step_debug v st :
    step st (set_DEBUG v st)
| step_call fuel f this args st st' :
    final (call fuel f this args st) = Some st' ->
    step st st'.

Inductive steps : state -> state -> Prop :=
| steps_refl st : steps st st
| steps_step st st' st'' : steps st st' -> step st' st'' -> steps st st''.

(** A heap in which nothing has been decorated yet. *)
Definition undecorated (h : list object) : Prop :=
  forall l, l < length h -> ~ is_decorator h (VRef l).

(** ** The heap after a wrap *)

(** [innerFunc.wrapper = decoratorFunc], done when [innerFunc] is a
    decorator record; [d] is the address of the new record. *)
Definition mark_wrapper (h : list object) (func : value) (d : loc) : list object :=
  match func with
  | VRef l =>
      match h !! l with
      | Some o =>
          if truthy (obj_get o "isDecorator")
          then <[l := with_props o (props_set (o_props o) "wrapper" (VRef d))]> h
          else h
      | None => h
      end
  | _ => h
  end.

(** The value stored in [decoratedFunc] of a new record around [func]. *)
Definition innermost (h : list object) (func : value) : value :=
  match func with
  | VRef l =>
      match h !! l with
      | Some o =>
          if truthy (obj_get o "isDecorator") then obj_get o "decoratedFunc" else func
      | None => func
      end
  | _ => func
  end.

(** The properties of a new record around [func], [extra] being the
    properties of the object literal of the decorator. *)
Definition record_props (h : list object) (func : value)
    (extra : list (string * value)) : list (string * value) :=
  fold_left (fun ps p => props_set ps p.1 p.2) extra
    [("isDecorator", VBool true); ("decoratedFunc", innermost h func); ("wraps", func)].

(** A key that a function object stores among its properties. *)
Definition fkey (k : string) : bool :=
  negb (String.eqb k "name") && negb (String.eqb k "length").

(** The closure that each decorator installs, the properties of its
    object literal, and the name it shows. *)
Definition shim_code (i : instr) (func funcName : value) : code :=
  match i with
  | Trace => CTraceShim func funcName
  | Time => CTimeShim func funcName
  | BreakBefore => CBreakShim func
  end.

Definition extra_props (i : instr) (st : state) : list (string * value) :=
  match i with
  | Trace => [("recursionDepth", VNum 0); ("tag", VStr "trace")]
  | Time => [("tag", VStr "time")]
  | BreakBefore =>
      [("breakpointNum", VNum (_breakpoints st + 1)); ("tag", VStr "breakBefore")]
  end.

Definition shown_name (h : list object) (func funcName : value) : value :=
  if strict_eq funcName VUndefined then
    match get h func "name" with
    | ROk n => if truthy n then n else VStr "anonymous function"
    | _ => VUndefined
    end
  else funcName.

Definition bump (i : instr) (st : state) : state :=
  match i with
  | BreakBefore =>
      {| heap := heap st; DEBUG := DEBUG st;
         _breakpoints := (_breakpoints st + 1)%Z;
         _startTime := _startTime st; _stream := _stream st; clock := clock st;
         ticks := ticks st; traps := traps st; window := window st |}
  | _ => st
  end.

(** The state after decorator [i] has wrapped [func]: the new record sits
    at the end of the heap, and [func], when it is a record itself, has
    its [wrapper] set. *)
Definition wrapped (i : instr) (func funcName : value) (st : state) : state :=
  let h := heap st in
  with_heap (bump i st)
    (mark_wrapper h func (length h) ++
     [Object (KFunction EmptyString 0 (shim_code i func (shown_name h func funcName)))
             (record_props h func (extra_props i st))]).

(** ** Invariants of the heap *)

(** [v] is not an address at or above [l]. *)
Definition below (v : value) (l : loc) : Prop :=
  match v with
  | VRef m => m < l
  | _ => True
  end.

(** What holds of the heap however the records were created:
    a record wraps a value that existed before it; no chain has two
    records with the same tag; a record that is wrapped by some record
    has a [wrapper] that points at a record wrapping it. *)
Record chain_inv (h : list object) : Prop := {
  inv_wraps : forall l, is_decorator h (VRef l) -> below (field h l "wraps") l;
  inv_tags : forall v ls e, chain h v ls e -> NoDup (tags h ls);
  inv_wrapper : forall l d,
    is_decorator h (VRef l) -> is_decorator h (VRef d) ->
    field h d "wraps" = VRef l ->
    exists w, field h l "wrapper" = VRef w /\ is_decorator h (VRef w) /\
              field h w "wraps" = VRef l
}.

(** Two heaps with the same addresses and the same links. *)
Definition links_eq (h h' : list object) : Prop :=
  length h' = length h /\
  forall l k, In k link_keys -> field h' l k = field h l k.

(** [frame R c]: whenever [c] leaves a state, it is related by [R] to the
    state in which [c] started. *)
Definition frame {A} (R : state -> state -> Prop) (c : M A) : Prop :=
  forall st st', final (c st) = Some st' -> R st st'.

(** The links of the heap are left as they are. *)
Definition keeps_links (st st' : state) : Prop := links_eq (heap st) (heap st').

(** The invariants of the heap are kept. *)
Definition keeps_inv (st st' : state) : Prop :=
  chain_inv (heap st) -> chain_inv (heap st').

(** ** The debug flag and calls *)

(** The same outcome, with the final state transformed. *)
Definition omap_state {A} (T : state -> state) (o : outcome A) : outcome A :=
  match o with
  | Done a s => Done a (T s)
  | Raise e s => Raise e (T s)
  | OutOfFuel => OutOfFuel
  | Host => Host
  end.

(** [c] runs the same way whether [T] is applied before or after it. *)
Definition commutes {A} (T : state -> state) (c : M A) : Prop :=
  forall st, c (T st) = omap_state T (c st).

(** ** The recursion counter *)

(** Every closure of the trace decorator has a number as its
    [recursionDepth], as [_makeDecorator] leaves it. *)
Definition numeric_depths (h : list object) : Prop :=
  forall l o n a func name,
    h !! l = Some o -> o_kind o = KFunction n a (CTraceShim func name) ->
    exists z, obj_get o "recursionDepth" = VNum z.

(** The same objects, of the same kinds, with the same
    [recursionDepth]. *)
Definition same_depths (st st' : state) : Prop :=
  length (heap st') = length (heap st) /\
  forall l o, heap st !! l = Some o ->
    exists o', heap st' !! l = Some o' /\ o_kind o' = o_kind o /\
               obj_get o' "recursionDepth" = obj_get o "recursionDepth".

(** The heap is the same. *)
Definition same_heap (st st' : state) : Prop := heap st' = heap st.

(** ** Two statements read to the letter *)

(** The log line with the numeric field right-padded to 4 characters
    before the unit suffix, as section 4.7 of the specification words
    it. *)
Definition pad_right (w : nat) (s : string) : string :=
  s +:+ String.concat EmptyString (replicate (w - String.length s) " ").

Definition line_right_padded (us : Z) (strs : list string) : string :=
  pad_right 4 (elapsed_digits us) +:+ "s " +:+ String.concat " " strs +:+ chr 10.

(** Back-references read to the letter: in every chain, a record that
    is not the outermost one has, as [wrapper], the record immediately
    outside it. *)
Definition backrefs_exact (h : list object) : Prop :=
  forall v ls e n outer inner,
    chain h v ls e ->
    ls !! n = Some outer -> ls !! S n = Some inner ->
    field h inner "wrapper" = VRef outer.

(** ** A host program

    The program of the example shipped with the module: an object with
    the recursive method [myRecursiveMethod], which looks itself up
    through [this] at each call, next to a global [print] that returns
    nothing and a method [checked] that throws on a negative argument. *)

(**
<<
    myRecursiveMethod: function (foo) {
        if (foo < 1)
            return 1;
        return foo * this.myRecursiveMethod(foo - 1);
    },
>> *)
Definition myRecursiveMethod (this : value) (args : list value) : prog :=
  match args with
  | VNum foo :: _ =>
      if (foo <? 1)%Z then PRet (VNum 1)
      else PGet this "myRecursiveMethod" (fun m =>
           PCall m this [VNum (foo - 1)] (fun r =>
           PRet (match r with VNum r => VNum (foo * r) | _ => VNaN end)))
  | _ => PRet VNaN
  end.

Definition print (this : value) (args : list value) : prog := PRet VUndefined.

Definition checked (this : value) (args : list value) : prog :=
  match args with
  | VNum n :: _ => if (n <? 0)%Z then PThrow (VStr "negative") else PRet (VNum n)
  | _ => PRet VUndefined
  end.

Definition addr_window : loc := 0.
Definition addr_obj : loc := 1.
Definition addr_myRecursiveMethod : loc := 2.
Definition addr_print : loc := 3.
Definition addr_checked : loc := 4.

Definition st_demo : state :=
  {| heap :=
       [ Object KObject [("print", VRef addr_print)];
         Object KObject [("myRecursiveMethod", VRef addr_myRecursiveMethod);
                         ("checked", VRef addr_checked)];
         Object (KFunction "myRecursiveMethod" 1 (CHost myRecursiveMethod)) [];
         Object (KFunction "print" 0 (CHost print)) [];
         Object (KFunction "checked" 1 (CHost checked)) [] ];
     DEBUG := VBool true;
     _breakpoints := 0;
     _startTime := 0;
     _stream := [];
     clock := fun n => (1500000 * Z.of_nat (S n))%Z;
     ticks := 0;
     traps := 0;
     window := VRef addr_window |}.

(** What [e.stack] holds when [q] is called from line 5 of the host
    program. *)
Definition stack_demo : string :=
  "_getCurrentStack@q.js:34:13" +:+ chr 10 +:+
  "q@q.js:268:30" +:+ chr 10 +:+
  "@example.js:5:1" +:+ chr 10.

(** [Q.trace(obj, 'checked')]: the closure is the object at address 5. *)
Definition st_traced : state :=
  after (trace 5 [VRef addr_obj; VStr "checked"]) st_demo.

Definition addr_traced : loc := 5.

(** [let t = Q.trace(obj.checked); let a = Q.time(t); let b = Q.time(t);]
    The records are at the addresses 5 ([t]), 6 ([a]) and 7 ([b]). *)
Definition st_fork1 : state :=
  after (decorator Trace 5 (VRef addr_checked) VUndefined) st_demo.

Definition st_fork2 : state :=
  after (decorator Time 5 (VRef 5) VUndefined) st_fork1.

Definition st_fork : state :=
  after (decorator Time 5 (VRef 5) VUndefined) st_fork2.

(** ** What a call may change *)

(** The same objects, of the same kinds, with every property other than
    [recursionDepth] as it was; the module-level variables other than
    the sink and the count of clock readings and traps as they were. *)
Definition keeps_fields (st st' : state) : Prop :=
  length (heap st') = length (heap st) /\
  (forall l o, heap st !! l = Some o ->
     exists o', heap st' !! l = Some o' /\ o_kind o' = o_kind o /\
                forall k, k <> "recursionDepth" -> obj_get o' k = obj_get o k) /\
  DEBUG st' = DEBUG st /\ _breakpoints st' = _breakpoints st /\
  _startTime st' = _startTime st /\ window st' = window st /\
  clock st' = clock st.

(** A string that ends with a newline. *)
Definition is_line (s : string) : Prop := exists body, s = body +:+ chr 10.

(** The sink has only been appended to, with newline-terminated
    strings; the counts of clock readings and of traps have not gone
    down. *)
Definition moves_forward (st st' : state) : Prop :=
  (exists ls, _stream st' = _stream st ++ ls /\ Forall is_line ls) /\
  ticks st <= ticks st' /\ traps st <= traps st'.

(** ** More invariants of the records *)

(** Every property that the module stores on a record, the counter of
    the trace closure apart. *)
Definition record_keys : list string :=
  link_keys ++ ["decoratedFunc"; "breakpointNum"].

(** The operations of the host program, as in [step], with the
    attachers kept off the properties [keys]. *)
Inductive run_step (keys : list string) : state -> state -> Prop :=
| run_wrap i fuel func funcName st st' :
    final (decorator i fuel func funcName st) = Some st' ->
    run_step keys st st'
| run_attach i fuel args st st' :
    final (attacher i fuel args st) = Some st' ->
    (forall k, attach_key (heap st) args = Some k -> ~ In k keys) ->
    run_step keys st st'
| run_debug v st :
    run_step keys st (set_DEBUG v st)
| run_call fuel f this args st st' :
    final (call fuel f this args st) = Some st' ->
    run_step keys st st'.

Inductive run (keys : list string) : state -> state -> Prop :=
| run_refl st : run keys st st
| run_more st st' st'' : run keys st st' -> run_step keys st' st'' -> run keys st st''.

(** [decoratedFunc] of a record is the value at which its chain ends. *)
Definition flat (h : list object) : Prop :=
  forall l ls e, chain h (VRef l) (l :: ls) e -> field h l "decoratedFunc" = e.

(** [l] is a record of the breakpoint decorator, with number [n]. *)
Definition is_breakpoint (h : list object) (l : loc) (n : Z) : Prop :=
  is_decorator h (VRef l) /\ field h l "tag" = VStr "breakBefore" /\
  field h l "breakpointNum" = VNum n.

(** The breakpoint records carry numbers above [b] (the value of
    [_breakpoints] at the start) and up to [_breakpoints], each number
    once, and every number in between is carried. *)
Definition numbered (b : Z) (st : state) : Prop :=
  (b <= _breakpoints st)%Z /\
  (forall l, is_decorator (heap st) (VRef l) ->
             field (heap st) l "tag" = VStr "breakBefore" ->
             exists n, field (heap st) l "breakpointNum" = VNum n /\
                       (b < n <= _breakpoints st)%Z) /\
  (forall l l' n, is_breakpoint (heap st) l n -> is_breakpoint (heap st) l' n ->
                  l = l') /\
  (forall n, (b < n <= _breakpoints st)%Z -> exists l, is_breakpoint (heap st) l n).

Definition module_inv (b : Z) (st : state) : Prop :=
  chain_inv (heap st) /\ flat (heap st) /\ numbered b st.

Definition keeps_module_inv (b : Z) (st st' : state) : Prop :=
  module_inv b st -> module_inv b st'.

(** The same addresses, the same properties of the records, the same
    breakpoint counter. *)
Definition rec_eq (st st' : state) : Prop :=
  length (heap st') = length (heap st) /\
  (forall l k, In k record_keys -> field (heap st') l k = field (heap st) l k) /\
  _breakpoints st' = _breakpoints st.
(** Two breakpoints set one after the other. *)
Definition st_bp1 : state :=
  after (decorator BreakBefore 5 (VRef addr_checked) VUndefined) st_demo.

Definition st_bp2 : state :=
  after (decorator BreakBefore 5 (VRef addr_print) VUndefined) st_bp1.

(** ** Normal returns *)

(** The same objects, of the same kinds, answering every property read
    alike. *)
Definition same_objects (st st' : state) : Prop :=
  length (heap st') = length (heap st) /\
  forall l o, heap st !! l = Some o ->
    exists o', heap st' !! l = Some o' /\ o_kind o' = o_kind o /\
               forall k, obj_get o' k = obj_get o k.

(** ** Transparency of the closures *)

(** Two outcomes that a caller cannot tell apart: the same value or the
    same exception, and the same heap. *)
Definition agree {A} (o o' : outcome A) : Prop :=
  match o, o' with
  | Done a s, Done a' s' => a = a' /\ heap s = heap s'
  | Raise e s, Raise e' s' => e = e' /\ heap s = heap s'
  | OutOfFuel, OutOfFuel => True
  | Host, Host => True
  | _, _ => False
  end.

(** [c] and [c'] end alike when started on the same heap, whatever the
    sink, the clock and the counters are. *)
Definition sim {A} (c c' : M A) : Prop :=
  forall st st', heap st = heap st' -> agree (c st) (c' st').

(** The closures that delegate without looking at the arguments or the
    result: those of [_timeDecorator] and [_breakBeforeDecorator], with
    the tokens they log. *)
Definition quiet_shim (o : object) (func : value) : Prop :=
  exists n a,
    (exists funcName s,
       o_kind o = KFunction n a (CTimeShim func funcName) /\
       join_token funcName = ROk s) \/
    (exists s,
       o_kind o = KFunction n a (CBreakShim func) /\
       join_token (obj_get o "breakpointNum") = ROk s).

(** The clock never runs backwards. *)
Definition monotone (c : nat -> Z) : Prop :=
  forall i j, i <= j -> (c i <= c j)%Z.

(** ** Stack texts *)

(** Whether the character [c] occurs in [s]. *)
Fixpoint has_char (c : ascii) (s : string) : bool :=
  match s with
  | EmptyString => false
  | String x s' => Ascii.eqb x c || has_char c s'
  end.

(** The frames of a stack as the runtime prints them, one per line. *)
Definition unlines (frames : list string) : string :=
  String.concat EmptyString (map (fun f => f +:+ chr 10) frames).

(** The text of a frame: function name, file, line and column. *)
Definition frame_text (name file line col : string) : string :=
  name +:+ "@" +:+ file +:+ ":" +:+ line +:+ ":" +:+ col.

(** The part of [s] before the first [c]. *)
Fixpoint before (c : ascii) (s : string) : string :=
  match s with
  | EmptyString => EmptyString
  | String x s' => if Ascii.eqb x c then EmptyString else String x (before c s')
  end.

(** ** Attaching to a member *)

(** The argument list [args] of an attacher designates the member
    [ident] of the object at [s]: given as [(scope, ident)], or as
    [(ident)] alone, not a function, with the global object as scope. *)
Definition targets (st : state) (args : list value) (s : loc) (ident : value) : Prop :=
  args = [VRef s; ident] \/
  (args = [ident] /\ window st = VRef s /\ is_function (heap st) ident = false).

(** The module-level variables, the sink and the runtime counters are
    the same. *)
Definition same_module (st st' : state) : Prop :=
  DEBUG st' = DEBUG st /\ _breakpoints st' = _breakpoints st /\
  _startTime st' = _startTime st /\ _stream st' = _stream st /\
  ticks st' = ticks st /\ traps st' = traps st /\ window st' = window st.

(** ** The lines of the trace closure *)

(** The text that the closure of [_traceDecorator] logs for a call:
    the name, the pretty-printed arguments, and the depth when it is
    above 1. *)
Definition trace_string (name : string) (strs : list string) (depth : Z) : string :=
  let traceString := name +:+ "(" +:+ String.concat ", " strs +:+ ")" in
  if (1 <? depth)%Z then traceString +:+ " [" +:+ Z_to_string depth +:+ "]"
  else traceString.

(** The state in which the closure at [l] starts its function: the
    counter raised, the line [Entering] written. *)
Definition entered (l : loc) (traceString : string) (st : state) : state :=
  after (write [VStr "Entering"; VStr traceString])
        (after (preinc (VRef l) "recursionDepth") st).

(** ** Lines *)

(** The newline character. *)
Definition nl : ascii := ascii_of_nat 10.

(** A text without a newline in it. *)
Definition one_line (s : string) : Prop := has_char nl s = false.

(** ** Termination of the decorators *)

(** From every object of the heap the walk along [wraps] comes to an
    end. *)
Definition all_chained (h : list object) : Prop :=
  forall l, l < length h -> exists ls e, chain h (VRef l) ls e.

(** [P] holds of the heap after [c] if it held before. *)
Definition keeps (P : list object -> Prop) (st st' : state) : Prop :=
  P (heap st) -> P (heap st').

(** * Theorems *)

(** ** Strings *)

Lemma string_eqb_refl (k : string) : String.eqb k k = true.
Proof. apply String.eqb_refl. Qed.

Lemma string_eqb_ne (k k' : string) : k <> k' -> String.eqb k k' = false.
Proof. intros H. apply String.eqb_neq. exact H. Qed.

Lemma string_length_app (s1 s2 : string) :
  String.length (s1 +:+ s2) = String.length s1 + String.length s2.
Proof.
  induction s1 as [|c s1 IH]; [reflexivity|].
  change (String c s1 +:+ s2) with (String c (s1 +:+ s2)).
  simpl. now rewrite IH.
Qed.

(** ** Property lists *)

Lemma props_get_set_eq ps k x : props_get (props_set ps k x) k = Some x.
Proof.
  induction ps as [|[k' v] ps IH]; simpl.
  - now rewrite string_eqb_refl.
  - destruct (String.eqb k' k) eqn:E; simpl; rewrite E; auto.
Qed.

Lemma props_get_set_ne ps k k' x :
  k <> k' -> props_get (props_set ps k x) k' = props_get ps k'.
Proof.
  intros Hne. induction ps as [|[k0 v] ps IH]; simpl.
  - now rewrite string_eqb_ne.
  - destruct (String.eqb k0 k) eqn:E; simpl.
    + apply String.eqb_eq in E. subst k0. now rewrite string_eqb_ne.
    + destruct (String.eqb k0 k'); auto.
Qed.

Lemma obj_get_set_ne o k k' x :
  k <> k' ->
  obj_get (with_props o (props_set (o_props o) k x)) k' = obj_get o k'.
Proof.
  intros Hne. unfold obj_get, own, with_props; simpl.
  rewrite props_get_set_ne by exact Hne. reflexivity.
Qed.

Lemma plain_spec k :
  plain k = true ->
  String.eqb k "name" = false /\ String.eqb k "length" = false /\ key_index k = None.
Proof.
  unfold plain. intros H.
  apply andb_prop in H as [H H3]. apply andb_prop in H as [H1 H2].
  apply negb_true_iff in H1, H2. apply bool_decide_eq_true in H3. auto.
Qed.

Lemma obj_get_plain o k : plain k = true -> obj_get o k = own o k.
Proof.
  intros (H1 & H2 & H3)%plain_spec. unfold obj_get.
  destruct (o_kind o); rewrite ?H1, ?H2, ?H3; reflexivity.
Qed.

Lemma obj_get_set_eq o k x :
  plain k = true ->
  obj_get (with_props o (props_set (o_props o) k x)) k = x.
Proof.
  intros Hp. rewrite obj_get_plain by exact Hp.
  unfold own, with_props; simpl. now rewrite props_get_set_eq.
Qed.

Lemma obj_set_plain o k x :
  plain k = true ->
  obj_set o k x = ROk (with_props o (props_set (o_props o) k x)).
Proof.
  intros (H1 & H2 & H3)%plain_spec. unfold obj_set.
  destruct (o_kind o); rewrite ?H1, ?H2, ?H3; reflexivity.
Qed.

(** ** The heap *)

Lemma get_ref h l o k : h !! l = Some o -> get h (VRef l) k = ROk (obj_get o k).
Proof. intros H. simpl. now rewrite H. Qed.

Lemma get_field h l k d : get h (VRef l) k = ROk d -> field h l k = d.
Proof.
  unfold field. simpl. destruct (h !! l); [|discriminate]. congruence.
Qed.

Lemma get_valid h l k d : get h (VRef l) k = ROk d -> l < length h.
Proof.
  simpl. destruct (h !! l) eqn:E; [|discriminate].
  intros _. eapply lookup_lt_Some; eauto.
Qed.

Lemma set_plain h l o k x :
  h !! l = Some o -> plain k = true ->
  set h (VRef l) k x = ROk (<[l := with_props o (props_set (o_props o) k x)]> h).
Proof.
  intros H Hp. simpl. rewrite H, obj_set_plain by exact Hp. reflexivity.
Qed.

(** ** Steps on a heap with a fresh record at its end *)

Lemma with_heap_heap st h : heap (with_heap st h) = h.
Proof. reflexivity. Qed.

Lemma with_heap_twice st h h' : with_heap (with_heap st h) h' = with_heap st h'.
Proof. reflexivity. Qed.

Lemma get_new h o k : get (h ++ [o]) (VRef (length h)) k = ROk (obj_get o k).
Proof. simpl. now rewrite list_lookup_middle. Qed.

Lemma get_old h o v k r : get h v k = ROk r -> get (h ++ [o]) v k = ROk r.
Proof.
  intros H. destruct v; unfold get in *; auto.
  revert H. destruct (h !! l) eqn:E; [|discriminate]. intros H.
  rewrite lookup_app_l by (eapply lookup_lt_Some; eauto).
  now rewrite E.
Qed.

Lemma setP_new st h o k x o' d :
  heap st = h ++ [o] -> d = length h -> obj_set o k x = ROk o' ->
  setP (VRef d) k x st = Done tt (with_heap st (h ++ [o'])).
Proof.
  intros Hh -> Ho. unfold setP. rewrite Hh. simpl.
  rewrite list_lookup_middle by reflexivity. rewrite Ho. simpl.
  f_equal. f_equal.
  rewrite insert_app_r_alt by lia. rewrite Nat.sub_diag. reflexivity.
Qed.

Lemma setP_old st h s l o k x :
  heap st = h ++ [s] -> h !! l = Some o -> plain k = true ->
  setP (VRef l) k x st =
  Done tt (with_heap st (<[l := with_props o (props_set (o_props o) k x)]> h ++ [s])).
Proof.
  intros Hh Hl Hp. unfold setP. rewrite Hh. simpl.
  assert (Hlt : l < length h) by (eapply lookup_lt_Some; eauto).
  rewrite lookup_app_l by exact Hlt. rewrite Hl.
  rewrite obj_set_plain by exact Hp. simpl.
  f_equal. f_equal. now rewrite insert_app_l.
Qed.

Lemma getP_eq st v k r : get (heap st) v k = ROk r -> getP v k st = Done r st.
Proof. intros H. unfold getP. now rewrite H. Qed.

Lemma obj_set_fkey n a c ps k x :
  fkey k = true ->
  obj_set (Object (KFunction n a c) ps) k x = ROk (Object (KFunction n a c) (props_set ps k x)).
Proof.
  unfold fkey. intros H. apply andb_prop in H as [H1 H2].
  apply negb_true_iff in H1, H2. unfold obj_set. simpl. now rewrite H1, H2.
Qed.

Lemma copyProperties_new extra : forall st h n a c ps d,
  heap st = h ++ [Object (KFunction n a c) ps] ->
  d = length h ->
  forallb (fun p => fkey p.1) extra = true ->
  copyProperties extra (VRef d) st =
  Done tt (with_heap st (h ++ [Object (KFunction n a c)
                                 (fold_left (fun ps p => props_set ps p.1 p.2) extra ps)])).
Proof.
  induction extra as [|[k x] extra IH]; intros st h n a c ps d Hh Hd Hk.
  - simpl. unfold ret. f_equal. destruct st; simpl in *. now subst.
  - simpl in Hk. apply andb_prop in Hk as [Hk1 Hk2].
    cbn [copyProperties]. unfold bind.
    erewrite setP_new by (eauto using obj_set_fkey).
    erewrite IH by (try reflexivity; eauto). reflexivity.
Qed.

Lemma truthy_decorator_ref h func dv :
  get h func "isDecorator" = ROk dv -> truthy dv = true ->
  exists l o, func = VRef l /\ h !! l = Some o /\ dv = obj_get o "isDecorator".
Proof.
  intros Hg Ht. destruct func; simpl in Hg; try (inversion Hg; subst; discriminate).
  revert Hg. destruct (h !! l) as [o|] eqn:E; [|discriminate].
    intros Hg. inversion Hg; subst. eauto.
Qed.

Lemma makeDecorator_fresh st h n a c func extra dv :
  heap st = h ++ [Object (KFunction n a c) []] ->
  get h func "isDecorator" = ROk dv ->
  forallb (fun p => fkey p.1) extra = true ->
  _makeDecorator func (VRef (length h)) extra st =
  Done (VRef (length h))
       (with_heap st (mark_wrapper h func (length h) ++
                      [Object (KFunction n a c) (record_props h func extra)])).
Proof.
  intros Hh Hd Hk. unfold _makeDecorator, bind.
  erewrite setP_new by (eauto using obj_set_fkey). cbn [props_set].
  erewrite getP_eq by (rewrite with_heap_heap; apply get_old; exact Hd).
  destruct (truthy dv) eqn:Ht.
  - destruct (truthy_decorator_ref _ _ _ Hd Ht) as (l & o & -> & Hl & ->).
    erewrite (setP_old _ h _ l o "wrapper") by (exact Hl || reflexivity).
    rewrite with_heap_twice.
    erewrite getP_eq by
      (rewrite with_heap_heap; apply get_old; apply get_ref;
       apply list_lookup_insert_eq; eapply lookup_lt_Some; eauto).
    rewrite obj_get_set_ne by discriminate.
    assert (Hlen : forall o', length h = length (<[l := o']> h))
      by (intros; symmetry; apply length_insert).
    erewrite setP_new by (try reflexivity; eauto using obj_set_fkey).
    rewrite with_heap_twice.
    erewrite setP_new by (try reflexivity; eauto using obj_set_fkey).
    rewrite with_heap_twice.
    erewrite copyProperties_new by (try reflexivity; eauto).
    rewrite with_heap_twice. unfold ret.
    unfold mark_wrapper, record_props, innermost. rewrite Hl, Ht. reflexivity.
  - erewrite setP_new by (try reflexivity; eauto using obj_set_fkey).
    rewrite with_heap_twice.
    erewrite setP_new by (try reflexivity; eauto using obj_set_fkey).
    rewrite with_heap_twice.
    erewrite copyProperties_new by (try reflexivity; eauto).
    rewrite with_heap_twice. unfold ret.
    assert (Hm : mark_wrapper h func (length h) = h).
    { unfold mark_wrapper. destruct func; auto. revert Hd. simpl.
      destruct (h !! l); [|discriminate]. intros Hd; inversion Hd; subst. now rewrite Ht. }
    assert (Hi : innermost h func = func).
    { unfold innermost. destruct func; auto. revert Hd. simpl.
      destruct (h !! l); [|discriminate]. intros Hd; inversion Hd; subst. now rewrite Ht. }
    unfold record_props. rewrite Hm, Hi. reflexivity.
Qed.

(** ** The attachment resolver *)

Lemma decorate_bad_arity name dec args st :
  length args <> 1 -> length args <> 2 ->
  _decorate name dec args st =
  Raise (TypeError (name +:+ "() takes one or two arguments")) st.
Proof.
  intros H1 H2. unfold _decorate.
  destruct args as [|a0 [|a1 [|a2 rest]]]; simpl in *; try reflexivity; congruence.
Qed.

(** C7.  A call of [trace], [time] or [breakBefore] whose argument list
    has a length other than 1 or 2 raises, at once, a [TypeError] whose
    message names the operation; the state in which it raises is the
    state of the call: nothing was wrapped, no scope or container was
    written. *)
Theorem C7_attacher_arity (i : instr) (fuel : nat) (args : list value) (st : state) :
  length args <> 1 -> length args <> 2 ->
  attacher i fuel args st =
  Raise (TypeError (tag_of i +:+ "() takes one or two arguments")) st.
Proof.
  intros H1 H2. destruct i; simpl; unfold trace, time, breakBefore;
    now apply decorate_bad_arity.
Qed.

Lemma C7_attacher_arity_witness :
  (length [VRef addr_obj; VStr "checked"; VNum 3] <> 1 /\
   length [VRef addr_obj; VStr "checked"; VNum 3] <> 2) /\
  attacher Trace 5 [VRef addr_obj; VStr "checked"; VNum 3] st_demo =
  Raise (TypeError "trace() takes one or two arguments") st_demo.
Proof.
  split.
  - split; simpl; lia.
  - apply (C7_attacher_arity Trace 5 [VRef addr_obj; VStr "checked"; VNum 3] st_demo);
      simpl; lia.
Defined.

(** ** The pretty-printer *)

Lemma truncate_long r :
  (15 < strlen r)%Z -> truncate r = substring 0 12 r +:+ "...".
Proof. intros H. unfold truncate. apply Z.ltb_lt in H. now rewrite H. Qed.

Lemma truncate_short r : (strlen r <= 15)%Z -> truncate r = r.
Proof. intros H. unfold truncate. apply Z.ltb_ge in H. now rewrite H. Qed.

Lemma strict_eq_undefined v : strict_eq v VUndefined = true <-> v = VUndefined.
Proof.
  unfold strict_eq. destruct v; split; intros H; try discriminate;
    try reflexivity; try (apply bool_decide_eq_true in H; exact H).
Qed.

(** Whenever [JSON.stringify] renders the value as a string, the result
    is the rendering, cut to 12 characters plus [...] when it is longer
    than 15, followed by [ (length N)] when the value has a [length]. *)
Lemma prettyPrint_format fuel h obj rendering :
  stringify fuel h [] obj = ROk (Some rendering) ->
  (get h obj "length" = ROk VUndefined ->
   _prettyPrint fuel h obj = ROk (truncate rendering)) /\
  (forall len n,
     get h obj "length" = ROk len -> len <> VUndefined -> ToString len = ROk n ->
     _prettyPrint fuel h obj = ROk (truncate rendering +:+ " (length " +:+ n +:+ ")")).
Proof.
  intros Hs. unfold _prettyPrint. rewrite Hs. simpl. split.
  - intros Hl. rewrite Hl. reflexivity.
  - intros len n Hl Hne Hn. rewrite Hl. simpl.
    destruct (strict_eq len VUndefined) eqn:E.
    + apply strict_eq_undefined in E. contradiction.
    + simpl. rewrite Hn. reflexivity.
Qed.

Lemma prettyPrint_function_raises fuel h l o name arity c :
  h !! l = Some o -> o_kind o = KFunction name arity c ->
  is_function h (obj_get o "toJSON") = false ->
  _prettyPrint (S fuel) h (VRef l) = RErr (TypeError "retval is undefined").
Proof.
  intros Hl Hk Hj. unfold _prettyPrint. simpl. rewrite Hl, Hj, Hk. reflexivity.
Qed.

(** The usage documented for [trace]: [Q.trace('print')], then a call
    of [print].  The entry is logged; [print] returns nothing, and the
    closure raises while it renders the return value. *)
Lemma trace_print_raises :
  exists shim st1 st2,
    trace 5 [VStr "print"] st_demo = Done shim st1 /\
    call 5 shim VUndefined [VNum 7] st1 =
      Raise (TypeError "retval is undefined") st2 /\
    _stream st2 = [" 1.5s Entering print(7)" +:+ chr 10].
Proof.
  eexists. eexists. eexists.
  split; [vm_compute; reflexivity|].
  split; [vm_compute; reflexivity|]. reflexivity.
Qed.

(** C3.  [_prettyPrint] raises on [undefined] and on [null], whatever the
    heap: for [undefined], [JSON.stringify] returns [undefined] and
    reading [retval.length] raises a [TypeError]; for [null], reading
    [obj.length] raises.  The same happens at every function value
    ([prettyPrint_function_raises]).  No path of the function falls back
    to another rendering. *)
Theorem C3_prettyPrint_raises (fuel : nat) (h : list object) :
  _prettyPrint fuel h VUndefined = RErr (TypeError "retval is undefined") /\
  _prettyPrint fuel h VNull = RErr (TypeError "value is undefined or null").
Proof. split; destruct fuel; reflexivity. Qed.

(** C6.  A function value exposes a [length] (its arity), yet
    [_prettyPrint] gives it no text at all: [JSON.stringify] has no
    rendering for a function and the read of [retval.length] raises
    before the suffix is built.  For the values that do have a rendering
    the format is the claimed one ([prettyPrint_format]). *)
Theorem C6_prettyPrint_function :
  get (heap st_demo) (VRef addr_checked) "length" = ROk (VNum 1) /\
  _prettyPrint 5 (heap st_demo) (VRef addr_checked) =
  RErr (TypeError "retval is undefined").
Proof. split; reflexivity. Qed.

(** ** The immediate inspector *)

Lemma q_disabled fuel estack v st :
  truthy (DEBUG st) = false -> q fuel estack v st = Done v st.
Proof. intros H. unfold q. now rewrite H. Qed.

Lemma bind_done {A B} (c : M A) (k : A -> M B) st b st' :
  bind c k st = Done b st' ->
  exists a st1, c st = Done a st1 /\ k a st1 = Done b st'.
Proof.
  unfold bind. destruct (c st) as [a st1| | |]; try discriminate. eauto.
Qed.

Lemma q_result fuel estack v st r st' :
  q fuel estack v st = Done r st' -> r = v.
Proof.
  unfold q. destruct (negb (truthy (DEBUG st))).
  - congruence.
  - intros H.
    apply bind_done in H as ([[func file] line] & s1 & _ & H).
    apply bind_done in H as (f & s2 & _ & H).
    apply bind_done in H as (l & s3 & _ & H).
    apply bind_done in H as (s & s4 & _ & H).
    apply bind_done in H as (u & s5 & _ & H).
    unfold ret in H. congruence.
Qed.

(** C5.  With [DEBUG] enabled, [q(undefined)] and [q(null)] do not
    return their argument: the [TypeError] of [_prettyPrint] propagates
    out of [q], before anything is written.  (When [q] does return, it
    returns its argument, [q_result]; with [DEBUG] disabled it returns
    it and leaves the state alone, [q_disabled].) *)
Theorem C5_q_raises :
  q 5 stack_demo VUndefined st_demo =
    Raise (TypeError "retval is undefined") st_demo /\
  q 5 stack_demo VNull st_demo =
    Raise (TypeError "value is undefined or null") st_demo.
Proof. split; reflexivity. Qed.

(** ** The log sink *)

Lemma elapsed_tenths_nearest us :
  (0 <= us)%Z ->
  (0 <= elapsed_tenths us <= 1000)%Z /\
  (Z.abs (100000 * elapsed_tenths us - us mod 100000000) <= 50000)%Z.
Proof.
  intros Hus. unfold elapsed_tenths.
  rewrite Z.rem_mod_nonneg by lia.
  pose proof (Z.mod_pos_bound us 100000000 ltac:(lia)) as Hm.
  rewrite Z.abs_eq by lia.
  set (m := (us mod 100000000)%Z) in *.
  pose proof (Z.div_mod (m + 50000) 100000 ltac:(lia)) as Hd.
  pose proof (Z.mod_pos_bound (m + 50000) 100000 ltac:(lia)) as Hr.
  set (t := ((m + 50000) / 100000)%Z) in *.
  set (r := ((m + 50000) mod 100000)%Z) in *.
  lia.
Qed.

Lemma pad_left_length w s : w <= String.length (pad_left w s).
Proof.
  unfold pad_left. rewrite string_length_app.
  assert (H : forall n, String.length (String.concat EmptyString (replicate n " ")) = n).
  { induction n as [|n IH]; [reflexivity|].
    simpl replicate. destruct n; [reflexivity|].
    simpl String.concat in *. rewrite !string_length_app in *.
    simpl String.length in *. lia. }
  rewrite H. lia.
Qed.




(** ** Walking a chain *)

Lemma chain_det h v ls e ls' e' :
  chain h v ls e -> chain h v ls' e' -> ls = ls' /\ e = e'.
Proof.
  intros H. revert ls' e'.
  induction H as [v d Hd Ht | l d w ls e Hd Ht Hw Hc IH]; intros ls' e' H'.
  - inversion H' as [v' d' Hd' Ht' | l' d' w' ls2 e2 Hd' Ht' Hw' Hc']; subst.
    + auto.
    + congruence.
  - inversion H' as [v' d' Hd' Ht' | l' d' w' ls2 e2 Hd' Ht' Hw' Hc']; subst.
    + congruence.
    + assert (w' = w) by congruence. subst w'.
      destruct (IH _ _ Hc') as [-> ->]. auto.
Qed.

Lemma chain_from_member h v ls e l :
  chain h v ls e -> In l ls ->
  exists ls2, chain h (VRef l) ls2 e /\ length ls2 <= length ls.
Proof.
  intros H. induction H as [v d Hd Ht | l0 d w ls e Hd Ht Hw Hc IH]; intros Hin.
  - destruct Hin.
  - destruct Hin as [<- | Hin].
    + exists (l0 :: ls). split; [|lia]. econstructor; eauto.
    + destruct (IH Hin) as (ls2 & H2 & Hlen). exists ls2. split; [exact H2|].
      simpl. lia.
Qed.

(** A chain that ends does not pass twice through a record. *)
Lemma chain_NoDup h v ls e : chain h v ls e -> NoDup ls.
Proof.
  intros H. induction H as [v d Hd Ht | l d w ls e Hd Ht Hw Hc IH].
  - constructor.
  - constructor; [|exact IH].
    intros Hin%list_elem_of_In.
    destruct (chain_from_member _ _ _ _ _ Hc Hin) as (ls2 & H2 & Hlen).
    assert (Hc' : chain h (VRef l) (l :: ls) e) by (econstructor; eauto).
    destruct (chain_det _ _ _ _ _ _ H2 Hc') as [-> _]. simpl in Hlen. lia.
Qed.

Lemma strict_eq_str v s : strict_eq v (VStr s) = true <-> v = VStr s.
Proof.
  unfold strict_eq. destruct v; split; intros H; try discriminate;
    try (apply bool_decide_eq_true in H; exact H);
    try (apply bool_decide_eq_true; exact H).
Qed.

Lemma isDecoratedWithTag_chain h tag v ls e :
  chain h v ls e ->
  forall fuel, length ls < fuel ->
  _isDecoratedWithTag fuel h v tag = ROk (tag_among h tag ls).
Proof.
  intros H. induction H as [v d Hd Ht | l d w ls e Hd Ht Hw Hc IH]; intros fuel Hf.
  - destruct fuel as [|fuel]; [simpl in Hf; lia|].
    cbn [_isDecoratedWithTag]. rewrite Hd. cbn [rbind]. rewrite Ht. reflexivity.
  - destruct fuel as [|fuel]; [simpl in Hf; lia|].
    cbn [_isDecoratedWithTag]. rewrite Hd. cbn [rbind]. rewrite Ht.
    assert (Hv : exists o, h !! l = Some o).
    { simpl in Hd. destruct (h !! l); [eauto|discriminate]. }
    destruct Hv as [o Ho].
    rewrite (get_ref _ _ _ "tag" Ho). cbn [rbind].
    unfold tag_among. cbn [existsb]. unfold field at 1. rewrite Ho.
    destruct (strict_eq (obj_get o "tag") tag); [reflexivity|].
    rewrite Hw. cbn [rbind orb]. apply IH. simpl in Hf. lia.
Qed.

Lemma visited_chain h tag v ls e :
  chain h v ls e ->
  forall fuel, exists n, visited fuel h v tag = map VRef (take n ls).
Proof.
  intros H. induction H as [v d Hd Ht | l d w ls e Hd Ht Hw Hc IH]; intros fuel.
  - exists 0. destruct fuel; [reflexivity|]. cbn [visited]. rewrite Hd, Ht. reflexivity.
  - destruct fuel as [|fuel]; [exists 0; reflexivity|].
    cbn [visited]. rewrite Hd, Ht.
    destruct (get h (VRef l) "tag") as [t| | |]; try (exists 1; reflexivity).
    destruct (strict_eq t tag); [exists 1; reflexivity|].
    rewrite Hw. destruct (IH fuel) as [n Hn]. exists (S n). simpl. now rewrite Hn.
Qed.

(** C10.  On a chain that ends (the walk along [wraps] from [func]
    meets the records [ls] and then a value [e] that is not a decorator
    record, a plain callable for instance), [_isDecoratedWithTag]
    finishes within [length ls + 1] evaluations of its loop condition and
    returns a boolean, true exactly when a record of the chain carries
    the tag; the records its body visits are an initial segment of the
    chain, each visited once. *)
Theorem C10_isDecoratedWithTag_terminates
    (h : list object) (func : value) (ls : list loc) (e tag : value) :
  chain h func ls e ->
  (forall fuel, length ls < fuel ->
     _isDecoratedWithTag fuel h func tag = ROk (tag_among h tag ls)) /\
  (forall fuel,
     NoDup (visited fuel h func tag) /\
     exists n, visited fuel h func tag = map VRef (take n ls)).
Proof.
  intros Hc. split.
  - intros fuel Hf. eapply isDecoratedWithTag_chain; eauto.
  - intros fuel. destruct (visited_chain h tag _ _ _ Hc fuel) as [n Hn].
    split; [|eauto]. rewrite Hn.
    apply NoDup_fmap_2; [intros a b; congruence|].
    eapply sublist_NoDup; [|apply sublist_take].
    eapply chain_NoDup; eauto.
Qed.

Lemma chain_traced :
  chain (heap st_traced) (VRef addr_traced) [addr_traced] (VRef addr_checked).
Proof.
  eapply chain_wraps with (d := VBool true) (w := VRef addr_checked);
    [reflexivity | reflexivity | reflexivity |].
  eapply chain_end with (d := VUndefined); reflexivity.
Qed.

Lemma C10_isDecoratedWithTag_terminates_witness :
  chain (heap st_traced) (VRef addr_traced) [addr_traced] (VRef addr_checked) /\
  _isDecoratedWithTag 2 (heap st_traced) (VRef addr_traced) (VStr "trace") = ROk true /\
  _isDecoratedWithTag 2 (heap st_traced) (VRef addr_traced) (VStr "time") = ROk false.
Proof.
  split; [exact chain_traced|].
  split.
  - apply (proj1 (C10_isDecoratedWithTag_terminates _ _ _ _ (VStr "trace") chain_traced) 2).
    simpl. lia.
  - apply (proj1 (C10_isDecoratedWithTag_terminates _ _ _ _ (VStr "time") chain_traced) 2).
    simpl. lia.
Defined.

(** ** What a decorator does *)

Lemma get_any h v k k' r : get h v k = ROk r -> exists r', get h v k' = ROk r'.
Proof.
  destruct v; simpl; try discriminate; eauto.
  - intros _. destruct (String.eqb k' "length"); eauto.
    destruct (key_index k'); eauto.
  - destruct (h !! l); [eauto|discriminate].
Qed.

Lemma tag_check_get fuel h func tag b :
  _isDecoratedWithTag fuel h func tag = ROk b ->
  exists dv, get h func "isDecorator" = ROk dv.
Proof.
  destruct fuel as [|fuel]; [discriminate|]. cbn [_isDecoratedWithTag].
  destruct (get h func "isDecorator"); try discriminate. eauto.
Qed.

Lemma resolve_name_eq h st func funcName dv :
  heap st = h -> get h func "isDecorator" = ROk dv ->
  resolve_name func funcName st = Done (shown_name h func funcName) st.
Proof.
  intros <- Hd. unfold resolve_name, shown_name.
  destruct (strict_eq funcName VUndefined); [|reflexivity].
  destruct (get_any _ _ _ "name" _ Hd) as [n Hn].
  unfold bind. rewrite (getP_eq _ _ _ _ Hn). rewrite Hn. reflexivity.
Qed.

Lemma decorator_disabled i fuel func funcName st :
  truthy (DEBUG st) = false -> decorator i fuel func funcName st = Done func st.
Proof.
  intros H. destruct i; simpl;
    unfold _traceDecorator, _timeDecorator, _breakBeforeDecorator; now rewrite H.
Qed.

Lemma decorator_enabled i fuel func funcName st :
  truthy (DEBUG st) = true ->
  decorator i fuel func funcName st =
  match _isDecoratedWithTag fuel (heap st) func (VStr (tag_of i)) with
  | ROk true => Done func st
  | ROk false => Done (VRef (length (heap st))) (wrapped i func funcName st)
  | RErr e => Raise e st
  | RFuel => OutOfFuel
  | RHost => Host
  end.
Proof.
  intros HD.
  destruct (_isDecoratedWithTag fuel (heap st) func (VStr (tag_of i))) as [[|]| | |] eqn:Ht;
    destruct i; simpl in *;
    unfold _traceDecorator, _timeDecorator, _breakBeforeDecorator;
    rewrite HD; simpl; unfold bind, lift; rewrite Ht; try reflexivity;
    destruct (tag_check_get _ _ _ _ _ Ht) as [dv Hd].
  - erewrite resolve_name_eq by eauto. unfold alloc.
    erewrite makeDecorator_fresh by (try reflexivity; eauto). reflexivity.
  - erewrite resolve_name_eq by eauto. unfold alloc.
    erewrite makeDecorator_fresh by (try reflexivity; eauto). reflexivity.
  - unfold alloc, next_breakpoint.
    erewrite makeDecorator_fresh by (try reflexivity; eauto). reflexivity.
Qed.

(** Every outcome of a decorator that leaves a state. *)
Lemma decorator_final i fuel func funcName st st' :
  final (decorator i fuel func funcName st) = Some st' ->
  st' = st \/
  (st' = wrapped i func funcName st /\
   _isDecoratedWithTag fuel (heap st) func (VStr (tag_of i)) = ROk false).
Proof.
  destruct (truthy (DEBUG st)) eqn:HD.
  - rewrite decorator_enabled by exact HD.
    destruct (_isDecoratedWithTag fuel (heap st) func (VStr (tag_of i))) as [[|]| | |];
      simpl; intros H; inversion H; auto.
  - rewrite decorator_disabled by exact HD. simpl. intros H; inversion H; auto.
Qed.

(** ** Heaps with the same links *)

Lemma get_ref_field h l k : l < length h -> get h (VRef l) k = ROk (field h l k).
Proof.
  intros Hl. unfold field. simpl.
  destruct (h !! l) eqn:E; [reflexivity|].
  apply lookup_ge_None in E. lia.
Qed.

Lemma get_ref_invalid h l k : length h <= l -> get h (VRef l) k = RHost.
Proof. intros Hl. simpl. now rewrite (proj2 (lookup_ge_None h l) Hl). Qed.

Lemma is_decorator_ref h l :
  is_decorator h (VRef l) <->
  l < length h /\ truthy (field h l "isDecorator") = true.
Proof.
  unfold is_decorator. split.
  - intros (d & Hd & Ht). pose proof (get_valid _ _ _ _ Hd) as Hl.
    rewrite (get_field _ _ _ _ Hd). auto.
  - intros [Hl Ht]. exists (field h l "isDecorator"). split; [|exact Ht].
    now apply get_ref_field.
Qed.

Lemma links_eq_get h h' v k :
  links_eq h h' -> In k link_keys -> get h' v k = get h v k.
Proof.
  intros [Hlen Hf] Hk. destruct v; try reflexivity.
  destruct (Nat.lt_ge_cases l (length h)) as [Hl|Hl].
  - rewrite !get_ref_field by lia. now rewrite Hf.
  - rewrite !get_ref_invalid by lia. reflexivity.
Qed.

Lemma links_eq_refl h : links_eq h h.
Proof. split; auto. Qed.

Lemma links_eq_trans h1 h2 h3 : links_eq h1 h2 -> links_eq h2 h3 -> links_eq h1 h3.
Proof.
  intros [L1 F1] [L2 F2]. split; [lia|].
  intros l k Hk. now rewrite F2, F1.
Qed.

Lemma links_eq_sym h h' : links_eq h h' -> links_eq h' h.
Proof. intros [L F]. split; [lia|]. intros l k Hk. now rewrite F. Qed.

Lemma in_links_isDecorator : In "isDecorator" link_keys.
Proof. simpl; auto. Qed.
Lemma in_links_wraps : In "wraps" link_keys.
Proof. simpl; auto. Qed.
Lemma in_links_tag : In "tag" link_keys.
Proof. simpl; auto. Qed.
Lemma in_links_wrapper : In "wrapper" link_keys.
Proof. simpl; auto 6. Qed.

Lemma links_eq_chain h h' v ls e :
  links_eq h h' -> chain h v ls e -> chain h' v ls e.
Proof.
  intros Heq H. induction H as [v d Hd Ht | l d w ls e Hd Ht Hw Hc IH].
  - eapply chain_end; [|exact Ht].
    rewrite (links_eq_get _ _ _ _ Heq in_links_isDecorator). exact Hd.
  - eapply chain_wraps; [| exact Ht | | exact IH].
    + rewrite (links_eq_get _ _ _ _ Heq in_links_isDecorator). exact Hd.
    + rewrite (links_eq_get _ _ _ _ Heq in_links_wraps). exact Hw.
Qed.

Lemma links_eq_is_decorator h h' v :
  links_eq h h' -> is_decorator h v -> is_decorator h' v.
Proof.
  intros Heq (d & Hd & Ht). exists d. split; [|exact Ht].
  rewrite (links_eq_get _ _ _ _ Heq in_links_isDecorator). exact Hd.
Qed.

Lemma links_eq_tags h h' ls : links_eq h h' -> tags h' ls = tags h ls.
Proof.
  intros [_ Hf]. unfold tags. apply map_ext. intros l. apply Hf, in_links_tag.
Qed.

Lemma links_eq_inv h h' : links_eq h h' -> chain_inv h -> chain_inv h'.
Proof.
  intros Heq [I1 I2 I3]. pose proof (links_eq_sym _ _ Heq) as Hsym.
  destruct Heq as [Hlen Hf]. assert (Heq : links_eq h h') by (split; auto).
  split.
  - intros l Hl. rewrite (Hf l "wraps" in_links_wraps). apply I1.
    eapply links_eq_is_decorator; eauto.
  - intros v ls e Hc. rewrite (links_eq_tags _ _ _ Heq). eapply I2.
    eapply links_eq_chain; eauto.
  - intros l d Hl Hd Hw. rewrite (Hf d "wraps" in_links_wraps) in Hw.
    destruct (I3 l d) as (w & Hw1 & Hw2 & Hw3);
      eauto using links_eq_is_decorator.
    exists w. rewrite (Hf l "wrapper" in_links_wrapper), (Hf w "wraps" in_links_wraps).
    eauto using links_eq_is_decorator.
Qed.

(** ** Writes that leave the links alone, and a frame rule for calls *)

Lemma obj_set_links o key x o' :
  obj_set o key x = ROk o' ->
  forall k, In k link_keys -> k <> key -> obj_get o' k = obj_get o k.
Proof.
  intros Hs k Hk Hne. unfold obj_set in Hs.
  destruct (o_kind o) as [|elems|n a c] eqn:Ek.
  - inversion Hs; subst. apply obj_get_set_ne. congruence.
  - assert (Harr : forall el, obj_get {| o_kind := KArray el; o_props := o_props o |} k
                              = obj_get o k).
    { intros el. unfold obj_get. rewrite Ek. simpl.
      destruct Hk as [<-|[<-|[<-|[<-|[]]]]]; reflexivity. }
    destruct (String.eqb key "length").
    + destruct x; try discriminate.
      destruct (n <? 0)%Z; [discriminate|]. inversion Hs; subst. apply Harr.
    + destruct (key_index key).
      * inversion Hs; subst. apply Harr.
      * inversion Hs; subst. apply obj_get_set_ne. congruence.
  - destruct (String.eqb key "name"); [inversion Hs; subst; reflexivity|].
    destruct (String.eqb key "length"); [inversion Hs; subst; reflexivity|].
    inversion Hs; subst. apply obj_get_set_ne. congruence.
Qed.

Lemma set_links_eq h v key x h' :
  set h v key x = ROk h' -> ~ In key link_keys -> links_eq h h'.
Proof.
  intros Hs Hk. destruct v; simpl in Hs; try discriminate;
    try (inversion Hs; subst; apply links_eq_refl).
  revert Hs. destruct (h !! l) as [o|] eqn:El; [|discriminate].
  destruct (obj_set o key x) as [o'| | |] eqn:Eo; try discriminate.
  simpl. intros Hs. inversion Hs; subst. split.
  - apply length_insert.
  - intros l0 k Hin. unfold field.
    destruct (decide (l0 = l)) as [->|Hne].
    + rewrite list_lookup_insert_eq by (eapply lookup_lt_Some; eauto).
      rewrite El. eapply obj_set_links; eauto. intros ->. contradiction.
    + rewrite list_lookup_insert_ne by congruence. reflexivity.
Qed.

Section Frame.
Variable R : state -> state -> Prop.
Hypothesis R_refl : forall st, R st st.
Hypothesis R_trans : forall a b c, R a b -> R b c -> R a c.

Lemma frame_elim {A} (c : M A) st st' :
  frame R c -> final (c st) = Some st' -> R st st'.
Proof. intros H. apply H. Qed.

Lemma frame_ret {A} (a : A) : frame R (ret a).
Proof. intros st st' H. inversion H; subst. apply R_refl. Qed.

Lemma frame_raise {A} e : frame R (@raise A e).
Proof. intros st st' H. inversion H; subst. apply R_refl. Qed.

Lemma frame_lift {A} (r : result A) : frame R (lift r).
Proof.
  intros st st' H. unfold lift in H. destruct r; inversion H; subst; apply R_refl.
Qed.

Lemma frame_bind {A B} (c : M A) (k : A -> M B) :
  frame R c -> (forall a, frame R (k a)) -> frame R (bind c k).
Proof.
  intros Hc Hk st st' H. unfold bind in H.
  destruct (c st) as [a s1|e s1| |] eqn:E; simpl in H; try discriminate.
  - eapply R_trans; [|eapply Hk; eauto]. apply Hc. rewrite E. reflexivity.
  - inversion H; subst. apply Hc. rewrite E. reflexivity.
Qed.

Lemma frame_mapM {A B} (f : A -> M B) l :
  (forall a, frame R (f a)) -> frame R (mapM f l).
Proof.
  intros Hf. induction l as [|a l IH]; simpl.
  - apply frame_ret.
  - apply frame_bind; [apply Hf|]. intros b.
    apply frame_bind; [apply IH|]. intros bs. apply frame_ret.
Qed.

(** The steps that leave the fields named by [R] alone are given by
    a hypothesis on each primitive. *)
Hypothesis R_getP : forall v k, frame R (getP v k).
Hypothesis R_depth : forall v x, frame R (setP v "recursionDepth" x).
Hypothesis R_time : frame R get_monotonic_time.
Hypothesis R_trap : frame R breakpoint.
Hypothesis R_out : forall s, frame R (stream_write s).
Hypothesis R_pp : forall fuel v, frame R (prettyPrintM fuel v).

Lemma frame_write args : frame R (write args).
Proof.
  unfold write. apply frame_bind; [apply frame_lift|]. intros strs.
  apply frame_bind; [apply R_time|]. intros now.
  intros st st' H. eapply frame_elim; [apply R_out|]. exact H.
Qed.

Lemma frame_preinc v : frame R (preinc v "recursionDepth").
Proof.
  unfold preinc. apply frame_bind; [apply R_getP|]. intros old.
  apply frame_bind; [apply frame_lift|]. intros n.
  apply frame_bind; [apply R_depth|]. intros _. apply frame_ret.
Qed.

Lemma frame_postdec v : frame R (postdec v "recursionDepth").
Proof.
  unfold postdec. apply frame_bind; [apply R_getP|]. intros old.
  apply frame_bind; [apply frame_lift|]. intros n.
  apply frame_bind; [apply R_depth|]. intros _. apply frame_ret.
Qed.

Section Apply.
Variable apply : value -> value -> list value -> M value.
Hypothesis R_apply : forall f this args, frame R (apply f this args).

Lemma frame_exec_prog p : frame R (exec_prog apply p).
Proof.
  induction p as [v|v|o key k IH|f this args k IH]; intros st st' H; simpl in H.
  - inversion H; subst. apply R_refl.
  - inversion H; subst. apply R_refl.
  - destruct (getP o key st) as [v s1|e s1| |] eqn:E; simpl in H; try discriminate.
    + eapply R_trans; [|eapply IH; eauto].
      eapply frame_elim; [apply R_getP|]. rewrite E. reflexivity.
    + inversion H; subst.
      eapply frame_elim; [apply R_getP|]. rewrite E. reflexivity.
  - destruct (apply f this args st) as [v s1|e s1| |] eqn:E; simpl in H;
      try discriminate.
    + eapply R_trans; [|eapply IH; eauto].
      eapply frame_elim; [apply R_apply|]. rewrite E. reflexivity.
    + inversion H; subst.
      eapply frame_elim; [apply R_apply|]. rewrite E. reflexivity.
Qed.

Lemma frame_trace_shim fuel callee func funcName this args :
  frame R (trace_shim apply fuel callee func funcName this args).
Proof.
  unfold trace_shim.
  apply frame_bind; [apply frame_preinc|]. intros depth.
  apply frame_bind; [apply frame_lift|]. intros name.
  apply frame_bind; [apply frame_mapM; intros; apply R_pp|]. intros strs.
  apply frame_bind.
  { destruct (gt1 depth); [|apply frame_ret].
    apply frame_bind; [apply frame_lift|]. intros d. apply frame_ret. }
  intros traceString.
  apply frame_bind; [apply frame_write|]. intros _.
  apply frame_bind; [apply R_apply|]. intros retval.
  apply frame_bind; [apply R_pp|]. intros s.
  apply frame_bind; [apply frame_write|]. intros _.
  apply frame_bind; [apply frame_postdec|]. intros _. apply frame_ret.
Qed.

Lemma frame_time_shim func funcName this args :
  frame R (time_shim apply func funcName this args).
Proof.
  unfold time_shim.
  apply frame_bind; [apply R_time|]. intros timer.
  apply frame_bind; [apply R_apply|]. intros retval.
  apply frame_bind; [apply R_time|]. intros now.
  apply frame_bind; [apply frame_write|]. intros _. apply frame_ret.
Qed.

Lemma frame_break_shim callee func this args :
  frame R (break_shim apply callee func this args).
Proof.
  unfold break_shim.
  apply frame_bind; [apply R_getP|]. intros num.
  apply frame_bind; [apply frame_write|]. intros _.
  apply frame_bind; [apply R_trap|]. intros _. apply R_apply.
Qed.
End Apply.

Lemma frame_call fuel : forall f this args, frame R (call fuel f this args).
Proof.
  induction fuel as [|fuel IH]; intros f this args st st' H.
  - discriminate.
  - cbn [call] in H. destruct f; try (inversion H; subst; apply R_refl).
    destruct (heap st !! l) as [o|]; [|discriminate].
    destruct (o_kind o) as [| |n a c]; try (inversion H; subst; apply R_refl).
    destruct c.
    + eapply frame_elim; [apply frame_exec_prog; apply IH|exact H].
    + eapply frame_elim; [apply frame_trace_shim; apply IH|exact H].
    + eapply frame_elim; [apply frame_time_shim; apply IH|exact H].
    + eapply frame_elim; [apply frame_break_shim; apply IH|exact H].
Qed.
End Frame.

(** ** Calls keep the links; the heap after a wrap *)

Lemma keeps_links_same_heap {A} (c : M A) :
  (forall st st', final (c st) = Some st' -> heap st' = heap st) ->
  frame keeps_links c.
Proof.
  intros H st st' Hf. unfold keeps_links. rewrite (H _ _ Hf). apply links_eq_refl.
Qed.

Lemma setP_keeps_links v k x : ~ In k link_keys -> frame keeps_links (setP v k x).
Proof.
  intros Hk st st' H. unfold setP in H.
  destruct (set (heap st) v k x) as [h'|e| |] eqn:E; simpl in H; inversion H; subst.
  - unfold keeps_links. simpl. eapply set_links_eq; eauto.
  - apply links_eq_refl.
Qed.

(** A call changes no link of the heap. *)
Lemma call_keeps_links fuel f this args : frame keeps_links (call fuel f this args).
Proof.
  apply frame_call.
  - intros st. apply links_eq_refl.
  - intros a b c. apply links_eq_trans.
  - intros v k. apply keeps_links_same_heap. intros st st' H.
    unfold getP, lift in H. destruct (get (heap st) v k); inversion H; reflexivity.
  - intros v x. apply setP_keeps_links. simpl. intuition discriminate.
  - apply keeps_links_same_heap. intros st st' H. inversion H; reflexivity.
  - apply keeps_links_same_heap. intros st st' H. inversion H; reflexivity.
  - intros s. apply keeps_links_same_heap. intros st st' H. inversion H; reflexivity.
  - intros n v. apply keeps_links_same_heap. intros st st' H.
    unfold prettyPrintM, lift in H.
    destruct (_prettyPrint n (heap st) v); inversion H; reflexivity.
Qed.

Lemma undecorated_inv h : undecorated h -> chain_inv h.
Proof.
  intros Hu.
  assert (Hno : forall l, ~ is_decorator h (VRef l)).
  { intros l Hd. pose proof Hd as (Hl & _)%is_decorator_ref. eapply Hu; eauto. }
  split.
  - intros l Hd. exfalso. eapply Hno; eauto.
  - intros v ls e Hc. destruct Hc as [v d Hd Ht | l d w ls e Hd Ht Hw Hc].
    + constructor.
    + exfalso. apply (Hno l). exists d. auto.
  - intros l d Hl. exfalso. eapply Hno; eauto.
Qed.

(** *** The heap after a wrap, field by field *)

Lemma mark_wrapper_length h func d : length (mark_wrapper h func d) = length h.
Proof.
  unfold mark_wrapper. destruct func; auto. destruct (h !! l); auto.
  destruct (truthy _); auto. apply length_insert.
Qed.

Lemma wrapped_length i func funcName st :
  length (heap (wrapped i func funcName st)) = S (length (heap st)).
Proof.
  unfold wrapped. rewrite with_heap_heap, length_app, mark_wrapper_length.
  simpl. lia.
Qed.

Lemma mark_wrapper_other h func d l k :
  k <> "wrapper" -> field (mark_wrapper h func d) l k = field h l k.
Proof.
  intros Hk. unfold mark_wrapper. destruct func; auto.
  destruct (h !! l0) as [o|] eqn:E; auto. destruct (truthy _); auto.
  unfold field. destruct (decide (l = l0)) as [->|Hne].
  - rewrite list_lookup_insert_eq by (eapply lookup_lt_Some; eauto). rewrite E.
    apply obj_get_set_ne. congruence.
  - rewrite list_lookup_insert_ne by congruence. reflexivity.
Qed.

Lemma mark_wrapper_hit h l d :
  l < length h -> truthy (field h l "isDecorator") = true ->
  field (mark_wrapper h (VRef l) d) l "wrapper" = VRef d.
Proof.
  intros Hl Ht. unfold mark_wrapper, field in *.
  destruct (h !! l) as [o|] eqn:E; [|apply lookup_ge_None in E; lia].
  rewrite Ht. rewrite list_lookup_insert_eq by exact Hl.
  now apply obj_get_set_eq.
Qed.

Lemma mark_wrapper_miss h func d l :
  (func <> VRef l \/ truthy (field h l "isDecorator") = false) ->
  field (mark_wrapper h func d) l "wrapper" = field h l "wrapper".
Proof.
  intros Hm. unfold mark_wrapper. destruct func; auto.
  destruct (h !! l0) as [o|] eqn:E; auto.
  destruct (truthy (obj_get o "isDecorator")) eqn:Et; auto.
  unfold field. destruct (decide (l = l0)) as [->|Hne].
  - exfalso. destruct Hm as [Hm|Hm]; [congruence|].
    unfold field in Hm. rewrite E in Hm. congruence.
  - rewrite list_lookup_insert_ne by congruence. reflexivity.
Qed.

Lemma lookup_snoc {A} (l : list A) (x : A) (n : nat) :
  n = length l -> (l ++ [x]) !! n = Some x.
Proof. intros ->. now apply list_lookup_middle. Qed.

Section Wrapped.
Variables (i : instr) (func funcName : value) (st : state).
Local Abbreviation h := (heap st).
Local Abbreviation h' := (heap (wrapped i func funcName st)).
Local Abbreviation d := (length (heap st)).

Lemma wrapped_old_field l k :
  l < d -> field h' l k = field (mark_wrapper h func d) l k.
Proof.
  intros Hl. unfold wrapped. rewrite with_heap_heap. unfold field.
  destruct i; simpl;
    rewrite lookup_app_l by (rewrite mark_wrapper_length; exact Hl); reflexivity.
Qed.

Lemma wrapped_old l k : l < d -> k <> "wrapper" -> field h' l k = field h l k.
Proof.
  intros Hl Hk. rewrite wrapped_old_field by exact Hl.
  now apply mark_wrapper_other.
Qed.

Lemma wrapped_new :
  field h' d "isDecorator" = VBool true /\
  field h' d "wraps" = func /\
  field h' d "tag" = VStr (tag_of i).
Proof.
  unfold wrapped, field. rewrite with_heap_heap.
  destruct i; simpl;
    rewrite !lookup_snoc by (now rewrite mark_wrapper_length);
    repeat split; reflexivity.
Qed.
End Wrapped.

(** ** The invariants survive a wrap *)

Lemma tag_check_false h tag v ls e :
  chain h v ls e ->
  forall fuel, _isDecoratedWithTag fuel h v tag = ROk false ->
  tag_among h tag ls = false.
Proof.
  intros H. induction H as [v d Hd Ht | l d w ls e Hd Ht Hw Hc IH]; intros fuel Hf.
  - reflexivity.
  - destruct fuel as [|fuel]; [discriminate|].
    cbn [_isDecoratedWithTag] in Hf. rewrite Hd in Hf. cbn [rbind] in Hf.
    rewrite Ht in Hf.
    rewrite (get_ref_field h l "tag") in Hf by (eapply get_valid; eauto).
    cbn [rbind] in Hf. unfold tag_among. cbn [existsb].
    destruct (strict_eq (field h l "tag") tag); [discriminate|].
    rewrite Hw in Hf. cbn [rbind] in Hf. simpl. eapply IH; eauto.
Qed.

Lemma tag_among_false h T ls :
  tag_among h (VStr T) ls = false -> ~ In (VStr T) (tags h ls).
Proof.
  unfold tag_among, tags. intros Hf Hin.
  apply in_map_iff in Hin as (l & Hl & Hin).
  assert (Ht : existsb (fun l => strict_eq (field h l "tag") (VStr T)) ls = true).
  { apply existsb_exists. exists l. split; [exact Hin|]. now apply strict_eq_str. }
  congruence.
Qed.

Lemma get_ok_below h v k r : get h v k = ROk r -> below v (length h).
Proof. destruct v; simpl; auto. intros H. eapply get_valid. simpl. exact H. Qed.

Lemma chain_members_valid h v ls e : chain h v ls e -> Forall (fun l => l < length h) ls.
Proof.
  intros H. induction H as [v d Hd Ht | l d w ls e Hd Ht Hw Hc IH]; constructor; auto.
  eapply get_valid; eauto.
Qed.

Section WrappedInv.
Variables (i : instr) (fuel : nat) (func funcName : value) (st : state).
Local Abbreviation h := (heap st).
Local Abbreviation h' := (heap (wrapped i func funcName st)).
Local Abbreviation d := (length (heap st)).
Hypothesis Hinv : chain_inv h.
Hypothesis Htag : _isDecoratedWithTag fuel h func (VStr (tag_of i)) = ROk false.

Lemma wrapped_func_below : below func d.
Proof.
destruct (tag_check_get _ _ _ _ _ Htag) as [dv Hd]. eapply get_ok_below; eauto.
Qed.

Lemma get_wrapped_old v k :
below v d -> k <> "wrapper" -> get h' v k = get h v k.
Proof.
intros Hb Hk. destruct v; try reflexivity. simpl in Hb.
rewrite !get_ref_field; try exact Hb.
- f_equal. apply wrapped_old; auto.
- rewrite wrapped_length. lia.
Qed.

Lemma chain_wrapped_to v ls e : chain h v ls e -> chain h' v ls e.
Proof.
intros H. induction H as [v d0 Hd Ht | l d0 w ls e Hd Ht Hw Hc IH].
- eapply chain_end; [|exact Ht].
  rewrite get_wrapped_old; eauto using get_ok_below; discriminate.
- eapply chain_wraps; [| exact Ht | | exact IH];
    rewrite get_wrapped_old; eauto using get_ok_below; discriminate.
Qed.

Lemma chain_wrapped_from v ls e : below v d -> chain h' v ls e -> chain h v ls e.
Proof.
intros Hb H. induction H as [v d0 Hd Ht | l d0 w ls e Hd Ht Hw Hc IH].
- eapply chain_end; [|exact Ht]. rewrite <- get_wrapped_old; eauto; discriminate.
- rewrite get_wrapped_old in Hd, Hw by (auto; discriminate).
  eapply chain_wraps; eauto. apply IH.
  assert (Hdec : is_decorator h (VRef l)) by (exists d0; auto).
  pose proof (inv_wraps _ Hinv l Hdec) as Hbl.
  rewrite (get_field _ _ _ _ Hw) in Hbl. simpl in Hb.
  destruct w; simpl in *; auto. lia.
Qed.

Lemma chain_wrapped_new ls e :
chain h' (VRef d) ls e -> exists ls0, ls = d :: ls0 /\ chain h func ls0 e.
Proof.
destruct (wrapped_new i func funcName st) as (Hn1 & Hn2 & Hn3).
assert (Hlen : d < length h') by (rewrite wrapped_length; lia).
intros H. inversion H as [v d0 Hd Ht | l d0 w ls0 e0 Hd Ht Hw Hc].
- rewrite get_ref_field in Hd by exact Hlen. rewrite Hn1 in Hd.
  injection Hd as Hd. rewrite <- Hd in Ht. discriminate.
- rewrite get_ref_field in Hw by exact Hlen. rewrite Hn2 in Hw.
  injection Hw as Hw. subst w. exists ls0. split; [reflexivity|].
  apply chain_wrapped_from; [apply wrapped_func_below|exact Hc].
Qed.

Lemma tags_wrapped_old ls :
Forall (fun l => l < d) ls -> tags h' ls = tags h ls.
Proof.
intros Hall. unfold tags. apply map_ext_in. intros l Hl.
rewrite Forall_forall in Hall. apply wrapped_old; [|discriminate].
apply Hall. now apply list_elem_of_In.
Qed.

Lemma is_decorator_wrapped_old l :
l < d -> (is_decorator h' (VRef l) <-> is_decorator h (VRef l)).
Proof.
intros Hl. unfold is_decorator.
rewrite get_wrapped_old by (auto; discriminate). reflexivity.
Qed.

Lemma is_decorator_wrapped_new : is_decorator h' (VRef d).
Proof.
destruct (wrapped_new i func funcName st) as (Hn1 & _).
apply is_decorator_ref. split.
- rewrite wrapped_length. lia.
- now rewrite Hn1.
Qed.

Lemma is_decorator_wrapped_cases l :
is_decorator h' (VRef l) -> l = d \/ (l < d /\ is_decorator h (VRef l)).
Proof.
intros Hd. pose proof Hd as (Hl & _)%is_decorator_ref.
rewrite wrapped_length in Hl.
destruct (decide (l = d)) as [-> | Hne]; [auto|]. right.
assert (l < d) by lia. split; [auto|]. now apply is_decorator_wrapped_old.
Qed.

(** The invariants hold of the heap after a wrap. *)
Lemma wrapped_inv : chain_inv h'.
Proof.
destruct (wrapped_new i func funcName st) as (Hn1 & Hn2 & Hn3).
pose proof wrapped_func_below as Hfb.
split.
- (* wraps points below *)
  intros l [-> | [Hl Hd]]%is_decorator_wrapped_cases.
  + rewrite Hn2. exact Hfb.
  + rewrite wrapped_old by (auto; discriminate). now apply (inv_wraps _ Hinv).
- (* one record per tag *)
  intros v ls e Hc.
  destruct v as [| | | | | |l];
    try solve [inversion Hc; constructor].
  destruct (lt_eq_lt_dec l d) as [[Hl | ->] | Hl].
  + apply chain_wrapped_from in Hc; [|exact Hl].
    rewrite tags_wrapped_old by (eapply chain_members_valid; eauto).
    eapply inv_tags; eauto.
  + apply chain_wrapped_new in Hc as (ls0 & -> & Hc).
    unfold tags. cbn [map]. rewrite Hn3.
    pose proof (chain_members_valid _ _ _ _ Hc) as Hv.
    change (map (fun l => field h' l "tag") ls0) with (tags h' ls0).
    rewrite tags_wrapped_old by exact Hv.
    constructor.
    * rewrite list_elem_of_In. apply tag_among_false.
      eapply tag_check_false; eauto.
    * eapply inv_tags; eauto.
  + exfalso. assert (Hlen : length h' <= l)
      by (rewrite wrapped_length; lia).
    inversion Hc as [v d0 Hd Ht | l0 d0 w ls0 e0 Hd Ht Hw Hc0];
      rewrite get_ref_invalid in Hd by exact Hlen; discriminate.
- (* back-references *)
  intros l d0 Hl Hd0 Hw.
  apply is_decorator_wrapped_cases in Hd0 as [-> | [Hd0lt Hd0]].
  + (* the new record wraps l *)
    rewrite Hn2 in Hw. rewrite Hw in Hfb. simpl in Hfb.
    apply is_decorator_wrapped_old in Hl; [|exact Hfb].
    pose proof Hl as (_ & Ht)%is_decorator_ref.
    exists d. split; [|split; [apply is_decorator_wrapped_new|rewrite Hn2; exact Hw]].
    rewrite wrapped_old_field by exact Hfb. rewrite Hw.
    apply mark_wrapper_hit; [exact Hfb|exact Ht].
  + (* an old record wraps l *)
    rewrite wrapped_old in Hw by (auto; discriminate).
    pose proof (inv_wraps _ Hinv d0 Hd0) as Hbl. rewrite Hw in Hbl. simpl in Hbl.
    assert (Hllt : l < d) by lia.
    apply is_decorator_wrapped_old in Hl; [|exact Hllt].
    destruct (inv_wrapper _ Hinv l d0 Hl Hd0 Hw) as (w & Hw1 & Hw2 & Hw3).
    pose proof Hl as (_ & Ht)%is_decorator_ref.
    pose proof Hw2 as (Hwlt & _)%is_decorator_ref.
    destruct (decide (func = VRef l)) as [Hfl|Hne].
    * exists d. split; [|split; [apply is_decorator_wrapped_new|rewrite Hn2; exact Hfl]].
      rewrite wrapped_old_field by exact Hllt. rewrite Hfl.
      apply mark_wrapper_hit; [exact Hllt|exact Ht].
    * exists w. split; [|split].
      -- rewrite wrapped_old_field by exact Hllt.
         rewrite mark_wrapper_miss by auto. exact Hw1.
      -- apply is_decorator_wrapped_old; auto.
      -- rewrite wrapped_old by (auto; discriminate). exact Hw3.
Qed.
End WrappedInv.

(** ** The invariants hold in every reachable state *)

Lemma keeps_inv_refl st : keeps_inv st st.
Proof. intros H; exact H. Qed.

Lemma keeps_inv_trans a b c : keeps_inv a b -> keeps_inv b c -> keeps_inv a c.
Proof. unfold keeps_inv. auto. Qed.

Lemma keeps_links_inv {A} (c : M A) : frame keeps_links c -> frame keeps_inv c.
Proof.
  intros H st st' Hf Hinv. eapply links_eq_inv; [|exact Hinv]. apply (H _ _ Hf).
Qed.

Lemma getP_keeps_links v k : frame keeps_links (getP v k).
Proof.
  apply keeps_links_same_heap. intros st st' H.
  unfold getP, lift in H. destruct (get (heap st) v k); inversion H; reflexivity.
Qed.

Lemma decorator_keeps_inv i fuel func funcName :
  frame keeps_inv (decorator i fuel func funcName).
Proof.
  intros st st' Hf Hinv.
  apply decorator_final in Hf as [-> | [-> Ht]]; [exact Hinv|].
  eapply wrapped_inv; eauto.
Qed.

Lemma inv_bind {A B} (c : M A) (k : A -> M B) :
  frame keeps_inv c -> (forall a, frame keeps_inv (k a)) -> frame keeps_inv (bind c k).
Proof. apply frame_bind. exact keeps_inv_trans. Qed.

Lemma attach_keeps_inv (dec : value -> value -> M value) scope ident key :
  (forall func funcName, frame keeps_inv (dec func funcName)) ->
  ~ In key link_keys ->
  frame keeps_inv
    (old <- getP scope key ;;
     new <- dec old ident ;;
     _ <- setP scope key new ;;
     getP scope key).
Proof.
  intros Hdec Hn.
  apply inv_bind; [apply keeps_links_inv, getP_keeps_links|]. intros old.
  apply inv_bind; [apply Hdec|]. intros new.
  apply inv_bind; [apply keeps_links_inv, setP_keeps_links; exact Hn|]. intros _.
  apply keeps_links_inv, getP_keeps_links.
Qed.

Lemma decorate_keeps_inv name dec args :
  (forall func funcName, frame keeps_inv (dec func funcName)) ->
  forall st st',
  final (_decorate name dec args st) = Some st' ->
  (forall k, attach_key (heap st) args = Some k -> ~ In k link_keys) ->
  keeps_inv st st'.
Proof.
  intros Hdec st st' Hf Hk. unfold _decorate in Hf.
  destruct args as [|a0 [|a1 [|a2 rest]]]; simpl in Hf.
  - inversion Hf; subst. apply keeps_inv_refl.
  - simpl in Hk. destruct (is_function (heap st) a0).
    + eapply Hdec; eauto.
    + unfold bind at 1 in Hf. unfold lift at 1 in Hf.
      destruct (ToString a0) as [key| | |] eqn:Es; cbv beta iota in Hf; try discriminate.
      * eapply (attach_keeps_inv dec (window st) a0 key); eauto. apply Hk. reflexivity.
      * inversion Hf; subst. apply keeps_inv_refl.
  - simpl in Hk. unfold bind at 1 in Hf. unfold lift at 1 in Hf.
    destruct (ToString a1) as [key| | |] eqn:Es; cbv beta iota in Hf; try discriminate.
    + eapply (attach_keeps_inv dec a0 a1 key); eauto. apply Hk. reflexivity.
    + inversion Hf; subst. apply keeps_inv_refl.
  - inversion Hf; subst. apply keeps_inv_refl.
Qed.

Lemma step_keeps_inv st st' : step st st' -> keeps_inv st st'.
Proof.
  intros H. destruct H as [i fuel func funcName st st' Hf
                          | i fuel args st st' Hf Hk
                          | v st
                          | fuel f this args st st' Hf].
  - eapply decorator_keeps_inv; eauto.
  - destruct i; simpl in Hf; unfold trace, time, breakBefore in Hf.
    + eapply decorate_keeps_inv; [|exact Hf|exact Hk].
      intros func funcName. apply (decorator_keeps_inv Trace).
    + eapply decorate_keeps_inv; [|exact Hf|exact Hk].
      intros func funcName. apply (decorator_keeps_inv Time).
    + eapply decorate_keeps_inv; [|exact Hf|exact Hk].
      intros func funcName. apply (decorator_keeps_inv BreakBefore).
  - intros H; exact H.
  - eapply keeps_links_inv; [apply call_keeps_links|exact Hf].
Qed.

Lemma steps_keeps_inv st st' : steps st st' -> keeps_inv st st'.
Proof.
  intros H. induction H as [st | st st' st'' _ IH Hs].
  - apply keeps_inv_refl.
  - eapply keeps_inv_trans; [exact IH|]. now apply step_keeps_inv.
Qed.

(** Every state reached from an undecorated heap satisfies the
    invariants. *)
Lemma reachable_inv st0 st :
  undecorated (heap st0) -> steps st0 st -> chain_inv (heap st).
Proof.
  intros Hu Hs. eapply steps_keeps_inv; [exact Hs|]. now apply undecorated_inv.
Qed.

(** ** One record per tag, and the back-references *)


Lemma undecorated_demo : undecorated (heap st_demo).
Proof.
  intros l Hl Hd. apply is_decorator_ref in Hd as [_ Ht]. simpl in Hl.
  do 5 (destruct l as [|l]; [vm_compute in Ht; discriminate|]). lia.
Qed.

Lemma steps_fork : steps st_demo st_fork.
Proof.
  eapply steps_step; [eapply steps_step; [eapply steps_step; [apply steps_refl|]|]|].
  - apply (step_wrap Trace 5 (VRef addr_checked) VUndefined st_demo st_fork1).
    reflexivity.
  - apply (step_wrap Time 5 (VRef 5) VUndefined st_fork1 st_fork2). reflexivity.
  - apply (step_wrap Time 5 (VRef 5) VUndefined st_fork2 st_fork). reflexivity.
Qed.

Lemma chain_fork : chain (heap st_fork) (VRef 6) [6; 5] (VRef addr_checked).
Proof.
  eapply chain_wraps with (d := VBool true) (w := VRef 5);
    [reflexivity | reflexivity | reflexivity |].
  eapply chain_wraps with (d := VBool true) (w := VRef addr_checked);
    [reflexivity | reflexivity | reflexivity |].
  eapply chain_end with (d := VUndefined); reflexivity.
Qed.


(** Why [step_attach] leaves out the links of a record: an attacher
    aimed at the member [wraps] of a record is an assignment to that
    link.  [Q.trace(t, 'wraps')], with [t] the traced [checked], wraps
    the plain function anew and stores the new record in [t.wraps]. *)
Lemma attach_on_wraps_rewires :
  exists st,
    final (trace 5 [VRef addr_traced; VStr "wraps"] st_traced) = Some st /\
    chain (heap st) (VRef addr_traced) [addr_traced; 6] (VRef addr_checked) /\
    tags (heap st) [addr_traced; 6] = [VStr "trace"; VStr "trace"].
Proof.
  eexists. split; [vm_compute; reflexivity|]. split.
  - eapply chain_wraps with (d := VBool true) (w := VRef 6);
      [reflexivity | reflexivity | reflexivity |].
    eapply chain_wraps with (d := VBool true) (w := VRef addr_checked);
      [reflexivity | reflexivity | reflexivity |].
    eapply chain_end with (d := VUndefined); reflexivity.
  - reflexivity.
Qed.




(** ** The flag is read when wrapping, never when calling *)

Section Latched.
Variable v : value.
Local Abbreviation T := (set_DEBUG v).

Lemma commutes_ret {A} (a : A) : commutes T (ret a).
Proof. intros st. reflexivity. Qed.

Lemma commutes_lift {A} (r : result A) : commutes T (lift r).
Proof. intros st. destruct r; reflexivity. Qed.

Lemma commutes_bind {A B} (c : M A) (k : A -> M B) :
  commutes T c -> (forall a, commutes T (k a)) -> commutes T (bind c k).
Proof.
  intros Hc Hk st. unfold bind. rewrite Hc.
  destruct (c st) as [a s1|e s1| |]; simpl; auto. apply Hk.
Qed.

Lemma commutes_mapM {A B} (f : A -> M B) l :
  (forall a, commutes T (f a)) -> commutes T (mapM f l).
Proof.
  intros Hf. induction l as [|a l IH]; simpl.
  - apply commutes_ret.
  - apply commutes_bind; [apply Hf|]. intros b.
    apply commutes_bind; [apply IH|]. intros bs. apply commutes_ret.
Qed.

Lemma commutes_getP o k : commutes T (getP o k).
Proof.
  intros st. unfold getP. simpl. destruct (get (heap st) o k); reflexivity.
Qed.

Lemma commutes_setP o k x : commutes T (setP o k x).
Proof.
  intros st. unfold setP. simpl. destruct (set (heap st) o k x); reflexivity.
Qed.

Lemma commutes_prettyPrintM fuel o : commutes T (prettyPrintM fuel o).
Proof.
  intros st. unfold prettyPrintM. simpl.
  destruct (_prettyPrint fuel (heap st) o); reflexivity.
Qed.

Lemma commutes_time : commutes T get_monotonic_time.
Proof. intros st. reflexivity. Qed.

Lemma commutes_breakpoint : commutes T breakpoint.
Proof. intros st. reflexivity. Qed.

Lemma commutes_write args : commutes T (write args).
Proof.
  unfold write. apply commutes_bind; [apply commutes_lift|]. intros strs.
  apply commutes_bind; [apply commutes_time|]. intros now. intros st. reflexivity.
Qed.

Lemma commutes_preinc o k : commutes T (preinc o k).
Proof.
  unfold preinc. apply commutes_bind; [apply commutes_getP|]. intros old.
  apply commutes_bind; [apply commutes_lift|]. intros n.
  apply commutes_bind; [apply commutes_setP|]. intros _. apply commutes_ret.
Qed.

Lemma commutes_postdec o k : commutes T (postdec o k).
Proof.
  unfold postdec. apply commutes_bind; [apply commutes_getP|]. intros old.
  apply commutes_bind; [apply commutes_lift|]. intros n.
  apply commutes_bind; [apply commutes_setP|]. intros _. apply commutes_ret.
Qed.

Section Apply.
Variable apply : value -> value -> list value -> M value.
Hypothesis T_apply : forall f this args, commutes T (apply f this args).

Lemma commutes_exec_prog p : commutes T (exec_prog apply p).
Proof.
  induction p as [x|x|o key k IH|f this args k IH]; intros st; simpl.
  - reflexivity.
  - reflexivity.
  - rewrite (commutes_getP o key st).
    destruct (getP o key st) as [x s1|e s1| |]; simpl; auto. apply IH.
  - rewrite (T_apply f this args st).
    destruct (apply f this args st) as [x s1|e s1| |]; simpl; auto. apply IH.
Qed.

Lemma commutes_trace_shim fuel callee func funcName this args :
  commutes T (trace_shim apply fuel callee func funcName this args).
Proof.
  unfold trace_shim.
  apply commutes_bind; [apply commutes_preinc|]. intros depth.
  apply commutes_bind; [apply commutes_lift|]. intros name.
  apply commutes_bind; [apply commutes_mapM; intros; apply commutes_prettyPrintM|].
  intros strs. apply commutes_bind.
  { destruct (gt1 depth); [|apply commutes_ret].
    apply commutes_bind; [apply commutes_lift|]. intros d. apply commutes_ret. }
  intros traceString.
  apply commutes_bind; [apply commutes_write|]. intros _.
  apply commutes_bind; [apply T_apply|]. intros retval.
  apply commutes_bind; [apply commutes_prettyPrintM|]. intros s.
  apply commutes_bind; [apply commutes_write|]. intros _.
  apply commutes_bind; [apply commutes_postdec|]. intros _. apply commutes_ret.
Qed.

Lemma commutes_time_shim func funcName this args :
  commutes T (time_shim apply func funcName this args).
Proof.
  unfold time_shim.
  apply commutes_bind; [apply commutes_time|]. intros timer.
  apply commutes_bind; [apply T_apply|]. intros retval.
  apply commutes_bind; [apply commutes_time|]. intros now.
  apply commutes_bind; [apply commutes_write|]. intros _. apply commutes_ret.
Qed.

Lemma commutes_break_shim callee func this args :
  commutes T (break_shim apply callee func this args).
Proof.
  unfold break_shim.
  apply commutes_bind; [apply commutes_getP|]. intros num.
  apply commutes_bind; [apply commutes_write|]. intros _.
  apply commutes_bind; [apply commutes_breakpoint|]. intros _. apply T_apply.
Qed.
End Apply.

(** No call reads [DEBUG]: it runs the same way whatever the flag is. *)
Lemma commutes_call fuel : forall f this args, commutes T (call fuel f this args).
Proof.
  induction fuel as [|fuel IH]; intros f this args st.
  - reflexivity.
  - cbn [call]. destruct f; try reflexivity.
    change (heap (set_DEBUG v st)) with (heap st).
    destruct (heap st !! l) as [o|]; [|reflexivity].
    destruct (o_kind o) as [| |n a c]; try reflexivity.
    destruct c.
    + apply commutes_exec_prog. apply IH.
    + apply commutes_trace_shim. apply IH.
    + apply commutes_time_shim. apply IH.
    + apply commutes_break_shim. apply IH.
Qed.
End Latched.



(** ** The recursion counter *)

Lemma same_depths_refl st : same_depths st st.
Proof. split; [reflexivity|]. intros l o H. exists o. auto. Qed.

Lemma same_depths_trans a b c : same_depths a b -> same_depths b c -> same_depths a c.
Proof.
  intros [L1 F1] [L2 F2]. split; [lia|]. intros l o H.
  destruct (F1 l o H) as (o1 & H1 & K1 & D1).
  destruct (F2 l o1 H1) as (o2 & H2 & K2 & D2).
  exists o2. split; [exact H2|]. split; congruence.
Qed.

Lemma same_heap_depths st st' : same_heap st st' -> same_depths st st'.
Proof.
  unfold same_heap. intros H. split; [now rewrite H|].
  intros l o Hl. exists o. rewrite H. auto.
Qed.

Lemma same_depths_numeric st st' :
  same_depths st st' -> numeric_depths (heap st) -> numeric_depths (heap st').
Proof.
  intros [L F] Hn l o' n a func name Hl Hk.
  assert (Hlt : l < length (heap st)) by (rewrite <- L; eapply lookup_lt_Some; eauto).
  destruct (lookup_lt_is_Some_2 _ _ Hlt) as [o Ho].
  destruct (F l o Ho) as (o2 & H2 & K2 & D2).
  assert (o2 = o') by congruence. subst o2.
  rewrite D2. apply (Hn l o n a func name); [exact Ho | rewrite <- K2; exact Hk].
Qed.

Lemma done_final {A} (c : M A) st a st' : c st = Done a st' -> final (c st) = Some st'.
Proof. intros H. now rewrite H. Qed.

Lemma same_heap_refl st : same_heap st st.
Proof. reflexivity. Qed.

Lemma same_heap_trans a b c : same_heap a b -> same_heap b c -> same_heap a c.
Proof. unfold same_heap. congruence. Qed.

Lemma same_heap_getP v k : frame same_heap (getP v k).
Proof.
  intros st st' H. unfold getP, lift in H.
  destruct (get (heap st) v k); inversion H; reflexivity.
Qed.

Lemma same_heap_pp fuel v : frame same_heap (prettyPrintM fuel v).
Proof.
  intros st st' H. unfold prettyPrintM, lift in H.
  destruct (_prettyPrint fuel (heap st) v); inversion H; reflexivity.
Qed.

Lemma same_heap_time : frame same_heap get_monotonic_time.
Proof. intros st st' H. inversion H; reflexivity. Qed.

Lemma same_heap_breakpoint : frame same_heap breakpoint.
Proof. intros st st' H. inversion H; reflexivity. Qed.

Lemma same_heap_write args : frame same_heap (write args).
Proof.
  unfold write. apply frame_bind; [exact same_heap_trans|apply frame_lift, same_heap_refl|].
  intros strs. apply frame_bind; [exact same_heap_trans|apply same_heap_time|].
  intros now st st' H. inversion H; reflexivity.
Qed.

(** Writing the counter of a closure: the other objects, and the kinds,
    stay. *)
Lemma setP_depth st l o x u st' :
  heap st !! l = Some o ->
  setP (VRef l) "recursionDepth" x st = Done u st' ->
  heap st' = <[l := with_props o (props_set (o_props o) "recursionDepth" x)]> (heap st).
Proof.
  intros Hl H. unfold setP in H.
  rewrite (set_plain _ _ _ "recursionDepth" x Hl eq_refl) in H.
  inversion H; reflexivity.
Qed.

Section Balance.
Variable apply : value -> value -> list value -> M value.
Variable fuel : nat.
Hypothesis apply_balanced :
  forall f this args st r st',
    numeric_depths (heap st) -> apply f this args st = Done r st' -> same_depths st st'.

Lemma exec_prog_balanced p : forall st r st',
  numeric_depths (heap st) -> exec_prog apply p st = Done r st' -> same_depths st st'.
Proof.
  induction p as [x|x|o key k IH|f this args k IH]; intros st r st' Hn H; simpl in H.
  - inversion H; subst. apply same_depths_refl.
  - discriminate.
  - destruct (getP o key st) as [x s1|e s1| |] eqn:E; try discriminate.
    assert (Hs : same_heap st s1) by (eapply same_heap_getP, done_final; eauto).
    eapply same_depths_trans; [apply same_heap_depths; exact Hs|].
    eapply IH; [|exact H]. unfold same_heap in Hs. now rewrite Hs.
  - destruct (apply f this args st) as [x s1|e s1| |] eqn:E; try discriminate.
    pose proof (apply_balanced _ _ _ _ _ _ Hn E) as Hs.
    eapply same_depths_trans; [exact Hs|].
    eapply IH; [|exact H]. eapply same_depths_numeric; eauto.
Qed.

Lemma time_shim_balanced func funcName this args st r st' :
  numeric_depths (heap st) ->
  time_shim apply func funcName this args st = Done r st' -> same_depths st st'.
Proof.
  intros Hn H. unfold time_shim in H.
  apply bind_done in H as (timer & s1 & H1 & H).
  apply bind_done in H as (retval & s2 & H2 & H).
  apply bind_done in H as (now & s3 & H3 & H).
  apply bind_done in H as (u & s4 & H4 & H).
  inversion H; subst.
  apply done_final, same_heap_time in H1. apply done_final, same_heap_time in H3.
  apply done_final, same_heap_write in H4. unfold same_heap in *.
  apply apply_balanced in H2; [|now rewrite H1].
  eapply same_depths_trans; [apply same_heap_depths; exact H1|].
  eapply same_depths_trans; [exact H2|].
  apply same_heap_depths. unfold same_heap. congruence.
Qed.

Lemma break_shim_balanced callee func this args st r st' :
  numeric_depths (heap st) ->
  break_shim apply callee func this args st = Done r st' -> same_depths st st'.
Proof.
  intros Hn H. unfold break_shim in H.
  apply bind_done in H as (num & s1 & H1 & H).
  apply bind_done in H as (u & s2 & H2 & H).
  apply bind_done in H as (u' & s3 & H3 & H).
  apply done_final, same_heap_getP in H1. apply done_final, same_heap_write in H2.
  apply done_final, same_heap_breakpoint in H3. unfold same_heap in *.
  apply apply_balanced in H; [|replace (heap s3) with (heap st) by congruence; exact Hn].
  eapply same_depths_trans; [|exact H].
  apply same_heap_depths. unfold same_heap. congruence.
Qed.

Lemma trace_shim_balanced l o n a func funcName this args st r st' :
  numeric_depths (heap st) ->
  heap st !! l = Some o -> o_kind o = KFunction n a (CTraceShim func funcName) ->
  trace_shim apply fuel (VRef l) func funcName this args st = Done r st' ->
  same_depths st st'.
Proof.
  intros Hn Hl Hk H. destruct (Hn _ _ _ _ _ _ Hl Hk) as [z Hz].
  unfold trace_shim in H.
  apply bind_done in H as (depth & s1 & Hinc & H).
  apply bind_done in H as (name & s2 & H2 & H).
  apply bind_done in H as (strs & s3 & H3 & H).
  apply bind_done in H as (traceString & s4 & H4 & H).
  apply bind_done in H as (u5 & s5 & H5 & H).
  apply bind_done in H as (retval & s6 & H6 & H).
  apply bind_done in H as (s & s7 & H7 & H).
  apply bind_done in H as (u8 & s8 & H8 & H).
  apply bind_done in H as (nd & s9 & Hdec & H).
  inversion H; subst r st'. clear H.
  (* the increment *)
  unfold preinc in Hinc.
  apply bind_done in Hinc as (old & t1 & Hg & Hinc).
  unfold getP, lift in Hg. rewrite (get_ref _ _ _ "recursionDepth" Hl), Hz in Hg.
  inversion Hg; subst old t1. clear Hg.
  apply bind_done in Hinc as (num & t2 & Hnum & Hinc).
  inversion Hnum; subst num t2. clear Hnum.
  apply bind_done in Hinc as (u & t3 & Hset & Hinc).
  inversion Hinc; subst depth t3. clear Hinc.
  pose proof (setP_depth _ _ _ _ _ _ Hl Hset) as Hh1. simpl add_num in Hh1.
  set (o1 := with_props o (props_set (o_props o) "recursionDepth" (VNum (z + 1)))) in *.
  (* up to the call, the heap stays *)
  assert (E2 : heap s2 = heap s1).
  { eapply (frame_lift same_heap same_heap_refl), done_final; eauto. }
  assert (E3 : heap s3 = heap s2).
  { eapply (frame_mapM same_heap same_heap_refl same_heap_trans), done_final; eauto.
    intros x. apply same_heap_pp. }
  assert (E4 : heap s4 = heap s3).
  { simpl add_num in H4. destruct (gt1 (VNum (z + 1))).
    - apply bind_done in H4 as (d & t & Hd & H4). inversion H4; subst.
      eapply (frame_lift same_heap same_heap_refl), done_final; eauto.
    - inversion H4; reflexivity. }
  assert (E5 : heap s5 = heap s4) by (eapply same_heap_write, done_final; eauto).
  assert (Hh5 : heap s5 = <[l := o1]> (heap st)) by congruence.
  assert (Hlt : l < length (heap st)) by (eapply lookup_lt_Some; eauto).
  (* the call *)
  assert (Hn5 : numeric_depths (heap s5)).
  { rewrite Hh5. intros l0 o0 n0 a0 f0 nm0 Hl0 Hk0.
    destruct (decide (l0 = l)) as [-> | Hne].
    - rewrite list_lookup_insert_eq in Hl0 by exact Hlt. inversion Hl0; subst o0.
      exists (z + 1)%Z. unfold o1. now apply obj_get_set_eq.
    - rewrite list_lookup_insert_ne in Hl0 by congruence. eapply Hn; eauto. }
  destruct (apply_balanced _ _ _ _ _ _ Hn5 H6) as [L6 F6].
  assert (E7 : heap s7 = heap s6) by (eapply same_heap_pp, done_final; eauto).
  assert (E8 : heap s8 = heap s7) by (eapply same_heap_write, done_final; eauto).
  assert (Hl5 : heap s5 !! l = Some o1).
  { rewrite Hh5. now apply list_lookup_insert_eq. }
  destruct (F6 l o1 Hl5) as (o6 & Hl6 & K6 & D6).
  assert (Hl8 : heap s8 !! l = Some o6) by congruence.
  (* the decrement *)
  unfold postdec in Hdec.
  apply bind_done in Hdec as (cur & t1 & Hg & Hdec).
  unfold getP, lift in Hg. rewrite (get_ref _ _ _ "recursionDepth" Hl8), D6 in Hg.
  unfold o1 in Hg. rewrite obj_get_set_eq in Hg by reflexivity.
  inversion Hg; subst cur t1. clear Hg.
  apply bind_done in Hdec as (num & t2 & Hnum & Hdec).
  inversion Hnum; subst num t2. clear Hnum.
  apply bind_done in Hdec as (u9 & t3 & Hset9 & Hdec).
  inversion Hdec; subst nd t3. clear Hdec.
  pose proof (setP_depth _ _ _ _ _ _ Hl8 Hset9) as Hh9. simpl add_num in Hh9.
  (* the balance *)
  split.
  - rewrite Hh9, length_insert. rewrite E8, E7, L6, Hh5. apply length_insert.
  - intros l0 o0 Hl0. rewrite Hh9.
    destruct (decide (l0 = l)) as [-> | Hne].
    + assert (o0 = o) by congruence. subst o0.
      rewrite list_lookup_insert_eq
        by (rewrite E8, E7, L6, Hh5, length_insert; exact Hlt).
      eexists. split; [reflexivity|]. split.
      * simpl. rewrite K6. reflexivity.
      * rewrite obj_get_set_eq by reflexivity. rewrite Hz. f_equal. lia.
    + rewrite list_lookup_insert_ne by congruence.
      assert (Hl05 : heap s5 !! l0 = Some o0).
      { rewrite Hh5. rewrite list_lookup_insert_ne by congruence. exact Hl0. }
      destruct (F6 l0 o0 Hl05) as (o' & Ho' & K' & D').
      exists o'. rewrite E8, E7. auto.
Qed.
End Balance.

(** On a heap whose trace closures hold numeric counters, a call that
    returns normally leaves every [recursionDepth] at its value from
    before the call. *)
Lemma call_balanced fuel : forall f this args st r st',
  numeric_depths (heap st) -> call fuel f this args st = Done r st' ->
  same_depths st st'.
Proof.
  induction fuel as [|fuel IH]; intros f this args st r st' Hn H.
  - discriminate.
  - cbn [call] in H. destruct f; try discriminate.
    destruct (heap st !! l) as [o|] eqn:Hl; [|discriminate].
    destruct (o_kind o) as [| |n a c] eqn:Hk; try discriminate.
    destruct c.
    + eapply exec_prog_balanced; eauto.
    + eapply trace_shim_balanced; eauto.
    + eapply time_shim_balanced; eauto.
    + eapply break_shim_balanced; eauto.
Qed.

Lemma numeric_depths_traced : numeric_depths (heap st_traced).
Proof.
  intros l o n a func name Hl Hk.
  do 6 (destruct l as [|l];
        [vm_compute in Hl; inversion Hl; subst o;
         first [discriminate Hk | (exists 0%Z; reflexivity)]|]).
  vm_compute in Hl. discriminate Hl.
Qed.

(** The example of the module: [Q.trace(obj, 'myRecursiveMethod')], then
    [obj.myRecursiveMethod(3)].  The nested entries are logged at the
    depths 2, 3 and 4, the result is 6, and the counter is back at 0. *)
Lemma trace_myRecursiveMethod :
  exists shim st1 st2,
    trace 5 [VRef addr_obj; VStr "myRecursiveMethod"] st_demo = Done shim st1 /\
    call 9 shim (VRef addr_obj) [VNum 3] st1 = Done (VNum 6) st2 /\
    _stream st2 =
      [" 1.5s Entering myRecursiveMethod(3)" +:+ chr 10;
       " 3.0s Entering myRecursiveMethod(2) [2]" +:+ chr 10;
       " 4.5s Entering myRecursiveMethod(1) [3]" +:+ chr 10;
       " 6.0s Entering myRecursiveMethod(0) [4]" +:+ chr 10;
       " 7.5s Leaving myRecursiveMethod(0) [4] -> 1" +:+ chr 10;
       " 9.0s Leaving myRecursiveMethod(1) [3] -> 1" +:+ chr 10;
       "10.5s Leaving myRecursiveMethod(2) [2] -> 2" +:+ chr 10;
       "12.0s Leaving myRecursiveMethod(3) -> 6" +:+ chr 10] /\
    field (heap st2) 5 "recursionDepth" = VNum 0.
Proof.
  eexists. eexists. eexists.
  split; [vm_compute; reflexivity|].
  split; [vm_compute; reflexivity|].
  split; reflexivity.
Qed.

(** C2.  A traced function that throws leaves the counter of its layer
    incremented: no handler runs the decrement.  [checked] is traced
    (depth 0 before any call); [checked(-1)] throws through the closure,
    after which the depth is 1, and the next top-level call
    [checked(3)], although it returns normally, is logged at depth 2
    and leaves the depth at 1.  (On the path without exception the
    counter does return to its value: [call_balanced].) *)
Theorem C2_depth_lost_on_throw :
  field (heap st_traced) addr_traced "recursionDepth" = VNum 0 /\
  exists st1 st2,
    call 5 (VRef addr_traced) (VRef addr_obj) [VNum (-1)] st_traced =
      Raise (Thrown (VStr "negative")) st1 /\
    field (heap st1) addr_traced "recursionDepth" = VNum 1 /\
    call 5 (VRef addr_traced) (VRef addr_obj) [VNum 3] st1 = Done (VNum 3) st2 /\
    _stream st2 =
      [" 1.5s Entering checked(-1)" +:+ chr 10;
       " 3.0s Entering checked(3) [2]" +:+ chr 10;
       " 4.5s Leaving checked(3) [2] -> 3" +:+ chr 10] /\
    field (heap st2) addr_traced "recursionDepth" = VNum 1.
Proof.
  split; [reflexivity|].
  eexists. eexists.
  split; [vm_compute; reflexivity|].
  split; [reflexivity|].
  split; [vm_compute; reflexivity|].
  split; reflexivity.
Qed.

(** ** What a call may change *)

Lemma keeps_fields_refl st : keeps_fields st st.
Proof.
  split; [reflexivity|]. split; [|repeat split; reflexivity].
  intros l o H. exists o. auto.
Qed.

Lemma keeps_fields_trans a b c :
  keeps_fields a b -> keeps_fields b c -> keeps_fields a c.
Proof.
  intros (L1 & F1 & D1 & B1 & S1 & W1 & C1) (L2 & F2 & D2 & B2 & S2 & W2 & C2).
  split; [congruence|]. split; [|repeat split; congruence].
  intros l o H. destruct (F1 l o H) as (o1 & H1 & K1 & G1).
  destruct (F2 l o1 H1) as (o2 & H2 & K2 & G2).
  exists o2. split; [exact H2|]. split; [congruence|].
  intros k Hk. rewrite G2, G1; auto.
Qed.

Lemma keeps_fields_same st st' :
  heap st' = heap st -> DEBUG st' = DEBUG st -> _breakpoints st' = _breakpoints st ->
  _startTime st' = _startTime st -> window st' = window st -> clock st' = clock st ->
  keeps_fields st st'.
Proof.
  intros H1 H2 H3 H4 H5 H6. split; [now rewrite H1|].
  split; [|repeat split; assumption].
  intros l o H. exists o. rewrite H1. auto.
Qed.

Lemma setP_depth_keeps_fields v x : frame keeps_fields (setP v "recursionDepth" x).
Proof.
  intros st st' H. unfold setP in H.
  destruct v as [| | | | | |l]; simpl in H;
    try (inversion H; subst; now apply keeps_fields_same).
  destruct (heap st !! l) as [o|] eqn:El; [|discriminate].
  rewrite (obj_set_plain o "recursionDepth" x eq_refl) in H. simpl in H.
  inversion H; subst st'. clear H.
  split; [simpl; apply length_insert|]. split; [|repeat split; reflexivity].
  intros l0 o0 H0. simpl.
  destruct (decide (l0 = l)) as [-> | Hne].
  - rewrite list_lookup_insert_eq by (eapply lookup_lt_Some; eauto).
    assert (o0 = o) by congruence. subst o0.
    eexists. split; [reflexivity|]. split; [reflexivity|].
    intros k Hk. apply obj_get_set_ne. congruence.
  - rewrite list_lookup_insert_ne by congruence. exists o0. auto.
Qed.

Lemma call_keeps_fields fuel f this args : frame keeps_fields (call fuel f this args).
Proof.
  apply frame_call.
  - apply keeps_fields_refl.
  - apply keeps_fields_trans.
  - intros v k st st' H. unfold getP, lift in H.
    destruct (get (heap st) v k); inversion H; subst; apply keeps_fields_refl.
  - apply setP_depth_keeps_fields.
  - intros st st' H. inversion H; subst. now apply keeps_fields_same.
  - intros st st' H. inversion H; subst. now apply keeps_fields_same.
  - intros s st st' H. inversion H; subst. now apply keeps_fields_same.
  - intros n v st st' H. unfold prettyPrintM, lift in H.
    destruct (_prettyPrint n (heap st) v); inversion H; subst; apply keeps_fields_refl.
Qed.



(** ** The sink only grows *)

Lemma string_app_assoc (a b c : string) : (a +:+ b) +:+ c = a +:+ (b +:+ c).
Proof.
  induction a as [|x a IH]; [reflexivity|].
  change (String x a +:+ b) with (String x (a +:+ b)).
  change (String x (a +:+ b) +:+ c) with (String x ((a +:+ b) +:+ c)).
  change (String x a +:+ (b +:+ c)) with (String x (a +:+ (b +:+ c))).
  now rewrite IH.
Qed.

Lemma moves_forward_refl st : moves_forward st st.
Proof.
  split; [|lia]. exists []. split; [now rewrite app_nil_r|constructor].
Qed.

Lemma moves_forward_trans a b c :
  moves_forward a b -> moves_forward b c -> moves_forward a c.
Proof.
  intros [(l1 & E1 & F1) [T1 P1]] [(l2 & E2 & F2) [T2 P2]].
  split; [|lia]. exists (l1 ++ l2). split.
  - rewrite E2, E1. now rewrite app_assoc.
  - apply Forall_app. auto.
Qed.

Lemma moves_forward_same st st' :
  _stream st' = _stream st -> ticks st' = ticks st -> traps st' = traps st ->
  moves_forward st st'.
Proof.
  intros H1 H2 H3. split; [|lia]. exists []. rewrite app_nil_r. split; [exact H1|constructor].
Qed.

Lemma getP_moves_forward v k : frame moves_forward (getP v k).
Proof.
  intros st st' H. unfold getP, lift in H.
  destruct (get (heap st) v k); inversion H; subst; apply moves_forward_refl.
Qed.

Lemma setP_moves_forward v k x : frame moves_forward (setP v k x).
Proof.
  intros st st' H. unfold setP in H.
  destruct (set (heap st) v k x); inversion H; subst;
    now apply moves_forward_same.
Qed.

Lemma pp_moves_forward fuel v : frame moves_forward (prettyPrintM fuel v).
Proof.
  intros st st' H. unfold prettyPrintM, lift in H.
  destruct (_prettyPrint fuel (heap st) v); inversion H; subst;
    apply moves_forward_refl.
Qed.

Lemma time_moves_forward : frame moves_forward get_monotonic_time.
Proof.
  intros st st' H. inversion H; subst. split; [|simpl; lia].
  exists []. simpl. rewrite app_nil_r. split; [reflexivity|constructor].
Qed.

Lemma breakpoint_moves_forward : frame moves_forward breakpoint.
Proof.
  intros st st' H. inversion H; subst. split; [|simpl; lia].
  exists []. simpl. rewrite app_nil_r. split; [reflexivity|constructor].
Qed.

(** [write] appends one newline-terminated string. *)
Lemma write_moves_forward args : frame moves_forward (write args).
Proof.
  unfold write.
  apply frame_bind; [exact moves_forward_trans|apply frame_lift, moves_forward_refl|].
  intros strs.
  apply frame_bind; [exact moves_forward_trans|apply time_moves_forward|].
  intros now st st' H. inversion H; subst. split; [|simpl; lia].
  simpl. eexists. split; [reflexivity|].
  constructor; [|constructor].
  eexists. symmetry. apply string_app_assoc.
Qed.

(** A frame rule for calls in which [write] is taken as a whole. *)
Section FrameWrite.
Variable R : state -> state -> Prop.
Hypothesis R_refl : forall st, R st st.
Hypothesis R_trans : forall a b c, R a b -> R b c -> R a c.
Hypothesis R_getP : forall v k, frame R (getP v k).
Hypothesis R_depth : forall v x, frame R (setP v "recursionDepth" x).
Hypothesis R_time : frame R get_monotonic_time.
Hypothesis R_trap : frame R breakpoint.
Hypothesis R_write : forall args, frame R (write args).
Hypothesis R_pp : forall fuel v, frame R (prettyPrintM fuel v).

Section ApplyWrite.
Variable apply : value -> value -> list value -> M value.
Hypothesis R_apply : forall f this args, frame R (apply f this args).

Lemma framew_trace_shim fuel callee func funcName this args :
  frame R (trace_shim apply fuel callee func funcName this args).
Proof.
  unfold trace_shim.
  apply frame_bind; [exact R_trans|apply frame_preinc; auto|]. intros depth.
  apply frame_bind; [exact R_trans|apply frame_lift; auto|]. intros name.
  apply frame_bind; [exact R_trans|apply frame_mapM; auto|]. intros strs.
  apply frame_bind; [exact R_trans| |].
  { destruct (gt1 depth); [|apply frame_ret; auto].
    apply frame_bind; [exact R_trans|apply frame_lift; auto|]. intros d.
    apply frame_ret; auto. }
  intros traceString.
  apply frame_bind; [exact R_trans|apply R_write|]. intros _.
  apply frame_bind; [exact R_trans|apply R_apply|]. intros retval.
  apply frame_bind; [exact R_trans|apply R_pp|]. intros s.
  apply frame_bind; [exact R_trans|apply R_write|]. intros _.
  apply frame_bind; [exact R_trans|apply frame_postdec; auto|]. intros _.
  apply frame_ret; auto.
Qed.

Lemma framew_time_shim func funcName this args :
  frame R (time_shim apply func funcName this args).
Proof.
  unfold time_shim.
  apply frame_bind; [exact R_trans|apply R_time|]. intros timer.
  apply frame_bind; [exact R_trans|apply R_apply|]. intros retval.
  apply frame_bind; [exact R_trans|apply R_time|]. intros now.
  apply frame_bind; [exact R_trans|apply R_write|]. intros _.
  apply frame_ret; auto.
Qed.

Lemma framew_break_shim callee func this args :
  frame R (break_shim apply callee func this args).
Proof.
  unfold break_shim.
  apply frame_bind; [exact R_trans|apply R_getP|]. intros num.
  apply frame_bind; [exact R_trans|apply R_write|]. intros _.
  apply frame_bind; [exact R_trans|apply R_trap|]. intros _. apply R_apply.
Qed.
End ApplyWrite.

Lemma framew_call fuel : forall f this args, frame R (call fuel f this args).
Proof.
  induction fuel as [|fuel IH]; intros f this args st st' H.
  - discriminate.
  - cbn [call] in H. destruct f; try (inversion H; subst; apply R_refl).
    destruct (heap st !! l) as [o|]; [|discriminate].
    destruct (o_kind o) as [| |n a c]; try (inversion H; subst; apply R_refl).
    destruct c.
    + eapply frame_elim; [apply frame_exec_prog; auto|exact H].
    + eapply frame_elim; [apply framew_trace_shim; apply IH|exact H].
    + eapply frame_elim; [apply framew_time_shim; apply IH|exact H].
    + eapply frame_elim; [apply framew_break_shim; apply IH|exact H].
Qed.
End FrameWrite.

Lemma call_moves_forward fuel f this args : frame moves_forward (call fuel f this args).
Proof.
  apply framew_call.
  - apply moves_forward_refl.
  - apply moves_forward_trans.
  - apply getP_moves_forward.
  - intros v x. apply setP_moves_forward.
  - apply time_moves_forward.
  - apply breakpoint_moves_forward.
  - apply write_moves_forward.
  - apply pp_moves_forward.
Qed.

Lemma decorator_moves_forward i fuel func funcName :
  frame moves_forward (decorator i fuel func funcName).
Proof.
  intros st st' H. apply decorator_final in H as [-> | [-> _]].
  - apply moves_forward_refl.
  - apply moves_forward_same; destruct i; reflexivity.
Qed.

Lemma decorate_moves_forward name dec args :
  (forall func funcName, frame moves_forward (dec func funcName)) ->
  frame moves_forward (_decorate name dec args).
Proof.
  intros Hdec. unfold _decorate.
  assert (Hattach : forall scope ident,
            frame moves_forward
              (key <- lift (ToString ident) ;;
               old <- getP scope key ;;
               new <- dec old ident ;;
               _ <- setP scope key new ;;
               getP scope key)).
  { intros scope ident.
    apply frame_bind; [exact moves_forward_trans|apply frame_lift, moves_forward_refl|].
    intros key.
    apply frame_bind; [exact moves_forward_trans|apply getP_moves_forward|]. intros old.
    apply frame_bind; [exact moves_forward_trans|apply Hdec|]. intros new.
    apply frame_bind; [exact moves_forward_trans|apply setP_moves_forward|]. intros _.
    apply getP_moves_forward. }
  destruct args as [|a0 [|a1 [|a2 rest]]]; simpl.
  - apply frame_raise, moves_forward_refl.
  - intros st st' H. destruct (is_function (heap st) a0).
    + eapply Hdec; eauto.
    + eapply Hattach; eauto.
  - apply Hattach.
  - apply frame_raise, moves_forward_refl.
Qed.

Lemma attacher_moves_forward i fuel args : frame moves_forward (attacher i fuel args).
Proof.
  destruct i; simpl; unfold trace, time, breakBefore; apply decorate_moves_forward;
    intros func funcName.
  - apply (decorator_moves_forward Trace).
  - apply (decorator_moves_forward Time).
  - apply (decorator_moves_forward BreakBefore).
Qed.

Lemma q_moves_forward fuel estack v : frame moves_forward (q fuel estack v).
Proof.
  intros st st' H. unfold q in H.
  destruct (negb (truthy (DEBUG st))).
  - inversion H; subst. apply moves_forward_refl.
  - revert H. apply frame_elim.
    apply frame_bind; [exact moves_forward_trans|apply frame_lift, moves_forward_refl|].
    intros [[func file] line].
    apply frame_bind; [exact moves_forward_trans|apply frame_lift, moves_forward_refl|].
    intros f.
    apply frame_bind; [exact moves_forward_trans|apply frame_lift, moves_forward_refl|].
    intros l.
    apply frame_bind; [exact moves_forward_trans|apply pp_moves_forward|]. intros s.
    apply frame_bind; [exact moves_forward_trans|apply write_moves_forward|]. intros _.
    apply frame_ret, moves_forward_refl.
Qed.

(** X2.  No operation of the module (a decorator, an attacher, [q], a
    call of any function, decorated or not) removes or rewrites what
    the sink already holds: whatever way it ends, the sink is the old
    one followed by strings that each end in a newline, and the counts
    of clock readings and of traps have not gone down. *)
Theorem X2_sink_append_only (st st' : state) :
  (exists i fuel func funcName, final (decorator i fuel func funcName st) = Some st') \/
  (exists i fuel args, final (attacher i fuel args st) = Some st') \/
  (exists fuel estack v, final (q fuel estack v st) = Some st') \/
  (exists fuel f this args, final (call fuel f this args st) = Some st') ->
  moves_forward st st'.
Proof.
  intros [(i & fuel & func & funcName & H) | [(i & fuel & args & H) |
          [(fuel & estack & v & H) | (fuel & f & this & args & H)]]].
  - eapply decorator_moves_forward; eauto.
  - eapply attacher_moves_forward; eauto.
  - eapply q_moves_forward; eauto.
  - eapply call_moves_forward; eauto.
Qed.

Lemma X2_sink_append_only_witness :
  exists st',
    final (call 5 (VRef addr_traced) (VRef addr_obj) [VNum 3] st_traced) = Some st' /\
    moves_forward st_traced st' /\
    _stream st' = [" 1.5s Entering checked(3)" +:+ chr 10;
                   " 3.0s Leaving checked(3) -> 3" +:+ chr 10].
Proof.
  eexists. split; [vm_compute; reflexivity|]. split; [|reflexivity].
  apply X2_sink_append_only. right. right. right.
  exists 5, (VRef addr_traced), (VRef addr_obj), [VNum 3]. vm_compute; reflexivity.
Defined.

(** ** Stacking wrappers *)

Lemma wrapped_effects i func funcName st :
  _stream (wrapped i func funcName st) = _stream st /\
  ticks (wrapped i func funcName st) = ticks st /\
  traps (wrapped i func funcName st) = traps st /\
  DEBUG (wrapped i func funcName st) = DEBUG st.
Proof. destruct i; repeat split; reflexivity. Qed.

Lemma wrap_stacks
    (i : instr) (fuel : nat) (func funcName : value) (st : state)
    (ls : list loc) (e : value) :
  truthy (DEBUG st) = true ->
  chain (heap st) func ls e ->
  tag_among (heap st) (VStr (tag_of i)) ls = false ->
  length ls < fuel ->
  exists st',
    decorator i fuel func funcName st = Done (VRef (length (heap st))) st' /\
    length (heap st') = S (length (heap st)) /\
    chain (heap st') (VRef (length (heap st))) (length (heap st) :: ls) e /\
    tags (heap st') (length (heap st) :: ls) =
      VStr (tag_of i) :: tags (heap st) ls /\
    _stream st' = _stream st /\ ticks st' = ticks st.
Proof.
  intros HD Hc Ht Hf. exists (wrapped i func funcName st).
  rewrite decorator_enabled by exact HD.
  rewrite (isDecoratedWithTag_chain _ _ _ _ _ Hc) by exact Hf. rewrite Ht.
  destruct (wrapped_new i func funcName st) as (Hn1 & Hn2 & Hn3).
  destruct (wrapped_effects i func funcName st) as (Hs & Hk & _).
  pose proof (wrapped_length i func funcName st) as Hlen.
  split; [reflexivity|]. split; [exact Hlen|].
  split; [|split; [|split; [exact Hs|exact Hk]]].
  - eapply chain_wraps with (d := VBool true) (w := func).
    + rewrite get_ref_field by lia. now rewrite Hn1.
    + reflexivity.
    + rewrite get_ref_field by lia. now rewrite Hn2.
    + now apply chain_wrapped_to.
  - unfold tags. cbn [map]. rewrite Hn3. f_equal.
    apply map_ext_in. intros l Hl.
    apply wrapped_old; [|discriminate].
    pose proof (chain_members_valid _ _ _ _ Hc) as Hv.
    rewrite Forall_forall in Hv. apply Hv. now apply list_elem_of_In.
Qed.

(** X3.  Stacking.  When [DEBUG] is on and the chain of [func] holds no
    record tagged [i] yet, the decorator of kind [i] allocates exactly
    one object, the new record, and returns it; the chain of the new
    record is the new record followed by the chain of [func], ending at
    the same innermost value; its tags are the tag of [i] followed by
    the tags that were there.  Nothing is written to the sink and the
    clock is not read. *)
Theorem X3_wrap_stacks
    (i : instr) (fuel : nat) (func funcName : value) (st : state)
    (ls : list loc) (e : value) :
  truthy (DEBUG st) = true ->
  chain (heap st) func ls e ->
  tag_among (heap st) (VStr (tag_of i)) ls = false ->
  length ls < fuel ->
  exists st',
    decorator i fuel func funcName st = Done (VRef (length (heap st))) st' /\
    length (heap st') = S (length (heap st)) /\
    chain (heap st') (VRef (length (heap st))) (length (heap st) :: ls) e /\
    tags (heap st') (length (heap st) :: ls) =
      VStr (tag_of i) :: tags (heap st) ls /\
    _stream st' = _stream st /\ ticks st' = ticks st.
Proof. apply wrap_stacks. Qed.

Lemma X3_wrap_stacks_witness :
  (truthy (DEBUG st_traced) = true /\
   chain (heap st_traced) (VRef addr_traced) [addr_traced] (VRef addr_checked) /\
   tag_among (heap st_traced) (VStr (tag_of Time)) [addr_traced] = false /\
   length [addr_traced] < 5) /\
  exists st',
    decorator Time 5 (VRef addr_traced) VUndefined st_traced = Done (VRef 6) st' /\
    chain (heap st') (VRef 6) [6; addr_traced] (VRef addr_checked) /\
    tags (heap st') [6; addr_traced] = [VStr "time"; VStr "trace"].
Proof.
  split; [split; [reflexivity | split; [exact chain_traced | split; [reflexivity | simpl; lia]]] |].
  destruct (X3_wrap_stacks Time 5 (VRef addr_traced) VUndefined st_traced
              [addr_traced] (VRef addr_checked) eq_refl chain_traced eq_refl)
    as (st' & H1 & _ & H3 & H4 & _); [simpl; lia|].
  exists st'. split; [exact H1|]. split; [exact H3|].
  etransitivity; [exact H4 | reflexivity].
Defined.

(** ** More invariants of the records *)

Lemma rec_eq_links st st' : rec_eq st st' -> links_eq (heap st) (heap st').
Proof.
  intros (L & F & _). split; [exact L|]. intros l k Hk. apply F.
  unfold record_keys. apply in_or_app. now left.
Qed.

Lemma in_rec_decoratedFunc : In "decoratedFunc" record_keys.
Proof. simpl; auto 10. Qed.

Lemma in_rec_breakpointNum : In "breakpointNum" record_keys.
Proof. simpl; auto 10. Qed.

Lemma in_rec_tag : In "tag" record_keys.
Proof. simpl; auto 10. Qed.

Lemma rec_eq_inv b st st' : rec_eq st st' -> module_inv b st -> module_inv b st'.
Proof.
  intros Heq (Hc & Hf & (Hb0 & Hb1 & Hb2 & Hb3)).
  pose proof (rec_eq_links _ _ Heq) as Hl.
  pose proof (links_eq_sym _ _ Hl) as Hl'.
  destruct Heq as (L & F & B).
  assert (Hbp : forall l n, is_breakpoint (heap st') l n -> is_breakpoint (heap st) l n).
  { intros l n (H1 & H2 & H3). split; [eapply links_eq_is_decorator; eauto|].
    rewrite <- (F l "tag" in_rec_tag), <- (F l "breakpointNum" in_rec_breakpointNum).
    auto. }
  assert (Hbp' : forall l n, is_breakpoint (heap st) l n -> is_breakpoint (heap st') l n).
  { intros l n (H1 & H2 & H3). split; [eapply links_eq_is_decorator; eauto|].
    rewrite (F l "tag" in_rec_tag), (F l "breakpointNum" in_rec_breakpointNum).
    auto. }
  split; [eapply links_eq_inv; eauto|]. split; [|split; [|split; [|split]]].
  - intros l ls e Hch. rewrite (F l "decoratedFunc" in_rec_decoratedFunc).
    apply (Hf l ls e). eapply links_eq_chain; eauto.
  - congruence.
  - intros l Hd Ht. rewrite (F l "tag" in_rec_tag) in Ht.
    destruct (Hb1 l) as (n & Hn & Hr); [eapply links_eq_is_decorator; eauto|exact Ht|].
    exists n. rewrite (F l "breakpointNum" in_rec_breakpointNum), B. auto.
  - intros l l' n H1 H2. eapply Hb2; eauto.
  - intros n Hn. rewrite B in Hn. destruct (Hb3 n Hn) as [l Hbl]. eauto.
Qed.

Lemma keeps_fields_rec_eq st st' : keeps_fields st st' -> rec_eq st st'.
Proof.
  intros (L & F & _ & B & _). split; [exact L|]. split; [|exact B].
  intros l k Hk. unfold field.
  destruct (heap st !! l) as [o|] eqn:E.
  - destruct (F l o E) as (o' & E' & _ & G). rewrite E'. apply G.
    intros ->. simpl in Hk. intuition discriminate.
  - apply lookup_ge_None in E.
    rewrite (proj2 (lookup_ge_None (heap st') l)) by lia. reflexivity.
Qed.

Lemma obj_set_other_plain o key x o' :
  obj_set o key x = ROk o' ->
  forall k, plain k = true -> k <> key -> obj_get o' k = obj_get o k.
Proof.
  intros Hs k Hp Hne. unfold obj_set in Hs.
  destruct (o_kind o) as [|elems|n a c] eqn:Ek.
  - inversion Hs; subst. apply obj_get_set_ne. congruence.
  - assert (Harr : forall el, obj_get {| o_kind := KArray el; o_props := o_props o |} k
                              = obj_get o k).
    { intros el. rewrite !obj_get_plain by exact Hp. reflexivity. }
    destruct (String.eqb key "length").
    + destruct x; try discriminate.
      destruct (n <? 0)%Z; [discriminate|]. inversion Hs; subst. apply Harr.
    + destruct (key_index key).
      * inversion Hs; subst. apply Harr.
      * inversion Hs; subst. apply obj_get_set_ne. congruence.
  - destruct (String.eqb key "name"); [inversion Hs; subst; reflexivity|].
    destruct (String.eqb key "length"); [inversion Hs; subst; reflexivity|].
    inversion Hs; subst. apply obj_get_set_ne. congruence.
Qed.

Lemma record_keys_plain k : In k record_keys -> plain k = true.
Proof.
  simpl. intros [<-|[<-|[<-|[<-|[<-|[<-|[]]]]]]]; reflexivity.
Qed.

Lemma setP_rec_eq v k x : ~ In k record_keys -> frame rec_eq (setP v k x).
Proof.
  intros Hk st st' H. unfold setP in H.
  destruct (set (heap st) v k x) as [h'| | |] eqn:E; inversion H; subst;
    [|split; [reflexivity|split; [reflexivity|reflexivity]]].
  clear H. destruct v as [| | | | | |l]; simpl in E; try discriminate;
    try (inversion E; subst; split; [reflexivity|split; [reflexivity|reflexivity]]).
  destruct (heap st !! l) as [o|] eqn:El; [|discriminate].
  destruct (obj_set o k x) as [o'| | |] eqn:Eo; try discriminate.
  simpl in E. inversion E; subst h'. clear E.
  split; [simpl; apply length_insert|]. split; [|reflexivity].
  intros l0 k0 Hk0. simpl. unfold field.
  destruct (decide (l0 = l)) as [-> | Hne].
  - rewrite list_lookup_insert_eq by (eapply lookup_lt_Some; eauto). rewrite El.
    eapply obj_set_other_plain; eauto using record_keys_plain. intros ->. contradiction.
  - rewrite list_lookup_insert_ne by congruence. reflexivity.
Qed.

Lemma keeps_module_inv_refl b st : keeps_module_inv b st st.
Proof. intros H; exact H. Qed.

Lemma keeps_module_inv_trans z a b c :
  keeps_module_inv z a b -> keeps_module_inv z b c -> keeps_module_inv z a c.
Proof. unfold keeps_module_inv. auto. Qed.

Lemma rec_eq_keeps {A} b (c : M A) : frame rec_eq c -> frame (keeps_module_inv b) c.
Proof. intros H st st' Hf Hinv. eapply rec_eq_inv; [|exact Hinv]. apply (H _ _ Hf). Qed.

Lemma rec_eq_refl st : rec_eq st st.
Proof. split; [reflexivity|]. split; reflexivity. Qed.

Lemma getP_rec_eq v k : frame rec_eq (getP v k).
Proof.
  intros st st' H. unfold getP, lift in H.
  destruct (get (heap st) v k); inversion H; subst; apply rec_eq_refl.
Qed.

(** *** The new record *)

Lemma wrapped_new_more i func funcName st :
  field (heap (wrapped i func funcName st)) (length (heap st)) "decoratedFunc" =
    innermost (heap st) func /\
  (i = BreakBefore ->
   field (heap (wrapped i func funcName st)) (length (heap st)) "breakpointNum" =
     VNum (_breakpoints st + 1)) /\
  _breakpoints (wrapped i func funcName st) =
    match i with BreakBefore => (_breakpoints st + 1)%Z | _ => _breakpoints st end.
Proof.
  unfold wrapped, field. rewrite with_heap_heap.
  destruct i; simpl;
    rewrite !lookup_snoc by (now rewrite mark_wrapper_length);
    repeat split; try reflexivity; discriminate.
Qed.

Lemma innermost_chain h func ls e :
  flat h -> chain h func ls e -> innermost h func = e.
Proof.
  intros Hf Hc. pose proof Hc as Hc0.
  destruct Hc as [v d Hd Ht | l d w ls e Hd Ht Hw Hc].
  - unfold innermost. destruct v; try reflexivity.
    revert Hd. simpl. destruct (h !! l) as [o|]; [|discriminate].
    intros Hd. inversion Hd; subst. now rewrite Ht.
  - rewrite <- (Hf l ls e Hc0). unfold innermost, field.
    revert Hd. simpl. destruct (h !! l) as [o|]; [|discriminate].
    intros Hd. inversion Hd; subst. now rewrite Ht.
Qed.

Lemma wrapped_module_inv b i fuel func funcName st :
  module_inv b st ->
  _isDecoratedWithTag fuel (heap st) func (VStr (tag_of i)) = ROk false ->
  module_inv b (wrapped i func funcName st).
Proof.
  intros (Hc & Hf & (Hb0 & Hb1 & Hb2 & Hb3)) Ht.
  destruct (wrapped_new i func funcName st) as (Hn1 & Hn2 & Hn3).
  destruct (wrapped_new_more i func funcName st) as (Hm1 & Hm2 & Hm3).
  pose proof (wrapped_length i func funcName st) as Hlen.
  assert (Hold : forall l n, l < length (heap st) ->
            is_breakpoint (heap (wrapped i func funcName st)) l n ->
            is_breakpoint (heap st) l n).
  { intros l n Hl (H1 & H2 & H3).
    rewrite wrapped_old in H2, H3 by (auto; discriminate).
    split; [now apply (is_decorator_wrapped_old i func funcName st l Hl)|]. auto. }
  assert (Hnew : forall n, is_breakpoint (heap (wrapped i func funcName st))
                             (length (heap st)) n ->
                           i = BreakBefore /\ n = (_breakpoints st + 1)%Z).
  { intros n (_ & H2 & H3). rewrite Hn3 in H2.
    destruct i; try discriminate. split; [reflexivity|].
    rewrite (Hm2 eq_refl) in H3. congruence. }
  assert (Hkeep : forall l n, is_breakpoint (heap st) l n ->
            is_breakpoint (heap (wrapped i func funcName st)) l n).
  { intros l n (H1 & H2 & H3).
    pose proof H1 as (Hl & _)%is_decorator_ref.
    split; [now apply (is_decorator_wrapped_old i func funcName st l Hl)|].
    rewrite !wrapped_old by (auto; discriminate). auto. }
  split; [eapply wrapped_inv; eauto|]. split; [|split; [|split; [|split]]].
  - (* flat *)
    intros l ls e Hch.
    destruct (lt_eq_lt_dec l (length (heap st))) as [[Hl | ->] | Hl].
    + rewrite wrapped_old by (auto; discriminate).
      apply (Hf l ls e). eapply chain_wrapped_from; eauto.
    + rewrite Hm1.
      destruct (chain_wrapped_new i fuel func funcName st Hc Ht _ _ Hch)
        as (ls0 & Hls & Hc0).
      eapply innermost_chain; eauto.
    + exfalso. inversion Hch as [| l0 d0 w ls0 e0 Hd _ _ _].
      rewrite get_ref_invalid in Hd by lia. discriminate.
  - destruct i; rewrite Hm3; lia.
  - intros l Hd Htag.
    apply is_decorator_wrapped_cases in Hd as [-> | [Hl Hd]].
    + rewrite Hn3 in Htag. destruct i; try discriminate.
      exists (_breakpoints st + 1)%Z. rewrite (Hm2 eq_refl), Hm3. split; [reflexivity|lia].
    + rewrite wrapped_old in Htag by (auto; discriminate).
      destruct (Hb1 l Hd Htag) as (n & Hn & Hr).
      exists n. rewrite wrapped_old by (auto; discriminate).
      split; [exact Hn|]. destruct i; rewrite Hm3; lia.
  - intros l l' n H1 H2.
    pose proof H1 as (Hd1 & _). pose proof H2 as (Hd2 & _).
    apply is_decorator_wrapped_cases in Hd1 as [-> | [Hl1 Hd1]];
      apply is_decorator_wrapped_cases in Hd2 as [-> | [Hl2 Hd2]].
    + reflexivity.
    + exfalso. apply Hnew in H1 as [-> ->]. apply Hold in H2; [|exact Hl2].
      destruct H2 as (Hd & Htag & Hnum).
      destruct (Hb1 l' Hd Htag) as (n & Hn & Hr). rewrite Hnum in Hn.
      inversion Hn; subst. lia.
    + exfalso. apply Hnew in H2 as [-> ->]. apply Hold in H1; [|exact Hl1].
      destruct H1 as (Hd & Htag & Hnum).
      destruct (Hb1 l Hd Htag) as (n & Hn & Hr). rewrite Hnum in Hn.
      inversion Hn; subst. lia.
    + eapply Hb2; eauto.
  - intros n Hn. rewrite Hm3 in Hn.
    destruct (Z_le_gt_dec n (_breakpoints st)) as [Hle | Hgt].
    + destruct (Hb3 n ltac:(lia)) as [l Hbl]. exists l. now apply Hkeep.
    + destruct i; try lia.
      exists (length (heap st)). split; [|split].
      * apply (is_decorator_wrapped_new BreakBefore func funcName st).
      * exact Hn3.
      * rewrite (Hm2 eq_refl). f_equal. lia.
Qed.

Lemma decorator_keeps_module_inv b i fuel func funcName :
  frame (keeps_module_inv b) (decorator i fuel func funcName).
Proof.
  intros st st' Hf Hinv.
  apply decorator_final in Hf as [-> | [-> Ht]]; [exact Hinv|].
  eapply wrapped_module_inv; eauto.
Qed.

Lemma decorate_keeps_module_inv b name dec args :
  (forall func funcName, frame (keeps_module_inv b) (dec func funcName)) ->
  forall st st',
  final (_decorate name dec args st) = Some st' ->
  (forall k, attach_key (heap st) args = Some k -> ~ In k record_keys) ->
  keeps_module_inv b st st'.
Proof.
  intros Hdec st st' Hf Hk. unfold _decorate in Hf.
  assert (Hattach : forall scope ident key, ~ In key record_keys ->
            frame (keeps_module_inv b)
              (old <- getP scope key ;;
               new <- dec old ident ;;
               _ <- setP scope key new ;;
               getP scope key)).
  { intros scope ident key Hn.
    apply frame_bind; [exact (keeps_module_inv_trans b)|apply rec_eq_keeps, getP_rec_eq|].
    intros old.
    apply frame_bind; [exact (keeps_module_inv_trans b)|apply Hdec|]. intros new.
    apply frame_bind; [exact (keeps_module_inv_trans b)|
                       apply rec_eq_keeps, setP_rec_eq; exact Hn|]. intros _.
    apply rec_eq_keeps, getP_rec_eq. }
  destruct args as [|a0 [|a1 [|a2 rest]]]; simpl in Hf.
  - inversion Hf; subst. apply keeps_module_inv_refl.
  - simpl in Hk. destruct (is_function (heap st) a0).
    + eapply Hdec; eauto.
    + unfold bind at 1 in Hf. unfold lift at 1 in Hf.
      destruct (ToString a0) as [key| | |] eqn:Es; cbv beta iota in Hf; try discriminate.
      * eapply (Hattach (window st) a0 key); eauto. apply Hk. reflexivity.
      * inversion Hf; subst. apply keeps_module_inv_refl.
  - simpl in Hk. unfold bind at 1 in Hf. unfold lift at 1 in Hf.
    destruct (ToString a1) as [key| | |] eqn:Es; cbv beta iota in Hf; try discriminate.
    + eapply (Hattach a0 a1 key); eauto. apply Hk. reflexivity.
    + inversion Hf; subst. apply keeps_module_inv_refl.
  - inversion Hf; subst. apply keeps_module_inv_refl.
Qed.

Lemma run_step_keeps b st st' :
  run_step record_keys st st' -> keeps_module_inv b st st'.
Proof.
  intros H. destruct H as [i fuel func funcName st st' Hf
                          | i fuel args st st' Hf Hk
                          | v st
                          | fuel f this args st st' Hf].
  - eapply decorator_keeps_module_inv; eauto.
  - destruct i; simpl in Hf; unfold trace, time, breakBefore in Hf.
    + eapply decorate_keeps_module_inv; [|exact Hf|exact Hk].
      intros func funcName. apply (decorator_keeps_module_inv b Trace).
    + eapply decorate_keeps_module_inv; [|exact Hf|exact Hk].
      intros func funcName. apply (decorator_keeps_module_inv b Time).
    + eapply decorate_keeps_module_inv; [|exact Hf|exact Hk].
      intros func funcName. apply (decorator_keeps_module_inv b BreakBefore).
  - intros H; exact H.
  - intros Hinv. eapply rec_eq_inv; [|exact Hinv].
    apply keeps_fields_rec_eq. eapply call_keeps_fields; eauto.
Qed.

Lemma run_keeps b st st' : run record_keys st st' -> keeps_module_inv b st st'.
Proof.
  intros H. induction H as [st | st st' st'' _ IH Hs].
  - apply keeps_module_inv_refl.
  - eapply keeps_module_inv_trans; [exact IH|]. now apply run_step_keeps.
Qed.

Lemma initial_module_inv st :
  undecorated (heap st) -> module_inv (_breakpoints st) st.
Proof.
  intros Hu.
  assert (Hno : forall l, ~ is_decorator (heap st) (VRef l)).
  { intros l Hd. pose proof Hd as (Hl & _)%is_decorator_ref. eapply Hu; eauto. }
  split; [now apply undecorated_inv|]. split; [|split; [|split; [|split]]].
  - intros l ls e Hc. exfalso. apply (Hno l).
    inversion Hc as [| l0 d w ls0 e0 Hd Ht _ _]. exists d. auto.
  - lia.
  - intros l Hd. exfalso. eapply Hno; eauto.
  - intros l l' n (Hd & _). exfalso. eapply Hno; eauto.
  - intros n Hn. lia.
Qed.

Lemma reachable_module_inv st0 st :
  undecorated (heap st0) -> run record_keys st0 st -> module_inv (_breakpoints st0) st.
Proof.
  intros Hu Hs. eapply run_keeps; [exact Hs|]. now apply initial_module_inv.
Qed.

(** X4.  In every state reached from a heap without records,
    [decoratedFunc] of each record is the value at which its chain
    ends: the innermost, undecorated function, however many layers lie
    in between. *)
Theorem X4_decoratedFunc_is_innermost
    (st0 st : state) (l : loc) (ls : list loc) (e : value) :
  undecorated (heap st0) -> run record_keys st0 st ->
  chain (heap st) (VRef l) (l :: ls) e ->
  field (heap st) l "decoratedFunc" = e.
Proof.
  intros Hu Hs Hc.
  destruct (reachable_module_inv _ _ Hu Hs) as (_ & Hf & _). eapply Hf; eauto.
Qed.

Lemma run_fork keys : run keys st_demo st_fork.
Proof.
  eapply run_more; [eapply run_more; [eapply run_more;
    [apply run_refl|]|]|].
  - apply (run_wrap keys Trace 5 (VRef addr_checked) VUndefined st_demo st_fork1).
    reflexivity.
  - apply (run_wrap keys Time 5 (VRef 5) VUndefined st_fork1 st_fork2). reflexivity.
  - apply (run_wrap keys Time 5 (VRef 5) VUndefined st_fork2 st_fork). reflexivity.
Qed.

Lemma X4_decoratedFunc_is_innermost_witness :
  (undecorated (heap st_demo) /\ run record_keys st_demo st_fork /\
   chain (heap st_fork) (VRef 6) [6; 5] (VRef addr_checked)) /\
  field (heap st_fork) 6 "decoratedFunc" = VRef addr_checked.
Proof.
  split; [split; [exact undecorated_demo | split; [exact (run_fork record_keys) | exact chain_fork]] |].
  exact (X4_decoratedFunc_is_innermost st_demo st_fork 6 [5] (VRef addr_checked)
           undecorated_demo (run_fork record_keys) chain_fork).
Defined.



Lemma run_bp2 : run record_keys st_demo st_bp2.
Proof.
  eapply run_more; [eapply run_more; [apply run_refl|]|].
  - apply (run_wrap record_keys BreakBefore 5 (VRef addr_checked) VUndefined st_demo st_bp1).
    reflexivity.
  - apply (run_wrap record_keys BreakBefore 5 (VRef addr_print) VUndefined st_bp1 st_bp2).
    reflexivity.
Qed.


(** ** Normal returns *)

Lemma call_restores_objects
    (fuel : nat) (f this : value) (args : list value) (st st' : state) (r : value) :
  numeric_depths (heap st) ->
  call fuel f this args st = Done r st' ->
  same_objects st st'.
Proof.
  intros Hn H.
  pose proof (call_balanced fuel f this args st r st' Hn H) as [L D].
  assert (Hf : final (call fuel f this args st) = Some st') by (rewrite H; reflexivity).
  apply call_keeps_fields in Hf. destruct Hf as (_ & F & _).
  split; [exact L|]. intros l o Hl.
  destruct (D l o Hl) as (o1 & H1 & K1 & D1).
  destruct (F l o Hl) as (o2 & H2 & K2 & F2).
  assert (o2 = o1) by congruence. subst o2.
  exists o1. split; [exact H1|]. split; [exact K1|].
  intros k. destruct (String.eqb_spec k "recursionDepth") as [-> | Hk]; auto.
Qed.



(** ** Transparency of the time and breakpoint closures *)

Lemma sim_ret {A} (a : A) : sim (ret a) (ret a).
Proof. intros st st' H. now split. Qed.

Lemma sim_lift {A} (r : result A) : sim (lift r) (lift r).
Proof. intros st st' H. destruct r; simpl; auto. Qed.

Lemma sim_bind {A B} (c c' : M A) (k k' : A -> M B) :
  sim c c' -> (forall a, sim (k a) (k' a)) -> sim (bind c k) (bind c' k').
Proof.
  intros Hc Hk st st' H. unfold bind. specialize (Hc st st' H).
  destruct (c st) as [a s|e s| |], (c' st') as [a' s'|e' s'| |]; simpl in *;
    try contradiction; auto.
  destruct Hc as [<- Hh]. now apply Hk.
Qed.

Lemma sim_mapM {A B} (f : A -> M B) l :
  (forall a, sim (f a) (f a)) -> sim (mapM f l) (mapM f l).
Proof.
  intros Hf. induction l as [|a l IH]; simpl.
  - apply sim_ret.
  - apply sim_bind; [apply Hf|]. intros b.
    apply sim_bind; [apply IH|]. intros bs. apply sim_ret.
Qed.

Lemma sim_getP o k : sim (getP o k) (getP o k).
Proof.
  intros st st' H. unfold getP. rewrite <- H.
  destruct (get (heap st) o k); simpl; auto.
Qed.

Lemma sim_setP o k x : sim (setP o k x) (setP o k x).
Proof.
  intros st st' H. unfold setP. rewrite <- H.
  destruct (set (heap st) o k x); simpl; auto.
Qed.

Lemma sim_prettyPrintM fuel o : sim (prettyPrintM fuel o) (prettyPrintM fuel o).
Proof.
  intros st st' H. unfold prettyPrintM. rewrite <- H.
  destruct (_prettyPrint fuel (heap st) o); simpl; auto.
Qed.

(** The reading of the clock is not part of what is compared. *)
Lemma sim_time {B} (k k' : Z -> M B) :
  (forall t t', sim (k t) (k' t')) ->
  sim (bind get_monotonic_time k) (bind get_monotonic_time k').
Proof. intros Hk st st' H. unfold bind. simpl. now apply Hk. Qed.

Lemma sim_time_left {B} (k : Z -> M B) (c' : M B) :
  (forall t, sim (k t) c') -> sim (bind get_monotonic_time k) c'.
Proof. intros Hk st st' H. unfold bind. simpl. now apply Hk. Qed.

Lemma sim_breakpoint : sim breakpoint breakpoint.
Proof. intros st st' H. now split. Qed.

(** Two [write]s end alike when their tokens are converted alike. *)
Lemma sim_write args args' :
  (forall strs, rmapM join_token args = ROk strs ->
                exists strs', rmapM join_token args' = ROk strs') ->
  ((exists strs, rmapM join_token args = ROk strs) \/
   rmapM join_token args' = rmapM join_token args) ->
  sim (write args) (write args').
Proof.
  intros H1 H2 st st' H. unfold write, bind, lift.
  destruct (rmapM join_token args) as [strs|e| |] eqn:E.
  - destruct (H1 strs eq_refl) as (strs' & ->). simpl. now split.
  - destruct H2 as [[? K] | ->]; [discriminate|]. simpl. now split.
  - destruct H2 as [[? K] | ->]; [discriminate|]. exact I.
  - destruct H2 as [[? K] | ->]; [discriminate|]. exact I.
Qed.

Lemma sim_write_same args : sim (write args) (write args).
Proof. apply sim_write; eauto. Qed.


Lemma sim_preinc o k : sim (preinc o k) (preinc o k).
Proof.
  unfold preinc. apply sim_bind; [apply sim_getP|]. intros old.
  apply sim_bind; [apply sim_lift|]. intros n.
  apply sim_bind; [apply sim_setP|]. intros _. apply sim_ret.
Qed.

Lemma sim_postdec o k : sim (postdec o k) (postdec o k).
Proof.
  unfold postdec. apply sim_bind; [apply sim_getP|]. intros old.
  apply sim_bind; [apply sim_lift|]. intros n.
  apply sim_bind; [apply sim_setP|]. intros _. apply sim_ret.
Qed.




Section SimApply.
Variable apply : value -> value -> list value -> M value.
Hypothesis apply_sim : forall f this args, sim (apply f this args) (apply f this args).

Lemma sim_exec_prog p : sim (exec_prog apply p) (exec_prog apply p).
Proof.
  induction p as [x|x|o key k IH|f this args k IH]; intros st st' H; simpl.
  - now split.
  - now split.
  - pose proof (sim_getP o key st st' H) as Hg.
    destruct (getP o key st) as [x s1|e s1| |],
             (getP o key st') as [x' s1'|e' s1'| |]; simpl in *;
      try contradiction; auto.
    destruct Hg as [<- Hh]. now apply IH.
  - pose proof (apply_sim f this args st st' H) as Hg.
    destruct (apply f this args st) as [x s1|e s1| |],
             (apply f this args st') as [x' s1'|e' s1'| |]; simpl in *;
      try contradiction; auto.
    destruct Hg as [<- Hh]. now apply IH.
Qed.

Lemma sim_trace_shim fuel callee func funcName this args :
  sim (trace_shim apply fuel callee func funcName this args)
      (trace_shim apply fuel callee func funcName this args).
Proof.
  unfold trace_shim.
  apply sim_bind; [apply sim_preinc|]. intros depth.
  apply sim_bind; [apply sim_lift|]. intros name.
  apply sim_bind; [apply sim_mapM; intros; apply sim_prettyPrintM|].
  intros strs. apply sim_bind.
  { destruct (gt1 depth); [|apply sim_ret].
    apply sim_bind; [apply sim_lift|]. intros d. apply sim_ret. }
  intros traceString.
  apply sim_bind; [apply sim_write_same|]. intros _.
  apply sim_bind; [apply apply_sim|]. intros retval.
  apply sim_bind; [apply sim_prettyPrintM|]. intros s.
  apply sim_bind; [apply sim_write_same|]. intros _.
  apply sim_bind; [apply sim_postdec|]. intros _. apply sim_ret.
Qed.

Lemma sim_time_tokens funcName t t' :
  sim (write [funcName; VStr "executed in"; VNum t; VStr "microseconds"])
      (write [funcName; VStr "executed in"; VNum t'; VStr "microseconds"]).
Proof.
  apply sim_write; simpl; destruct (join_token funcName); simpl; eauto.
Qed.

Lemma sim_time_shim func funcName this args :
  sim (time_shim apply func funcName this args)
      (time_shim apply func funcName this args).
Proof.
  unfold time_shim.
  apply sim_time. intros timer timer'.
  apply sim_bind; [apply apply_sim|]. intros retval.
  apply sim_time. intros now now'.
  apply sim_bind; [apply sim_time_tokens|]. intros _. apply sim_ret.
Qed.

Lemma sim_break_shim callee func this args :
  sim (break_shim apply callee func this args)
      (break_shim apply callee func this args).
Proof.
  unfold break_shim.
  apply sim_bind; [apply sim_getP|]. intros num.
  apply sim_bind; [apply sim_write_same|]. intros _.
  apply sim_bind; [apply sim_breakpoint|]. intros _. apply apply_sim.
Qed.

(** The closure of [_timeDecorator] against the function it wraps. *)
Lemma time_shim_transparent func funcName this args s :
  join_token funcName = ROk s ->
  sim (time_shim apply func funcName this args) (apply func this args).
Proof.
  intros Hs. unfold time_shim.
  apply sim_time_left. intros timer.
  intros st st' H. unfold bind.
  pose proof (apply_sim func this args st st' H) as Ha.
  destruct (apply func this args st) as [r s1|e s1| |],
           (apply func this args st') as [r' s1'|e' s1'| |]; simpl in *;
    try contradiction; auto.
  destruct Ha as [<- Hh].
  unfold write, bind, lift. simpl. rewrite Hs. simpl. split; [reflexivity | exact Hh].
Qed.

(** The closure of [_breakBeforeDecorator] against the function it
    wraps. *)
Lemma break_shim_transparent callee func this args st st' o s :
  heap st = heap st' ->
  get (heap st) callee "breakpointNum" = ROk o -> join_token o = ROk s ->
  agree (break_shim apply callee func this args st) (apply func this args st').
Proof.
  intros H Hg Hs. unfold break_shim, bind, getP. rewrite Hg. simpl.
  unfold write, bind, lift. simpl. rewrite Hs. simpl.
  apply apply_sim. exact H.
Qed.
End SimApply.

(** A call ends alike on the same heap, whatever the sink, the clock
    and the counters of the module are. *)
Lemma sim_call fuel : forall f this args, sim (call fuel f this args) (call fuel f this args).
Proof.
  induction fuel as [|fuel IH]; intros f this args st st' H.
  - exact I.
  - cbn [call]. destruct f; try (now split).
    rewrite <- H.
    destruct (heap st !! l) as [o|]; [|exact I].
    destruct (o_kind o) as [| |n a c]; try (now split).
    destruct c.
    + now apply sim_exec_prog.
    + now apply sim_trace_shim.
    + now apply sim_time_shim.
    + now apply sim_break_shim.
Qed.



(** ** The line of the time closure *)

(** X8.  The closure of [_timeDecorator].  When the wrapped function
    returns [r], the closure returns [r] too and appends one line after
    whatever the function logged: the name, then [executed in], the
    difference of the clock readings taken around the call, and
    [microseconds].  With a clock that never runs backwards the
    difference is not negative. *)
Theorem X8_time_closure_line
    (fuel : nat) (l : loc) (o : object) (n : string) (a : nat)
    (func funcName this : value) (args : list value) (name : string)
    (st st1 : state) (r : value) :
  heap st !! l = Some o ->
  o_kind o = KFunction n a (CTimeShim func funcName) ->
  join_token funcName = ROk name ->
  monotone (clock st) ->
  call fuel func this args (after get_monotonic_time st) = Done r st1 ->
  let us := (clock st (ticks st1) - clock st (ticks st))%Z in
  exists st2,
    call (S fuel) (VRef l) this args st = Done r st2 /\
    (0 <= us)%Z /\
    _stream st2 =
      _stream st1 ++
      [format_elapsed (clock st (S (ticks st1)) - _startTime st) +:+
       name +:+ " executed in " +:+ Z_to_string us +:+ " microseconds" +:+ chr 10] /\
    heap st2 = heap st1 /\ ticks st2 = S (S (ticks st1)) /\ traps st2 = traps st1.
Proof.
  intros Hl Hk Hs Hm Hc us.
  assert (Hf : final (call fuel func this args (after get_monotonic_time st)) = Some st1)
    by (rewrite Hc; reflexivity).
  pose proof (call_keeps_fields fuel func this args _ _ Hf)
    as (_ & _ & _ & _ & Hst & _ & Hck).
  pose proof (call_moves_forward fuel func this args _ _ Hf) as (_ & Ht & _).
  change (clock (after get_monotonic_time st)) with (clock st) in Hck.
  change (_startTime (after get_monotonic_time st)) with (_startTime st) in Hst.
  change (ticks (after get_monotonic_time st)) with (S (ticks st)) in Ht.
  eexists. split; [|split; [|split; [|split; [|split]]]].
  - cbn [call]. rewrite Hl, Hk. unfold time_shim, bind at 1.
    change (get_monotonic_time st) with
      (Done (clock st (ticks st)) (after get_monotonic_time st)).
    cbv beta iota. unfold bind at 1. rewrite Hc. cbv beta iota.
    unfold bind at 1. cbn [get_monotonic_time].
    unfold bind at 1. unfold write, bind, lift. cbn [rmapM rbind join_token ToString].
    rewrite Hs. cbn [rbind]. unfold ret. reflexivity.
  - unfold us. apply Z.le_0_sub. apply Hm. lia.
  - cbn [_stream _startTime clock ticks]. rewrite ?Hck, ?Hst. cbn [String.concat].
    rewrite !string_app_assoc. reflexivity.
  - reflexivity.
  - reflexivity.
  - reflexivity.
Qed.

Lemma monotone_demo : monotone (fun n => (1500000 * Z.of_nat (S n))%Z).
Proof. intros i j H. lia. Qed.

Lemma X8_time_closure_line_witness :
  exists o st1,
    (heap st_fork !! 6 = Some o /\
     o_kind o = KFunction EmptyString 0 (CTimeShim (VRef 5) (VStr "anonymous function")) /\
     join_token (VStr "anonymous function") = ROk "anonymous function" /\
     monotone (clock st_fork) /\
     call 5 (VRef 5) (VRef addr_obj) [VNum 3] (after get_monotonic_time st_fork) =
       Done (VNum 3) st1) /\
    exists st2,
      call 6 (VRef 6) (VRef addr_obj) [VNum 3] st_fork = Done (VNum 3) st2 /\
      (0 <= clock st_fork (ticks st1) - clock st_fork (ticks st_fork))%Z /\
      _stream st2 =
        [" 3.0s Entering checked(3)" +:+ chr 10;
         " 4.5s Leaving checked(3) -> 3" +:+ chr 10;
         " 7.5s anonymous function executed in 4500000 microseconds" +:+ chr 10].
Proof.
  assert (H1 : exists o, heap st_fork !! 6 = Some o /\
     o_kind o = KFunction EmptyString 0 (CTimeShim (VRef 5) (VStr "anonymous function")))
    by (eexists; split; vm_compute; reflexivity).
  destruct H1 as (o & Hl & Hk).
  assert (H2 : exists st1,
     call 5 (VRef 5) (VRef addr_obj) [VNum 3] (after get_monotonic_time st_fork) =
       Done (VNum 3) st1 /\
     _stream st1 = [" 3.0s Entering checked(3)" +:+ chr 10;
                    " 4.5s Leaving checked(3) -> 3" +:+ chr 10] /\
     ticks st1 = 3)
    by (eexists; split; [vm_compute; reflexivity | split; reflexivity]).
  destruct H2 as (st1 & Hc & Hs1 & Ht1).
  exists o, st1.
  split; [split; [exact Hl | split; [exact Hk | split; [reflexivity |
          split; [exact monotone_demo | exact Hc]]]] |].
  destruct (X8_time_closure_line 5 6 o EmptyString 0 (VRef 5) (VStr "anonymous function")
              (VRef addr_obj) [VNum 3] "anonymous function" st_fork st1 (VNum 3)
              Hl Hk eq_refl monotone_demo Hc) as (st2 & E1 & E2 & E3 & _).
  exists st2. split; [exact E1 | split; [exact E2 |]].
  rewrite E3, Hs1, Ht1. reflexivity.
Defined.

(** ** Stack texts *)

Lemma string_app_empty_r (s : string) : s +:+ EmptyString = s.
Proof.
  induction s as [|x s IH]; [reflexivity|].
  change (String x s +:+ EmptyString) with (String x (s +:+ EmptyString)).
  now rewrite IH.
Qed.

Lemma string_app_cons (x : ascii) (a b : string) :
  String x a +:+ b = String x (a +:+ b).
Proof. reflexivity. Qed.

Lemma string_app_char (x : ascii) (s : string) :
  String x EmptyString +:+ s = String x s.
Proof. reflexivity. Qed.

Lemma string_snoc_app (acc : string) (x : ascii) (s : string) :
  (acc +:+ String x EmptyString) +:+ s = acc +:+ String x s.
Proof. now rewrite string_app_assoc. Qed.

(** Splitting a text in which the separator does not occur. *)
Lemma split_aux_none sep s : forall acc,
  has_char sep s = false -> split_aux sep acc s = [acc +:+ s].
Proof.
  induction s as [|x s IH]; intros acc H; simpl in *.
  - now rewrite string_app_empty_r.
  - apply orb_false_elim in H as [Hx Hs]. rewrite Hx.
    rewrite IH by exact Hs. now rewrite string_snoc_app.
Qed.

(** Splitting at the first separator. *)
Lemma split_aux_app sep a : forall acc b,
  has_char sep a = false ->
  split_aux sep acc (a +:+ String sep b) = (acc +:+ a) :: split_aux sep EmptyString b.
Proof.
  induction a as [|x a IH]; intros acc b H.
  - change (EmptyString +:+ String sep b) with (String sep b).
    simpl. rewrite Ascii.eqb_refl. now rewrite string_app_empty_r.
  - simpl in H. apply orb_false_elim in H as [Hx Ha].
    rewrite string_app_cons. simpl. rewrite Hx.
    rewrite IH by exact Ha. now rewrite string_snoc_app.
Qed.

Lemma split_none sep s : has_char sep s = false -> split sep s = [s].
Proof. intros H. unfold split. now rewrite split_aux_none. Qed.

Lemma split_app sep a b :
  has_char sep a = false -> split sep (a +:+ String sep b) = a :: split sep b.
Proof. intros H. unfold split. now rewrite split_aux_app. Qed.

(** The first piece is the text before the first separator. *)
Lemma split_aux_head sep s : forall acc,
  exists rest, split_aux sep acc s = (acc +:+ before sep s) :: rest.
Proof.
  induction s as [|x s IH]; intros acc; simpl.
  - exists []. now rewrite string_app_empty_r.
  - destruct (Ascii.eqb x sep).
    + eexists. now rewrite string_app_empty_r.
    + destruct (IH (acc +:+ String x EmptyString)) as [rest ->].
      exists rest. now rewrite string_snoc_app.
Qed.

Lemma split_head sep s : exists rest, split sep s = before sep s :: rest.
Proof. apply (split_aux_head sep s EmptyString). Qed.

Lemma before_app c a b :
  has_char c a = false -> before c (a +:+ b) = a +:+ before c b.
Proof.
  induction a as [|x a IH]; intros H; [reflexivity|].
  simpl in H. apply orb_false_elim in H as [Hx Ha].
  rewrite !string_app_cons. simpl. rewrite Hx. now rewrite IH.
Qed.

Lemma before_cons_other c x s :
  Ascii.eqb x c = false -> before c (String x s) = String x (before c s).
Proof. intros H. simpl. now rewrite H. Qed.

Lemma split_unlines frames :
  Forall (fun f => has_char (ascii_of_nat 10) f = false) frames ->
  split (ascii_of_nat 10) (unlines frames) = frames ++ [EmptyString].
Proof.
  induction 1 as [|f fs Hf _ IH]; [reflexivity|].
  unfold unlines in *. cbn [map].
  assert (E : forall rest, String.concat EmptyString ((f +:+ chr 10) :: rest) =
                           f +:+ String (ascii_of_nat 10) (String.concat EmptyString rest)).
  { intros rest. destruct rest as [|r rest].
    - cbn [String.concat]. reflexivity.
    - cbn [String.concat]. change (EmptyString +:+ ?x) with x.
      now rewrite string_app_assoc. }
  rewrite E. rewrite split_app by exact Hf. now rewrite IH.
Qed.

Lemma getCurrentStack_unlines (own : string) (frames : list string) :
  Forall (fun f => has_char (ascii_of_nat 10) f = false) (own :: frames) ->
  _getCurrentStack (unlines (own :: frames)) = frames.
Proof.
  intros H. unfold _getCurrentStack. cbv zeta.
  rewrite split_unlines by exact H.
  rewrite removelast_last. reflexivity.
Qed.

(** X9.  [_getCurrentStack] returns the frames of its callers: of a
    stack printed one frame per line, each line ended by a newline, it
    drops the first frame (its own) and the empty piece after the last
    newline, and returns the others in order. *)
Theorem X9_getCurrentStack_frames (own : string) (frames : list string) :
  Forall (fun f => has_char (ascii_of_nat 10) f = false) (own :: frames) ->
  _getCurrentStack (unlines (own :: frames)) = frames.
Proof. apply getCurrentStack_unlines. Qed.

Lemma X9_getCurrentStack_frames_witness :
  Forall (fun f => has_char (ascii_of_nat 10) f = false)
         ["_getCurrentStack@q.js:34:13"; "q@q.js:268:30"; "@example.js:5:1"] /\
  _getCurrentStack stack_demo = ["q@q.js:268:30"; "@example.js:5:1"].
Proof.
  assert (H : Forall (fun f => has_char (ascii_of_nat 10) f = false)
         ["_getCurrentStack@q.js:34:13"; "q@q.js:268:30"; "@example.js:5:1"])
    by (repeat constructor).
  split; [exact H|].
  exact (X9_getCurrentStack_frames _ _ H).
Defined.

Lemma interpretStackFrame_text (name file line col : string) :
  has_char "@" name = false ->
  has_char "@" file = false -> has_char ":" file = false ->
  has_char "@" line = false -> has_char ":" line = false ->
  _interpretStackFrame (VStr (frame_text name file line col)) =
    ROk (VStr (if String.eqb name EmptyString then "anonymous function" else name),
         VStr file, VStr line).
Proof.
  intros Hn Hf1 Hf2 Hl1 Hl2. unfold _interpretStackFrame, frame_text.
  rewrite !string_app_char.
  rewrite split_app by exact Hn.
  destruct (split_head "@" (file +:+ String ":" (line +:+ String ":" col))) as [rest ->].
  rewrite before_app by exact Hf1.
  rewrite before_cons_other by reflexivity.
  rewrite before_app by exact Hl1.
  rewrite before_cons_other by reflexivity.
  unfold nth_str at 1 2. cbn [lookup list_lookup]. cbv beta iota.
  rewrite split_app by exact Hf2. rewrite split_app by exact Hl2.
  unfold nth_str. cbn [lookup list_lookup].
  unfold strict_eq.
  destruct (String.eqb_spec name EmptyString) as [-> | Hne].
  - reflexivity.
  - rewrite bool_decide_eq_false_2; [reflexivity|]. congruence.
Qed.

(** X10.  [_interpretStackFrame] takes a frame [name@file:line:column]
    apart, provided that neither [@] nor [:] occurs in the file name and
    the line and [@] does not occur in the function name: it returns
    the function name, or [anonymous function] for the empty name, the
    file and the line, and drops the column. *)
Theorem X10_interpretStackFrame_parts (name file line col : string) :
  has_char "@" name = false ->
  has_char "@" file = false -> has_char ":" file = false ->
  has_char "@" line = false -> has_char ":" line = false ->
  _interpretStackFrame (VStr (frame_text name file line col)) =
    ROk (VStr (if String.eqb name EmptyString then "anonymous function" else name),
         VStr file, VStr line).
Proof. apply interpretStackFrame_text. Qed.

Lemma X10_interpretStackFrame_parts_witness :
  (has_char "@" "myMethod" = false /\
   has_char "@" "example.js" = false /\ has_char ":" "example.js" = false /\
   has_char "@" "12" = false /\ has_char ":" "12" = false) /\
  _interpretStackFrame (VStr "myMethod@example.js:12:9") =
    ROk (VStr "myMethod", VStr "example.js", VStr "12").
Proof.
  split; [repeat split |].
  exact (X10_interpretStackFrame_parts "myMethod" "example.js" "12" "9"
           eq_refl eq_refl eq_refl eq_refl eq_refl).
Defined.

(** ** The line of the immediate inspector *)



(** ** Attaching to a member *)

(** The assignment form of [_decorate], on a member with a plain key. *)
Lemma decorate_member name dec args s ident key st o new st1 o1 :
  targets st args s ident ->
  heap st !! s = Some o -> ToString ident = ROk key -> plain key = true ->
  dec (obj_get o key) ident st = Done new st1 ->
  heap st1 !! s = Some o1 ->
  _decorate name dec args st =
    Done new (with_heap st1 (<[s := with_props o1 (props_set (o_props o1) key new)]>
                               (heap st1))).
Proof.
  intros Ht Hs Hk Hp Hd Hs1.
  assert (E : (key <- lift (ToString ident) ;;
               old <- getP (VRef s) key ;;
               new <- dec old ident ;;
               _ <- setP (VRef s) key new ;;
               getP (VRef s) key) st =
              Done new (with_heap st1
                 (<[s := with_props o1 (props_set (o_props o1) key new)]> (heap st1)))).
  { unfold bind at 1. rewrite Hk. cbn [lift].
    unfold bind at 1. unfold getP at 1. rewrite (get_ref _ _ _ _ Hs). cbn [lift].
    unfold bind at 1. rewrite Hd.
    unfold bind at 1. unfold setP. rewrite (set_plain _ _ _ _ _ Hs1 Hp).
    unfold getP. rewrite with_heap_heap.
    erewrite get_ref.
    2:{ apply list_lookup_insert_eq. eapply lookup_lt_Some; eauto. }
    rewrite obj_get_set_eq by exact Hp. reflexivity. }
  unfold _decorate. destruct Ht as [-> | (-> & Hw & Hf)]; cbn [length Nat.ltb Nat.leb orb].
  - exact E.
  - rewrite Hf, Hw. exact E.
Qed.

(** The errors of the decorator reach the caller of the attacher, from
    the state in which they arose. *)
Lemma decorate_member_raises name dec args s ident key st o e st1 :
  targets st args s ident ->
  heap st !! s = Some o -> ToString ident = ROk key ->
  dec (obj_get o key) ident st = Raise e st1 ->
  _decorate name dec args st = Raise e st1.
Proof.
  intros Ht Hs Hk Hd.
  assert (E : (key <- lift (ToString ident) ;;
               old <- getP (VRef s) key ;;
               new <- dec old ident ;;
               _ <- setP (VRef s) key new ;;
               getP (VRef s) key) st = Raise e st1).
  { unfold bind at 1. rewrite Hk. cbn [lift].
    unfold bind at 1. unfold getP at 1. rewrite (get_ref _ _ _ _ Hs). cbn [lift].
    unfold bind at 1. rewrite Hd. reflexivity. }
  unfold _decorate. destruct Ht as [-> | (-> & Hw & Hf)]; cbn [length Nat.ltb Nat.leb orb].
  - exact E.
  - rewrite Hf, Hw. exact E.
Qed.

Lemma attacher_decorate i fuel args :
  attacher i fuel args = _decorate (tag_of i) (decorator i fuel) args.
Proof. destruct i; reflexivity. Qed.



(** X14.  With [DEBUG] on, attaching to a member that is missing (or
    holds [undefined] or [null]) raises a [TypeError], from reading
    [isDecorator] of the value, and leaves the state as it was. *)
Theorem X14_attach_missing_raises
    (i : instr) (fuel : nat) (args : list value) (s : loc) (o : object)
    (ident : value) (key : string) (st : state) :
  truthy (DEBUG st) = true ->
  targets st args s ident ->
  heap st !! s = Some o -> ToString ident = ROk key ->
  obj_get o key = VUndefined \/ obj_get o key = VNull ->
  0 < fuel ->
  attacher i fuel args st = Raise (TypeError "value is undefined or null") st.
Proof.
  intros HD Ht Hs Hk Hv Hf.
  rewrite attacher_decorate. eapply decorate_member_raises; eauto.
  rewrite decorator_enabled by exact HD.
  destruct fuel as [|fuel]; [lia|].
  destruct Hv as [-> | ->]; reflexivity.
Qed.



Lemma X14_attach_missing_raises_witness :
  exists o,
    (truthy (DEBUG st_demo) = true /\
     targets st_demo [VRef addr_obj; VStr "typo"] addr_obj (VStr "typo") /\
     heap st_demo !! addr_obj = Some o /\
     ToString (VStr "typo") = ROk "typo" /\
     (obj_get o "typo" = VUndefined \/ obj_get o "typo" = VNull) /\
     0 < 5) /\
    attacher BreakBefore 5 [VRef addr_obj; VStr "typo"] st_demo =
      Raise (TypeError "value is undefined or null") st_demo.
Proof.
  eexists. split.
  - split; [reflexivity|]. split; [left; reflexivity|]. split; [reflexivity|].
    split; [reflexivity|]. split; [left; reflexivity | lia].
  - exact (X14_attach_missing_raises BreakBefore 5 [VRef addr_obj; VStr "typo"] addr_obj _
             (VStr "typo") "typo" st_demo eq_refl (or_introl eq_refl) eq_refl eq_refl
             (or_introl eq_refl) ltac:(lia)).
Defined.

(** ** The lines of the trace closure *)

Lemma preinc_depth l o z st :
  heap st !! l = Some o -> obj_get o "recursionDepth" = VNum z ->
  preinc (VRef l) "recursionDepth" st =
    Done (VNum (z + 1))
         (with_heap st (<[l := with_props o (props_set (o_props o) "recursionDepth"
                                                (VNum (z + 1)))]> (heap st))).
Proof.
  intros Hl Hz. unfold preinc.
  unfold bind at 1. unfold getP. rewrite (get_ref _ _ _ _ Hl), Hz. cbn [lift ToNumber].
  unfold bind at 1. cbn [lift]. unfold bind at 1. unfold setP.
  rewrite (set_plain _ _ _ "recursionDepth" _ Hl eq_refl). reflexivity.
Qed.

Lemma postdec_depth l o z st :
  heap st !! l = Some o -> obj_get o "recursionDepth" = VNum z ->
  postdec (VRef l) "recursionDepth" st =
    Done (VNum z)
         (with_heap st (<[l := with_props o (props_set (o_props o) "recursionDepth"
                                                (VNum (z + -1)))]> (heap st))).
Proof.
  intros Hl Hz. unfold postdec.
  unfold bind at 1. unfold getP. rewrite (get_ref _ _ _ _ Hl), Hz. cbn [lift ToNumber].
  unfold bind at 1. cbn [lift]. unfold bind at 1. unfold setP.
  rewrite (set_plain _ _ _ "recursionDepth" _ Hl eq_refl). reflexivity.
Qed.

(** Pretty-printing the arguments, one after the other, on one heap. *)
Lemma mapM_prettyPrintM fuel args st :
  mapM (prettyPrintM fuel) args st =
    lift (rmapM (_prettyPrint fuel (heap st)) args) st.
Proof.
  induction args as [|a args IH]; [reflexivity|].
  cbn [mapM rmapM]. unfold bind at 1. unfold prettyPrintM at 1.
  destruct (_prettyPrint fuel (heap st) a) as [s|e| |]; cbn [lift rbind]; try reflexivity.
  unfold bind at 1. rewrite IH.
  destruct (rmapM (_prettyPrint fuel (heap st)) args); reflexivity.
Qed.

Lemma numeric_depths_insert h l o z :
  h !! l = Some o -> numeric_depths h ->
  numeric_depths (<[l := with_props o (props_set (o_props o) "recursionDepth" (VNum z))]> h).
Proof.
  intros Hl Hn l0 o0 n0 a0 f0 nm0 Hl0 Hk0.
  assert (Hlt : l < length h) by (eapply lookup_lt_Some; eauto).
  destruct (decide (l0 = l)) as [-> | Hne].
  - rewrite list_lookup_insert_eq in Hl0 by exact Hlt. inversion Hl0; subst o0.
    exists z. now apply obj_get_set_eq.
  - rewrite list_lookup_insert_ne in Hl0 by congruence. eapply Hn; eauto.
Qed.




Lemma rmapM_app_err {A B} (f : A -> result B) pre v post bs e :
  rmapM f pre = ROk bs -> f v = RErr e -> rmapM f (pre ++ v :: post) = RErr e.
Proof.
  revert bs. induction pre as [|x pre IH]; intros bs Hpre Hv.
  - cbn [app rmapM]. now rewrite Hv.
  - cbn [app rmapM] in *. destruct (f x) as [b| | |]; try discriminate.
    cbn [rbind] in *. destruct (rmapM f pre) as [bs'| | |]; try discriminate.
    now rewrite (IH bs' eq_refl Hv).
Qed.

(** X16.  A traced function is not run when one of its arguments has
    no pretty-printed form ([undefined], [null], a function, a cyclic
    object): the error of [_prettyPrint] leaves the closure before the
    line [Entering] is written and before the call, and the counter,
    already raised, stays raised. *)
Theorem X16_trace_unprintable_argument
    (fuel : nat) (l : loc) (o : object) (n : string) (a : nat)
    (func funcName this : value) (pre post : list value) (v : value) (name : string)
    (strs : list string) (z : Z) (st : state) (e : exn) :
  heap st !! l = Some o ->
  o_kind o = KFunction n a (CTraceShim func funcName) ->
  obj_get o "recursionDepth" = VNum z ->
  ToString funcName = ROk name ->
  rmapM (_prettyPrint fuel (heap (after (preinc (VRef l) "recursionDepth") st))) pre =
    ROk strs ->
  _prettyPrint fuel (heap (after (preinc (VRef l) "recursionDepth") st)) v = RErr e ->
  exists st',
    call (S fuel) (VRef l) this (pre ++ v :: post) st = Raise e st' /\
    _stream st' = _stream st /\ ticks st' = ticks st /\ traps st' = traps st /\
    field (heap st') l "recursionDepth" = VNum (z + 1).
Proof.
  intros Hl Hk Hz Hname Hpre Hv.
  pose proof (preinc_depth l o z st Hl Hz) as Hinc.
  assert (E0 : after (preinc (VRef l) "recursionDepth") st =
               with_heap st (<[l := with_props o (props_set (o_props o) "recursionDepth"
                                                     (VNum (z + 1)))]> (heap st))).
  { unfold after. now rewrite Hinc. }
  rewrite E0 in Hpre, Hv.
  eexists. split; [|split; [|split; [|split]]].
  - cbn [call]. rewrite Hl, Hk. unfold trace_shim.
    unfold bind at 1. rewrite Hinc.
    unfold bind at 1. rewrite Hname. cbn [lift].
    unfold bind at 1. rewrite mapM_prettyPrintM.
    rewrite (rmapM_app_err _ _ _ post _ _ Hpre Hv). reflexivity.
  - reflexivity.
  - reflexivity.
  - reflexivity.
  - unfold field. rewrite with_heap_heap.
    rewrite list_lookup_insert_eq by (eapply lookup_lt_Some; eauto).
    now apply obj_get_set_eq.
Qed.

Lemma X16_trace_unprintable_argument_witness :
  exists o,
    (heap st_traced !! addr_traced = Some o /\
     o_kind o = KFunction EmptyString 0 (CTraceShim (VRef addr_checked) (VStr "checked")) /\
     obj_get o "recursionDepth" = VNum 0 /\
     ToString (VStr "checked") = ROk "checked" /\
     rmapM (_prettyPrint 4
              (heap (after (preinc (VRef addr_traced) "recursionDepth") st_traced)))
           [VNum 3] = ROk ["3"] /\
     _prettyPrint 4 (heap (after (preinc (VRef addr_traced) "recursionDepth") st_traced))
       VUndefined = RErr (TypeError "retval is undefined")) /\
    exists st',
      call 5 (VRef addr_traced) (VRef addr_obj) ([VNum 3] ++ VUndefined :: []) st_traced =
        Raise (TypeError "retval is undefined") st' /\
      _stream st' = _stream st_traced /\
      field (heap st') addr_traced "recursionDepth" = VNum (0 + 1).
Proof.
  assert (H1 : exists o, heap st_traced !! addr_traced = Some o /\
     o_kind o = KFunction EmptyString 0 (CTraceShim (VRef addr_checked) (VStr "checked")) /\
     obj_get o "recursionDepth" = VNum 0)
    by (eexists; split; [vm_compute; reflexivity | split; reflexivity]).
  destruct H1 as (o & Hl & Hk & Hz).
  exists o. split.
  - split; [exact Hl|]. split; [exact Hk|]. split; [exact Hz|].
    split; [reflexivity|]. split; reflexivity.
  - destruct (X16_trace_unprintable_argument 4 addr_traced o EmptyString 0
                (VRef addr_checked) (VStr "checked") (VRef addr_obj) [VNum 3] []
                VUndefined "checked" ["3"] 0 st_traced (TypeError "retval is undefined")
                Hl Hk Hz eq_refl eq_refl eq_refl)
      as (st' & E1 & E2 & _ & _ & E5).
    exists st'. split; [exact E1|]. split; [exact E2 | exact E5].
Defined.

(** ** The length of a rendering *)

Lemma substring_length_le s : forall n m, String.length (substring n m s) <= m.
Proof.
  induction s as [|c s IH]; intros n m.
  - destruct n, m; simpl; lia.
  - destruct n as [|n]; destruct m as [|m]; simpl; try lia.
    + specialize (IH 0 m). lia.
    + apply IH.
    + apply IH.
Qed.

Lemma truncate_length r : String.length (truncate r) <= 15.
Proof.
  unfold truncate, strlen. destruct (Z.ltb_spec 15 (Z.of_nat (String.length r))).
  - rewrite string_length_app. pose proof (substring_length_le r 0 12). simpl. lia.
  - lia.
Qed.


(** ** Texts without a newline *)

Lemma has_char_app c a b : has_char c (a +:+ b) = has_char c a || has_char c b.
Proof.
  induction a as [|x a IH]; [reflexivity|].
  rewrite string_app_cons. simpl. rewrite IH. now rewrite orb_assoc.
Qed.

Lemma one_line_app a b : one_line a -> one_line b -> one_line (a +:+ b).
Proof. unfold one_line. intros Ha Hb. now rewrite has_char_app, Ha, Hb. Qed.

Lemma one_line_concat sep l :
  one_line sep -> Forall one_line l -> one_line (String.concat sep l).
Proof.
  intros Hs H. induction H as [|x l Hx Hl IH]; [reflexivity|].
  destruct l as [|y l]; [exact Hx|].
  cbn [String.concat]. apply one_line_app; [exact Hx|].
  apply one_line_app; [exact Hs | exact IH].
Qed.

Lemma one_line_substring s : forall n m, one_line s -> one_line (substring n m s).
Proof.
  unfold one_line. induction s as [|c s IH]; intros n m H.
  - destruct n, m; reflexivity.
  - simpl in H. apply orb_false_elim in H as [Hc Hs].
    destruct n as [|n]; destruct m as [|m]; simpl; rewrite ?Hc; cbn [orb]; auto.
Qed.

Lemma one_line_truncate r : one_line r -> one_line (truncate r).
Proof.
  intros H. unfold truncate. destruct (15 <? strlen r)%Z; [|exact H].
  apply one_line_app; [now apply one_line_substring | reflexivity].
Qed.

Lemma one_line_uint d : one_line (NilEmpty.string_of_uint d).
Proof. unfold one_line. induction d; simpl; auto. Qed.

Lemma one_line_nz_uint d : one_line (NilZero.string_of_uint d).
Proof.
  unfold NilZero.string_of_uint. destruct d; try reflexivity; apply one_line_uint.
Qed.

Lemma one_line_Z_to_string n : one_line (Z_to_string n).
Proof.
  unfold Z_to_string, NilZero.string_of_int.
  destruct (Z.to_int n) as [d|d]; [apply one_line_nz_uint|].
  apply (one_line_app "-"); [reflexivity | apply one_line_nz_uint].
Qed.

Lemma one_line_json_escape c : one_line (json_escape c).
Proof. destruct c as [[] [] [] [] [] [] [] []]; reflexivity. Qed.

Lemma one_line_json_quote s : one_line (json_quote s).
Proof.
  unfold json_quote. apply one_line_app; [reflexivity|].
  apply one_line_app; [|reflexivity].
  induction s as [|c s IH]; [reflexivity|].
  cbn [json_escape_all]. apply one_line_app; [apply one_line_json_escape | exact IH].
Qed.

Lemma rmapM_Forall {A B} (f : A -> result B) (P : B -> Prop) l bs :
  (forall a b, In a l -> f a = ROk b -> P b) ->
  rmapM f l = ROk bs -> Forall P bs.
Proof.
  revert bs. induction l as [|a l IH]; intros bs Hf H.
  - inversion H. constructor.
  - cbn [rmapM] in H. destruct (f a) as [b| | |] eqn:Ea; try discriminate.
    cbn [rbind] in H. destruct (rmapM f l) as [bs'| | |] eqn:El; try discriminate.
    inversion H; subst. constructor.
    + eapply Hf; [left; reflexivity | exact Ea].
    + apply IH; [|reflexivity]. intros a0 b0 Hin. apply Hf. now right.
Qed.

(** [JSON.stringify] writes no newline: those of a string are
    escaped. *)
Lemma one_line_stringify fuel h : forall stack v s,
  stringify fuel h stack v = ROk (Some s) -> one_line s.
Proof.
  induction fuel as [|fuel IH]; intros stack v s H.
  - destruct v as [| |[]|n| |t|l]; simpl in H; inversion H; subst;
      try reflexivity; [apply one_line_Z_to_string | apply one_line_json_quote].
  - destruct v as [| |[]|n| |t|l]; cbn [stringify] in H;
      try (inversion H; subst; reflexivity);
      try (inversion H; subst; apply one_line_Z_to_string);
      try (inversion H; subst; apply one_line_json_quote).
    destruct (h !! l) as [o|]; [|discriminate].
    destruct (is_function h (obj_get o "toJSON")); [discriminate|].
    destruct (o_kind o) as [|elems|n a c]; [| |discriminate].
    + destruct (bool_decide (l ∈ stack)); [discriminate|].
      destruct (has_index_key (o_props o)); [discriminate|].
      match type of H with
      | rbind (rmapM ?f ?l) _ = _ => destruct (rmapM f l) as [parts| | |] eqn:Ep
      end; try discriminate.
      cbn [rbind] in H. inversion H; subst.
      apply one_line_app; [reflexivity|]. apply one_line_app; [|reflexivity].
      apply one_line_concat; [reflexivity|].
      eapply (rmapM_Forall _ (fun r => forall t, r = Some t -> one_line t)) in Ep.
      * clear -Ep. induction Ep as [|[t|] parts Ht _ IHp]; cbn [omap option_bind id].
        -- constructor.
        -- constructor; [now apply Ht | exact IHp].
        -- exact IHp.
      * intros p b _ Hb t ->. cbv beta in Hb.
        destruct (stringify fuel h (l :: stack) p.2) as [[r|]| | |] eqn:Er;
          try discriminate; cbn [rbind fmap option_fmap option_map] in Hb;
          inversion Hb; subst.
        apply one_line_app; [apply one_line_json_quote|].
        apply one_line_app; [reflexivity|]. eapply IH; eauto.
    + destruct (bool_decide (l ∈ stack)); [discriminate|].
      match type of H with
      | rbind (rmapM ?f ?l) _ = _ => destruct (rmapM f l) as [parts| | |] eqn:Ep
      end; try discriminate.
      cbn [rbind] in H. inversion H; subst.
      apply one_line_app; [reflexivity|]. apply one_line_app; [|reflexivity].
      apply one_line_concat; [reflexivity|].
      eapply rmapM_Forall; [|exact Ep].
      intros e b _ Hb. cbv beta in Hb.
      destruct (stringify fuel h (l :: stack) e) as [[r|]| | |] eqn:Er;
        try discriminate; cbn [rbind from_option id] in Hb; inversion Hb; subst.
      * eapply IH; eauto.
      * reflexivity.
Qed.

(** A [length] that is not a string: the text of the suffix is then
    made of digits or is one of a few words. *)
Lemma one_line_ToString v s :
  (forall t, v <> VStr t) -> ToString v = ROk s -> one_line s.
Proof.
  intros Hv H. destruct v as [| |[]|n| |t|l]; simpl in H; inversion H; subst;
    try reflexivity.
  - apply one_line_Z_to_string.
  - destruct (Hv s eq_refl).
Qed.

Lemma one_line_prettyPrint fuel h v s :
  (forall t, get h v "length" <> ROk (VStr t)) ->
  _prettyPrint fuel h v = ROk s -> one_line s.
Proof.
  intros Hlen H. unfold _prettyPrint in H.
  destruct (stringify fuel h [] v) as [[r|]| | |] eqn:Er; try discriminate.
  cbn [rbind] in H. destruct (get h v "length") as [len| | |]; try discriminate.
  cbn [rbind] in H.
  assert (Hr : one_line (truncate r)).
  { apply one_line_truncate. eapply one_line_stringify; eauto. }
  destruct (negb (strict_eq len VUndefined)).
  - destruct (ToString len) as [n| | |] eqn:En; try discriminate.
    cbn [rbind] in H. inversion H; subst.
    apply one_line_app; [exact Hr|]. apply one_line_app; [reflexivity|].
    apply one_line_app; [|reflexivity].
    eapply one_line_ToString; [|exact En]. intros t ->. now apply (Hlen t).
  - inversion H; subst. exact Hr.
Qed.

(** The pieces of a split text do not contain the separator, nor a
    character that the text does not contain. *)
Lemma split_aux_sep_free sep s : forall acc,
  has_char sep acc = false ->
  Forall (fun p => has_char sep p = false) (split_aux sep acc s).
Proof.
  induction s as [|x s IH]; intros acc Ha; simpl.
  - repeat constructor. exact Ha.
  - destruct (Ascii.eqb x sep) eqn:Ex.
    + constructor; [exact Ha | now apply IH].
    + apply IH. rewrite has_char_app, Ha. simpl. now rewrite Ex.
Qed.

Lemma split_aux_keeps c sep s : forall acc,
  has_char c acc = false -> has_char c s = false ->
  Forall (fun p => has_char c p = false) (split_aux sep acc s).
Proof.
  induction s as [|x s IH]; intros acc Ha Hs; simpl.
  - repeat constructor. exact Ha.
  - simpl in Hs. apply orb_false_elim in Hs as [Hx Hs].
    destruct (Ascii.eqb x sep).
    + constructor; [exact Ha | now apply IH].
    + apply IH; [|exact Hs]. rewrite has_char_app, Ha. simpl. now rewrite Hx.
Qed.

Lemma nth_str_Forall (P : string -> Prop) l i s :
  Forall P l -> nth_str l i = VStr s -> P s.
Proof.
  intros H. unfold nth_str. destruct (l !! i) as [t|] eqn:E; [|discriminate].
  intros [= <-]. eapply Forall_lookup_1; eauto.
Qed.

Lemma getCurrentStack_one_line estack : Forall one_line (_getCurrentStack estack).
Proof.
  unfold _getCurrentStack. cbv zeta.
  pose proof (split_aux_sep_free nl estack EmptyString eq_refl) as H.
  change (split_aux nl EmptyString estack) with (split (ascii_of_nat 10) estack) in H.
  apply Forall_forall. intros f Hf. rewrite Forall_forall in H. apply H.
  apply list_elem_of_In. apply list_elem_of_In in Hf.
  assert (Hin : In f (removelast (split (ascii_of_nat 10) estack))).
  { destruct (removelast (split (ascii_of_nat 10) estack)); [destruct Hf | now right]. }
  clear Hf. revert Hin. generalize (split (ascii_of_nat 10) estack). intros l.
  induction l as [|x l IH]; [intros []|].
  destruct l as [|y l]; [intros []|].
  change (removelast (x :: y :: l)) with (x :: removelast (y :: l)).
  intros [-> | Hin]; [now left | right; now apply IH].
Qed.

(** The file and the line that [_interpretStackFrame] finds in a frame
    without newline have none either. *)
Lemma interpretStackFrame_one_line frame func file line f :
  (forall s, frame = VStr s -> one_line s) ->
  _interpretStackFrame frame = ROk (func, file, line) ->
  (ToString file = ROk f -> one_line f) /\ (ToString line = ROk f -> one_line f).
Proof.
  intros Hfr H. unfold _interpretStackFrame in H.
  destruct frame as [| | | | |s|]; try discriminate.
  specialize (Hfr s eq_refl).
  destruct (nth_str (split "@" s) 1) as [| | | | |fileLine|] eqn:E; try discriminate.
  assert (Hfl : one_line fileLine).
  { eapply (nth_str_Forall one_line); [|exact E].
    apply (split_aux_keeps nl "@" s EmptyString eq_refl Hfr). }
  assert (Hp : Forall one_line (split ":" fileLine)).
  { apply (split_aux_keeps nl ":" fileLine EmptyString eq_refl Hfl). }
  inversion H; subst. clear H.
  assert (Hn : forall i, ToString (nth_str (split ":" fileLine) i) = ROk f -> one_line f).
  { intros i Hi. destruct (nth_str (split ":" fileLine) i) as [| | | | |t|] eqn:Ei;
      try (unfold nth_str in Ei; destruct (split ":" fileLine !! i); discriminate).
    - inversion Hi; subst. reflexivity.
    - inversion Hi; subst. eapply (nth_str_Forall one_line); eauto. }
  split; apply Hn.
Qed.

Lemma one_line_replicate_spaces k :
  one_line (String.concat EmptyString (replicate k " ")).
Proof.
  apply one_line_concat; [reflexivity|].
  induction k; simpl; constructor; [reflexivity | assumption].
Qed.

Lemma one_line_format_elapsed us : one_line (format_elapsed us).
Proof.
  unfold format_elapsed, pad_left, elapsed_digits.
  apply one_line_app; [|reflexivity].
  apply one_line_app; [apply one_line_replicate_spaces|].
  apply one_line_app; [destruct (Z.rem us 100000000 <? 0)%Z; reflexivity|].
  apply one_line_app; [apply one_line_Z_to_string|].
  apply one_line_app; [reflexivity | apply one_line_Z_to_string].
Qed.


(** X17.  The text that [_prettyPrint] returns is a rendering of at
    most 15 characters, followed by the suffix [ (length N)] exactly
    when the value has a [length]. *)
Theorem X17_prettyPrint_bounded (fuel : nat) (h : list object) (v : value) (s : string) :
  _prettyPrint fuel h v = ROk s ->
  exists body,
    String.length body <= 15 /\
    ((get h v "length" = ROk VUndefined /\ s = body) \/
     (exists len n, get h v "length" = ROk len /\ len <> VUndefined /\
                    ToString len = ROk n /\ s = body +:+ " (length " +:+ n +:+ ")")).
Proof.
  unfold _prettyPrint. destruct (stringify fuel h [] v) as [[r|]| | |]; try discriminate.
  cbn [rbind]. destruct (get h v "length") as [len| | |]; try discriminate.
  cbn [rbind]. intros H. exists (truncate r). split; [apply truncate_length|].
  destruct (strict_eq len VUndefined) eqn:E.
  - apply strict_eq_undefined in E. subst len. cbn [negb] in H. left.
    split; [reflexivity | congruence].
  - cbn [negb] in H. right. destruct (ToString len) as [n| | |] eqn:En; try discriminate.
    cbn [rbind] in H. exists len, n. repeat split; try congruence.
    intros ->. discriminate E.
Qed.

Lemma X17_prettyPrint_bounded_witness :
  _prettyPrint 5 (heap st_demo) (VStr "a long string to print") =
    ROk (chr 34 +:+ "a long stri... (length 22)") /\
  exists body,
    String.length body <= 15 /\
    ((get (heap st_demo) (VStr "a long string to print") "length" = ROk VUndefined /\
      chr 34 +:+ "a long stri... (length 22)" = body) \/
     (exists len n,
        get (heap st_demo) (VStr "a long string to print") "length" = ROk len /\
        len <> VUndefined /\ ToString len = ROk n /\
        chr 34 +:+ "a long stri... (length 22)" = body +:+ " (length " +:+ n +:+ ")")).
Proof.
  split; [reflexivity|].
  exact (X17_prettyPrint_bounded 5 (heap st_demo) (VStr "a long string to print")
           (chr 34 +:+ "a long stri... (length 22)") eq_refl).
Defined.

(** X18.  A record of [q] is one line.  Whenever [q] returns, it has
    either written nothing ([DEBUG] is off) or appended exactly one
    text that ends in a newline and has no other newline in it, the
    newlines of a string value being escaped by [JSON.stringify]; the
    heap is as before.  (For a value whose [length] is not a string.) *)
Theorem X18_q_single_line
    (fuel : nat) (estack : string) (v : value) (st : state) (r : value) (st' : state) :
  (forall t, get (heap st) v "length" <> ROk (VStr t)) ->
  q fuel estack v st = Done r st' ->
  st' = st \/
  exists body,
    _stream st' = _stream st ++ [body +:+ chr 10] /\ one_line body /\
    heap st' = heap st.
Proof.
  intros Hlen H. unfold q in H. destruct (negb (truthy (DEBUG st))).
  - left. congruence.
  - right.
    apply bind_done in H as ([[func file] line] & s1 & H1 & H).
    apply bind_done in H as (f & s2 & H2 & H).
    apply bind_done in H as (l & s3 & H3 & H).
    apply bind_done in H as (s & s4 & H4 & H).
    apply bind_done in H as (u & s5 & H5 & H).
    unfold ret in H. inversion H; subst r st'. clear H.
    unfold lift in H1.
    destruct (_interpretStackFrame (nth_str (_getCurrentStack estack) 1)) as [x| | |] eqn:Ei;
      inversion H1; subst x s1. clear H1.
    unfold lift in H2. destruct (ToString file) as [x| | |] eqn:Ef;
      inversion H2; subst x s2. clear H2.
    unfold lift in H3. destruct (ToString line) as [x| | |] eqn:El;
      inversion H3; subst x s3. clear H3.
    unfold prettyPrintM, lift in H4.
    destruct (_prettyPrint fuel (heap st) v) as [x| | |] eqn:Ep;
      inversion H4; subst x s4. clear H4.
    unfold write, bind, lift in H5. cbn [rmapM rbind join_token ToString] in H5.
    inversion H5; subst s5. clear H5.
    assert (Hframe : forall t, nth_str (_getCurrentStack estack) 1 = VStr t -> one_line t).
    { intros t Ht. eapply (nth_str_Forall one_line); [|exact Ht].
      apply getCurrentStack_one_line. }
    destruct (interpretStackFrame_one_line _ _ _ _ f Hframe Ei) as [Hf _].
    destruct (interpretStackFrame_one_line _ _ _ _ l Hframe Ei) as [_ Hl].
    eexists. split; [|split; [|reflexivity]].
    + cbn [_stream String.concat]. rewrite <- string_app_assoc. reflexivity.
    + apply one_line_app; [apply one_line_format_elapsed|].
      apply one_line_app; [now apply Hf|]. apply one_line_app; [reflexivity|].
      apply one_line_app; [now apply Hl|]. apply one_line_app; [reflexivity|].
      eapply one_line_prettyPrint; eauto.
Qed.

Lemma X18_q_single_line_witness :
  exists st',
    ((forall t, get (heap st_demo) (VStr ("two" +:+ chr 10 +:+ "lines")) "length" <>
                ROk (VStr t)) /\
     q 5 stack_demo (VStr ("two" +:+ chr 10 +:+ "lines")) st_demo =
       Done (VStr ("two" +:+ chr 10 +:+ "lines")) st') /\
    (st' = st_demo \/
     exists body,
       _stream st' = _stream st_demo ++ [body +:+ chr 10] /\ one_line body /\
       heap st' = heap st_demo).
Proof.
  assert (Hlen : forall t, get (heap st_demo) (VStr ("two" +:+ chr 10 +:+ "lines")) "length" <>
                           ROk (VStr t)) by (intros t; discriminate).
  eexists. split; [split; [exact Hlen | vm_compute; reflexivity] |].
  apply (X18_q_single_line 5 stack_demo (VStr ("two" +:+ chr 10 +:+ "lines")) st_demo
           (VStr ("two" +:+ chr 10 +:+ "lines")) _ Hlen).
  vm_compute; reflexivity.
Defined.

(** ** Termination of the decorators *)

(** A tag query that runs to the end has walked a chain. *)
Lemma tag_check_chain fuel h tag : forall v,
  _isDecoratedWithTag fuel h v tag = ROk false -> exists ls e, chain h v ls e.
Proof.
  induction fuel as [|fuel IH]; intros v H; [discriminate|].
  cbn [_isDecoratedWithTag] in H.
  destruct (get h v "isDecorator") as [d| | |] eqn:Hd; try discriminate.
  cbn [rbind] in H. destruct (truthy d) eqn:Ht.
  - destruct (truthy_decorator_ref _ _ _ Hd Ht) as (l & o & -> & Hl & _).
    destruct (get h (VRef l) "tag") as [t| | |]; try discriminate.
    cbn [rbind] in H. destruct (strict_eq t tag); [discriminate|].
    destruct (get h (VRef l) "wraps") as [w| | |] eqn:Hw; try discriminate.
    cbn [rbind] in H. destruct (IH w H) as (ls & e & Hc).
    exists (l :: ls), e. eapply chain_wraps; eauto.
  - exists [], v. eapply chain_end; eauto.
Qed.

Lemma chain_length h v ls e : chain h v ls e -> length ls <= length h.
Proof.
  intros Hc.
  pose proof (chain_NoDup _ _ _ _ Hc) as Hn.
  pose proof (chain_members_valid _ _ _ _ Hc) as Hv.
  assert (H : length ls <= length (seq 0 (length h))).
  { apply submseteq_length, NoDup_submseteq; [exact Hn|].
    intros x Hx. rewrite Forall_forall in Hv. specialize (Hv x Hx).
    apply list_elem_of_In, in_seq. lia. }
  now rewrite length_seq in H.
Qed.

Lemma all_chained_undecorated h : undecorated h -> all_chained h.
Proof.
  intros Hu l Hl. destruct (lookup_lt_is_Some_2 _ _ Hl) as [o Ho].
  exists [], (VRef l). eapply chain_end; [apply (get_ref _ _ _ _ Ho)|].
  destruct (truthy (obj_get o "isDecorator")) eqn:E; [|reflexivity].
  exfalso. apply (Hu l Hl). exists (obj_get o "isDecorator").
  split; [apply (get_ref _ _ _ _ Ho) | exact E].
Qed.

Lemma all_chained_links h h' : links_eq h h' -> all_chained h -> all_chained h'.
Proof.
  intros Heq Ha l Hl. destruct Heq as [Hlen Hf].
  destruct (Ha l ltac:(lia)) as (ls & e & Hc).
  exists ls, e. eapply links_eq_chain; [|exact Hc]. split; assumption.
Qed.

Lemma all_chained_wrapped i fuel func funcName st :
  all_chained (heap st) ->
  _isDecoratedWithTag fuel (heap st) func (VStr (tag_of i)) = ROk false ->
  all_chained (heap (wrapped i func funcName st)).
Proof.
  intros Ha Ht l Hl. rewrite wrapped_length in Hl.
  destruct (wrapped_new i func funcName st) as (Hn1 & Hn2 & _).
  pose proof (wrapped_length i func funcName st) as Hlen.
  destruct (decide (l = length (heap st))) as [-> | Hne].
  - destruct (tag_check_chain _ _ _ _ Ht) as (ls & e & Hc).
    exists (length (heap st) :: ls), e.
    eapply chain_wraps with (d := VBool true) (w := func).
    + rewrite get_ref_field by lia. now rewrite Hn1.
    + reflexivity.
    + rewrite get_ref_field by lia. now rewrite Hn2.
    + now apply chain_wrapped_to.
  - destruct (Ha l ltac:(lia)) as (ls & e & Hc).
    exists ls, e. now apply chain_wrapped_to.
Qed.

(** A property of the heap that the decorators, the calls and the
    writes to the members outside [keys] keep holds along every run. *)
Section RunInvariant.
Variable keys : list string.
Variable P : list object -> Prop.
Hypothesis P_set : forall h v k x h',
  ~ In k keys -> set h v k x = ROk h' -> P h -> P h'.
Hypothesis P_wrapped : forall i fuel func funcName st,
  P (heap st) ->
  _isDecoratedWithTag fuel (heap st) func (VStr (tag_of i)) = ROk false ->
  P (heap (wrapped i func funcName st)).
Hypothesis P_call : forall fuel f this args, frame (keeps P) (call fuel f this args).

Lemma keeps_trans a b c : keeps P a b -> keeps P b c -> keeps P a c.
Proof. unfold keeps. auto. Qed.

Lemma getP_keeps v k : frame (keeps P) (getP v k).
Proof.
  intros st st' H HP. unfold getP, lift in H.
  destruct (get (heap st) v k); inversion H; subst; exact HP.
Qed.

Lemma setP_keeps v k x : ~ In k keys -> frame (keeps P) (setP v k x).
Proof.
  intros Hk st st' H HP. unfold setP in H.
  destruct (set (heap st) v k x) as [h'|e| |] eqn:E; inversion H; subst.
  - rewrite with_heap_heap. eapply P_set; eauto.
  - exact HP.
Qed.

Lemma decorator_keeps i fuel func funcName :
  frame (keeps P) (decorator i fuel func funcName).
Proof.
  intros st st' Hf HP.
  apply decorator_final in Hf as [-> | [-> Ht]]; [exact HP|].
  eapply P_wrapped; eauto.
Qed.

Lemma attacher_keeps i fuel args st st' :
  final (attacher i fuel args st) = Some st' ->
  (forall k, attach_key (heap st) args = Some k -> ~ In k keys) ->
  keeps P st st'.
Proof.
  intros Hf Hk. rewrite attacher_decorate in Hf. unfold _decorate in Hf.
  assert (Hattach : forall scope ident key, ~ In key keys ->
            frame (keeps P)
              (old <- getP scope key ;;
               new <- decorator i fuel old ident ;;
               _ <- setP scope key new ;;
               getP scope key)).
  { intros scope ident key Hn.
    apply frame_bind; [exact keeps_trans | apply getP_keeps|]. intros old.
    apply frame_bind; [exact keeps_trans | apply decorator_keeps|]. intros new.
    apply frame_bind; [exact keeps_trans | apply setP_keeps; exact Hn|]. intros _.
    apply getP_keeps. }
  destruct args as [|a0 [|a1 [|a2 rest]]]; simpl in Hf.
  - inversion Hf; subst. intros H; exact H.
  - simpl in Hk. destruct (is_function (heap st) a0).
    + eapply decorator_keeps; eauto.
    + unfold bind at 1 in Hf. unfold lift at 1 in Hf.
      destruct (ToString a0) as [key| | |] eqn:Es; cbv beta iota in Hf; try discriminate.
      * eapply (Hattach (window st) a0 key); [apply Hk; reflexivity | exact Hf].
      * inversion Hf; subst. intros H; exact H.
  - simpl in Hk. unfold bind at 1 in Hf. unfold lift at 1 in Hf.
    destruct (ToString a1) as [key| | |] eqn:Es; cbv beta iota in Hf; try discriminate.
    + eapply (Hattach a0 a1 key); [apply Hk; reflexivity | exact Hf].
    + inversion Hf; subst. intros H; exact H.
  - inversion Hf; subst. intros H; exact H.
Qed.

Lemma run_step_keeps_heap st st' : run_step keys st st' -> keeps P st st'.
Proof.
  intros H. destruct H as [i fuel func funcName st st' Hf
                          | i fuel args st st' Hf Hk
                          | v st
                          | fuel f this args st st' Hf].
  - eapply decorator_keeps; eauto.
  - eapply attacher_keeps; eauto.
  - intros H; exact H.
  - eapply P_call; eauto.
Qed.

Lemma run_keeps_heap st st' : run keys st st' -> keeps P st st'.
Proof.
  intros H. induction H as [st | st st' st'' _ IH Hs].
  - intros H; exact H.
  - eapply keeps_trans; [exact IH|]. now apply run_step_keeps_heap.
Qed.
End RunInvariant.

Lemma reachable_all_chained st0 st :
  undecorated (heap st0) -> run link_keys st0 st -> all_chained (heap st).
Proof.
  intros Hu Hs.
  eapply (run_keeps_heap link_keys all_chained); [| | |exact Hs|].
  - intros h v k x h' Hk Hset Ha.
    eapply all_chained_links; [|exact Ha]. eapply set_links_eq; eauto.
  - apply all_chained_wrapped.
  - intros fuel f this args st1 st2 Hf Ha.
    eapply all_chained_links; [|exact Ha].
    apply (call_keeps_links fuel f this args _ _ Hf).
  - now apply all_chained_undecorated.
Qed.



(** ** An exception in a traced function *)

(** X20.  An exception of the wrapped function passes through the
    closure of [_traceDecorator] as it is, and the closure does nothing
    after it: the state in which the call of the closure ends is the
    state in which the function raised, so the line [Leaving] is not
    written and the counter is not lowered. *)
Theorem X20_trace_closure_raises
    (fuel : nat) (l : loc) (o : object) (n : string) (a : nat)
    (func funcName this : value) (args : list value) (name : string)
    (strs : list string) (z : Z) (st st2 : state) (e : exn) :
  heap st !! l = Some o ->
  o_kind o = KFunction n a (CTraceShim func funcName) ->
  obj_get o "recursionDepth" = VNum z ->
  ToString funcName = ROk name ->
  rmapM (_prettyPrint fuel (heap (after (preinc (VRef l) "recursionDepth") st))) args =
    ROk strs ->
  call fuel func this args (entered l (trace_string name strs (z + 1)) st) =
    Raise e st2 ->
  call (S fuel) (VRef l) this args st = Raise e st2 /\
  field (heap (entered l (trace_string name strs (z + 1)) st)) l "recursionDepth" =
    VNum (z + 1).
Proof.
  intros Hl Hk Hz Hname Hargs Hcall.
  pose proof (preinc_depth l o z st Hl Hz) as Hinc.
  set (o1 := with_props o (props_set (o_props o) "recursionDepth" (VNum (z + 1)))) in *.
  set (st0 := with_heap st (<[l := o1]> (heap st))) in *.
  assert (E0 : after (preinc (VRef l) "recursionDepth") st = st0).
  { unfold after. now rewrite Hinc. }
  rewrite E0 in Hargs.
  set (traceString := trace_string name strs (z + 1)) in *.
  assert (Hw : write [VStr "Entering"; VStr traceString] st0 =
               Done tt (entered l traceString st)).
  { unfold entered. rewrite E0. reflexivity. }
  split.
  - cbn [call]. rewrite Hl, Hk. unfold trace_shim.
    unfold bind at 1. rewrite Hinc.
    unfold bind at 1. rewrite Hname. cbn [lift].
    unfold bind at 1. rewrite mapM_prettyPrintM, Hargs. cbn [lift].
    unfold bind at 1.
    assert (Ets : (if gt1 (VNum (z + 1))
                   then d <- lift (ToString (VNum (z + 1))) ;;
                        ret ((name +:+ "(" +:+ String.concat ", " strs +:+ ")") +:+
                             " [" +:+ d +:+ "]")
                   else ret (name +:+ "(" +:+ String.concat ", " strs +:+ ")")) st0 =
                  Done traceString st0).
    { unfold traceString, trace_string. cbn [gt1].
      destruct (1 <? z + 1)%Z; reflexivity. }
    rewrite Ets.
    unfold bind at 1. rewrite Hw.
    unfold bind at 1. rewrite Hcall. reflexivity.
  - unfold entered. rewrite E0. unfold field.
    change (heap (after (write [VStr "Entering"; VStr traceString]) st0))
      with (<[l := o1]> (heap st)).
    rewrite list_lookup_insert_eq by (eapply lookup_lt_Some; eauto).
    unfold o1. now apply obj_get_set_eq.
Qed.

Lemma X20_trace_closure_raises_witness :
  exists o st2,
    (heap st_traced !! addr_traced = Some o /\
     o_kind o = KFunction EmptyString 0 (CTraceShim (VRef addr_checked) (VStr "checked")) /\
     obj_get o "recursionDepth" = VNum 0 /\
     ToString (VStr "checked") = ROk "checked" /\
     rmapM (_prettyPrint 4
              (heap (after (preinc (VRef addr_traced) "recursionDepth") st_traced)))
           [VNum (-1)] = ROk ["-1"] /\
     call 4 (VRef addr_checked) (VRef addr_obj) [VNum (-1)]
          (entered addr_traced (trace_string "checked" ["-1"] (0 + 1)) st_traced) =
       Raise (Thrown (VStr "negative")) st2) /\
    call 5 (VRef addr_traced) (VRef addr_obj) [VNum (-1)] st_traced =
      Raise (Thrown (VStr "negative")) st2 /\
    _stream st2 = [" 1.5s Entering checked(-1)" +:+ chr 10] /\
    field (heap st2) addr_traced "recursionDepth" = VNum 1.
Proof.
  assert (H1 : exists o, heap st_traced !! addr_traced = Some o /\
     o_kind o = KFunction EmptyString 0 (CTraceShim (VRef addr_checked) (VStr "checked")) /\
     obj_get o "recursionDepth" = VNum 0)
    by (eexists; split; [vm_compute; reflexivity | split; reflexivity]).
  destruct H1 as (o & Hl & Hk & Hz).
  assert (H2 : exists st2,
     call 4 (VRef addr_checked) (VRef addr_obj) [VNum (-1)]
          (entered addr_traced (trace_string "checked" ["-1"] (0 + 1)) st_traced) =
       Raise (Thrown (VStr "negative")) st2 /\
     _stream st2 = [" 1.5s Entering checked(-1)" +:+ chr 10] /\
     field (heap st2) addr_traced "recursionDepth" = VNum 1)
    by (eexists; split; [vm_compute; reflexivity | split; reflexivity]).
  destruct H2 as (st2 & Hc & Hs2 & Hd2).
  exists o, st2. split; [|split; [|split; [exact Hs2 | exact Hd2]]].
  - split; [exact Hl|]. split; [exact Hk|]. split; [exact Hz|].
    split; [reflexivity|]. split; [reflexivity | exact Hc].
  - exact (proj1 (X20_trace_closure_raises 4 addr_traced o EmptyString 0
                    (VRef addr_checked) (VStr "checked") (VRef addr_obj) [VNum (-1)]
                    "checked" ["-1"] 0 st_traced st2 (Thrown (VStr "negative"))
                    Hl Hk Hz eq_refl eq_refl Hc)).
Defined.

(** ** The breakpoint closure *)

(** X21.  The closure of [_breakBeforeDecorator].  A call of the
    closure writes the line [Breakpoint N reached], with the number of
    its record, then traps once, and only then calls the wrapped
    function, whose outcome, whatever it is, is the outcome of the
    call. *)
Theorem X21_break_closure
    (fuel : nat) (l : loc) (o : object) (n : string) (a : nat)
    (func this : value) (args : list value) (num : Z) (st : state) :
  heap st !! l = Some o ->
  o_kind o = KFunction n a (CBreakShim func) ->
  obj_get o "breakpointNum" = VNum num ->
  exists st1,
    _stream st1 =
      _stream st ++
      [format_elapsed (clock st (ticks st) - _startTime st) +:+
       "Breakpoint " +:+ Z_to_string num +:+ " reached" +:+ chr 10] /\
    traps st1 = S (traps st) /\ ticks st1 = S (ticks st) /\ heap st1 = heap st /\
    call (S fuel) (VRef l) this args st = call fuel func this args st1.
Proof.
  intros Hl Hk Hn. eexists. split; [|split; [|split; [|split]]].
  5:{ cbn [call]. rewrite Hl, Hk. unfold break_shim.
      unfold bind at 1. unfold getP. rewrite (get_ref _ _ _ _ Hl), Hn. cbn [lift].
      unfold bind at 1. unfold write, bind, lift.
      cbn [rmapM rbind join_token ToString get_monotonic_time stream_write breakpoint].
      reflexivity. }
  - cbn [_stream String.concat]. rewrite !string_app_assoc. reflexivity.
  - reflexivity.
  - reflexivity.
  - reflexivity.
Qed.

Lemma X21_break_closure_witness :
  exists o,
    (heap st_bp2 !! 6 = Some o /\
     o_kind o = KFunction EmptyString 0 (CBreakShim (VRef addr_print)) /\
     obj_get o "breakpointNum" = VNum 2) /\
    exists st1,
      _stream st1 = [" 1.5s Breakpoint 2 reached" +:+ chr 10] /\
      traps st1 = 1 /\
      call 5 (VRef 6) VUndefined [] st_bp2 = call 4 (VRef addr_print) VUndefined [] st1.
Proof.
  assert (H1 : exists o, heap st_bp2 !! 6 = Some o /\
     o_kind o = KFunction EmptyString 0 (CBreakShim (VRef addr_print)) /\
     obj_get o "breakpointNum" = VNum 2)
    by (eexists; split; [vm_compute; reflexivity | split; reflexivity]).
  destruct H1 as (o & Hl & Hk & Hn).
  exists o. split; [split; [exact Hl | split; [exact Hk | exact Hn]] |].
  destruct (X21_break_closure 4 6 o EmptyString 0 (VRef addr_print) VUndefined [] 2
              st_bp2 Hl Hk Hn) as (st1 & E1 & E2 & _ & _ & E5).
  exists st1. split; [rewrite E1; reflexivity | split; [rewrite E2; reflexivity | exact E5]].
Defined.
